(** * psychrochart.util: the iteration solver and the convex hull

    A shallow embedding of [src/psychrochart/util.py] and the proofs of
    its specification.

    Numbers.  The Python code computes on floats (binary64).  The
    embedding has two layers.

    The exact layer uses rational numbers ([Q]): every operation of the
    source ([+], [-], [*], [/], [abs], [max], the comparisons) is the
    operation of the same name on [Q], and equality of numbers is [Qeq]
    (Python's [==]), never the syntactic equality of two fractions.  It
    carries what rests on the comparisons and on the order of the steps
    of the program, and the runs of the program through numbers that the
    floats compute without rounding.

    The float layer (module [B64]) rounds the result of every operation
    to the nearest float, with the infinities for an overflow and with
    nan.  What depends on the values that the program computes is stated
    on this layer, for the inputs on which no operation rounds
    ([exact_turn], [on_grid], [exact_run]); there the two layers agree
    ([orientation_exact], [convex_hull_on_grid], [iter_solver_exact]).

    The only transcendental function of the source, [np.arctan2], is used
    as a sorting key alone; it is kept symbolically and compared exactly
    (see [angle_compare], which is proved to be the order of the real
    numbers [arctan2(y, x)]): the floats that [np.arctan2] returns are
    taken to be in the order of the angles.  They are for points with
    integer coordinates up to [hull_grid], between which two different
    directions differ by far more than the error of [np.arctan2]; far off
    this grid two different angles can get the same float.

    Exceptions.  A function that can raise returns a [result]: [Ok v] for a
    normal return and [Raise e] for the exception [e]. *)

From Stdlib Require Import String.
From Stdlib Require Import QArith Qabs Qminmax Lqa ZArith Lia List Bool.
From Stdlib Require Import Sorting.Sorted.
From Stdlib Require Import Reals Qreals.
From Stdlib Require Lra.
Import ListNotations.

Open Scope Q_scope.

(** ** Results of functions that may raise *)

Inductive result (E A : Type) : Type :=
| Ok (a : A)
| Raise (e : E).

Arguments Ok {E A} a.
Arguments Raise {E A} e.

Definition bind {E A B} (r : result E A) (k : A -> result E B) : result E B :=
  match r with
  | Ok a => k a
  | Raise e => Raise e
  end.

Notation "x <- r ;; k" := (bind r (fun x => k))
  (at level 61, r at next level, right associativity).

(** ** Comparisons of numbers as the source writes them *)

(** [a < b] *)
Definition Qltb (a b : Q) : bool :=
  match a ?= b with Lt => true | _ => false end.

(** [a > b] *)
Definition Qgtb (a b : Q) : bool := Qltb b a.

(** * The turn classifier and the convex hull *)

(** A point is a Python tuple [(x, y)] of two floats. *)
Definition point : Type := (Q * Q)%type.

Definition px (p : point) : Q := fst p.   (* p[0] *)
Definition py (p : point) : Q := snd p.   (* p[1] *)

(** Tuple comparison of Python: [p == q] compares componentwise, [p < q]
    is lexicographic. *)
Definition point_eqb (p q : point) : bool :=
  Qeq_bool (px p) (px q) && Qeq_bool (py p) (py q).

Definition point_ltb (p q : point) : bool :=
  if Qeq_bool (px p) (px q) then Qltb (py p) (py q) else Qltb (px p) (px q).

(** The three results of [orientation]; the source returns the integers
    given by [turn_code]. *)
Inductive turn : Type := Collinear | Clockwise | CounterClockwise.

Definition turn_code (t : turn) : Z :=
  match t with
  | Collinear => 0
  | Clockwise => 1
  | CounterClockwise => 2
  end%Z.

Definition turn_eqb (a b : turn) : bool :=
  match a, b with
  | Collinear, Collinear | Clockwise, Clockwise
  | CounterClockwise, CounterClockwise => true
  | _, _ => false
  end.

(** [val] of [orientation]. *)
Definition orientation_val (p q r : point) : Q :=
  (py q - py p) * (px r - px q) - (px q - px p) * (py r - py q).

Definition orientation (p q r : point) : turn :=
  let val := orientation_val p q r in
  if Qeq_bool val 0 then Collinear
  else if Qgtb val 0 then Clockwise
  else CounterClockwise.

(** The cross product [(q - p) x (r - q)] of the specification. *)
Definition cross_product (p q r : point) : Q :=
  (px q - px p) * (py r - py q) - (py q - py p) * (px r - px q).

(** ** [np.arctan2], kept symbolically

    [Arctan2 y x] stands for the real number [arctan2(y, x)], an angle in
    the interval (-pi, pi].  The source only compares these numbers (they
    are the first component of the sorting key), and two of them compare
    the way [angle_compare] says: the angle lies in one of four sectors,
        0: y < 0           angle in (-pi, 0)
        1: y = 0, x >= 0   angle 0
        2: y > 0           angle in (0, pi)
        3: y = 0, x < 0    angle pi
    and inside sector 0 or 2, which spans less than a half turn, the
    angle of [a] is below the angle of [b] exactly when the determinant
    [ax * by - ay * bx] is positive. *)
Record angle : Type := Arctan2 { ang_y : Q; ang_x : Q }.

Definition sector (a : angle) : Z :=
  if Qltb (ang_y a) 0 then 0
  else if Qltb 0 (ang_y a) then 2
  else if Qltb (ang_x a) 0 then 3 else 1.

Definition angle_compare (a b : angle) : comparison :=
  match (sector a ?= sector b)%Z with
  | Eq => 0 ?= ang_x a * ang_y b - ang_y a * ang_x b
  | c => c
  end.

(** The function [arctan2] on the real numbers: the angle, in (-pi, pi],
    of the vector [(x, y)], and 0 for the null vector.  [angle_value a] is
    the real number that [a] stands for; [angle_compare] compares these
    numbers ([angle_compare_arctan2] below). *)
Definition arctan2 (y x : R) : R :=
  if Rlt_dec 0 x then atan (y / x)
  else if Rlt_dec x 0 then
    if Rle_dec 0 y then atan (y / x) + PI else atan (y / x) - PI
  else if Rlt_dec 0 y then PI / 2
  else if Rlt_dec y 0 then - (PI / 2)
  else 0.

Definition angle_value (a : angle) : R :=
  arctan2 (Q2R (ang_y a)) (Q2R (ang_x a)).

(** The key of [sorted]: the tuple
    [(np.arctan2(x[1] - leftp[1], x[0] - leftp[0]), x[0], x[1])]. *)
Definition sort_key (leftp x : point) : angle * Q * Q :=
  (Arctan2 (py x - py leftp) (px x - px leftp), px x, py x).

(** Lexicographic comparison of two keys, as Python compares tuples. *)
Definition key_compare (k1 k2 : angle * Q * Q) : comparison :=
  let '(a1, x1, y1) := k1 in
  let '(a2, x2, y2) := k2 in
  match angle_compare a1 a2 with
  | Eq => match x1 ?= x2 with
          | Eq => y1 ?= y2
          | c => c
          end
  | c => c
  end.

Definition key_ltb (k1 k2 : angle * Q * Q) : bool :=
  match key_compare k1 k2 with Lt => true | _ => false end.

(** ** The builtins [min] and [sorted] *)

(** [min(points)] on a non-empty list: the first of the smallest
    elements. *)
Definition min_from (first : point) (rest : list point) : point :=
  fold_left (fun m x => if point_ltb x m then x else m) rest first.

(** [sorted(l, key=...)]: Python's sort is stable, and a stable sort is
    determined by its input; it is written here as the stable insertion
    sort.  [insert_sorted] puts [x], which stood before every element of
    [l], in front of the first element whose key is not smaller. *)
Section Sorted.
Variable leftp : point.

Fixpoint insert_sorted (x : point) (l : list point) : list point :=
  match l with
  | [] => [x]
  | y :: l' =>
      if key_ltb (sort_key leftp y) (sort_key leftp x)
      then y :: insert_sorted x l'
      else x :: l
  end.

Fixpoint sorted (l : list point) : list point :=
  match l with
  | [] => []
  | x :: l' => insert_sorted x (sorted l')
  end.
End Sorted.

(** ** The scan

    The list [hull] of the source is used as a stack that grows at its
    end.  Here the stack is a list whose head is the top: [q :: p :: _] is
    a stack with [hull[-1] = q] and [hull[-2] = p], [hull.pop()] takes the
    head off and [hull.append(r)] conses [r].  The list of the source is
    the reverse, which [convex_hull_graham_scan] returns. *)

(** The [while] loop for the point [r]. *)
Fixpoint pop_while (hull : list point) (r : point) : list point :=
  match hull with
  | q :: ((p :: _) as rest) =>
      if negb (turn_eqb (orientation p q r) CounterClockwise)
      then pop_while rest r
      else hull
  | _ => hull
  end.

(** One round of the [for] loop. *)
Definition scan_step (hull : list point) (r : point) : list point :=
  r :: pop_while hull r.

(** The [for] loop over [sorted_points[1:]]. *)
Definition scan (hull : list point) (rest : list point) : list point :=
  fold_left scan_step rest hull.

Inductive hull_exception : Type :=
| AssertionError      (* a failed [assert] *)
| IndexError.         (* [sorted_points[0]] on an empty list *)

(** The stack at the end of the [for] loop, top first. *)
Definition hull_stack (points : list point) : result hull_exception (list point) :=
  if negb (3 <=? length points)%nat then Raise AssertionError
  else
    match points with
    | [] => Raise AssertionError   (* not reached: [points] has 3 elements *)
    | first :: others =>
        let leftp := min_from first others in
        let sorted_points :=
          sorted leftp (filter (fun p => negb (point_eqb p leftp)) points) in
        match sorted_points with
        | [] => Raise IndexError
        | p0 :: rest => Ok (scan [p0; leftp] rest)
        end
    end.

Definition convex_hull_graham_scan (points : list point)
  : result hull_exception (list Q * list Q) :=
  stack <- hull_stack points ;;
  let hull := rev stack in
  let hull_x := map px hull in
  let hull_y := map py hull in
  if negb (2 <=? length hull_x)%nat then Raise AssertionError
  else Ok (hull_x, hull_y).


(** * The iteration solver *)

Definition NUM_ITERS_MAX : Z := 100.

(** The local variables of [_iter_solver]. *)
Record solver_state : Type := SolverState {
  value_calc : Q;
  increment : Q;
  decreasing : bool;
  num_iter : Z;
  error : Q;
  iteration_value : Q
}.

(** The [AssertionError]s of the two solver functions.  The message of the
    first one is built from the five values it carries. *)
Inductive solver_exception : Type :=
| NoConvergence (num_iter : Z)
    (value_calc increment objective_value iteration_value : Q)
| BadResult (num_iter : Z) (objective calc_p : Q)
| InvalidFamily.

(** What one pass through the body of the [while] loop does: it leaves by
    [break], or it reaches the end of the body. *)
Inductive pass : Type :=
| Break (st : solver_state)
| Next (st : solver_state).

Section IterSolver.
Variable objective_value : Q.
Variable func_eval : Q -> Q.
Variable num_iters_max : Z.
Variable precision : Q.

(** The body of the loop up to and including [num_iter += 1]. *)
Definition loop_body (st : solver_state) : pass :=
  let iteration_value := func_eval (value_calc st) in
  let error := objective_value - iteration_value in
  if Qltb (Qabs error) precision then
    Break (SolverState (value_calc st) (increment st) (decreasing st)
             (num_iter st) error iteration_value)
  else if Qltb error 0 then
    let increment :=
      if negb (decreasing st) then increment st / 2 else increment st in
    let increment := Qmax (precision / 20) increment in
    Next (SolverState (value_calc st - increment) increment true
            (num_iter st + 1) error iteration_value)
  else
    let increment :=
      if decreasing st then increment st / 2 else increment st in
    let increment := Qmax (precision / 20) increment in
    Next (SolverState (value_calc st + increment) increment false
            (num_iter st + 1) error iteration_value).

(** The [while] loop.  Every pass that does not leave the function adds
    one to [num_iter], and the loop is entered with
    [num_iter < num_iters_max] only, so [num_iters_max] passes are
    enough: [fuel] counts them down and is not used up
    ([while_loop_fuel] below). *)
Fixpoint while_loop (fuel : nat) (st : solver_state)
  : result solver_exception (Q * Z) :=
  if Qgtb (Qabs (error st)) precision && (num_iter st <? num_iters_max)%Z
  then
    match fuel with
    | O => Ok (value_calc st, num_iter st)
    | S fuel' =>
        match loop_body st with
        | Break st' => Ok (value_calc st', num_iter st')
        | Next st' =>
            if (num_iter st' =? num_iters_max)%Z
            then Raise (NoConvergence (num_iter st') (value_calc st')
                          (increment st') objective_value
                          (iteration_value st'))
            else while_loop fuel' st'
        end
    end
  else Ok (value_calc st, num_iter st).

(** The state before the loop ([iteration_value] is not bound yet in the
    source; 0 stands in for it and is never read). *)
Definition initial_state (initial_value initial_increment : Q)
  : solver_state :=
  SolverState initial_value initial_increment true 0
    (objective_value - func_eval initial_value) 0.
End IterSolver.

Definition _iter_solver (initial_value objective_value : Q)
    (func_eval : Q -> Q) (initial_increment : Q) (num_iters_max : Z)
    (precision : Q) : result solver_exception (Q * Z) :=
  while_loop objective_value func_eval num_iters_max precision
    (Z.to_nat num_iters_max)
    (initial_state objective_value func_eval initial_value initial_increment).

(** * The batch solver *)

(** The dictionary [families]:
    checking precision, initial increment, precision. *)
Definition families : list (string * (Q * Q * Q)) :=
  [ ("ENTHALPHY"%string, (1 # 100, 1 # 2, 1 # 100));
    ("CONSTANT VOLUME"%string, (5 # 10000, 1, 25 # 100000)) ].

Fixpoint lookup {A} (d : list (string * A)) (k : string) : option A :=
  match d with
  | [] => None
  | (k', v) :: d' => if String.eqb k k' then Some v else lookup d' k
  end.

Section SolveCurves.
(** The module constant [TESTING_MODE], read from the environment when
    the module is loaded. *)
Variable TESTING_MODE : bool.
Variable func_init : Q -> Q.
Variable func_eval : Q -> Q.

(** The [for] loop over [objective_values], with [calc_points] the
    list built so far. *)
Fixpoint solve_loop (precision_comp initial_increment precision : Q)
    (objective_values : list Q) (calc_points : list Q)
  : result solver_exception (list Q) :=
  match objective_values with
  | [] => Ok calc_points
  | objective :: rest =>
      match _iter_solver (func_init objective) objective func_eval
              initial_increment NUM_ITERS_MAX precision with
      | Raise exc =>
          if TESTING_MODE then Raise exc else Ok calc_points
      | Ok (calc_p, num_iter) =>
          if TESTING_MODE
             && Qgtb (Qabs (objective - func_eval calc_p)) precision_comp
          then Raise (BadResult num_iter objective calc_p)
          else solve_loop precision_comp initial_increment precision
                 rest (calc_points ++ [calc_p])
      end
  end.

Definition solve_curves_with_iteration (family_name : string)
    (objective_values : list Q) : result solver_exception (list Q) :=
  match lookup families family_name with
  | None => Raise InvalidFamily
  | Some (precision_comp, initial_increment, precision) =>
      solve_loop precision_comp initial_increment precision
        objective_values []
  end.
End SolveCurves.

(** * Linear interpolation: [Interp1D] *)

(** The value of an expression with a division.  Dividing a numpy float
    by zero gives [inf] or [nan] (and a warning), not an exception, and
    what [+] and [*] compute from such a value and finite numbers is
    [inf] or [nan] again: [NotFinite]. *)
Inductive np_float : Type :=
| Finite (q : Q)
| NotFinite.

(** [a / b] *)
Definition float_div (a b : Q) : np_float :=
  if Qeq_bool b 0 then NotFinite else Finite (a / b).

(** [y + slope * d] *)
Definition float_line (y : Q) (slope : np_float) (d : Q) : np_float :=
  match slope with
  | Finite s => Finite (y + s * d)
  | NotFinite => NotFinite
  end.

(** [a[i]]: a negative index counts from the end, and an index outside
    the array raises [IndexError]. *)
Definition getitem (a : list Q) (i : Z) : result hull_exception Q :=
  let j := if (i <? 0)%Z then (Z.of_nat (length a) + i)%Z else i in
  if (j <? 0)%Z then Raise IndexError
  else
    match nth_error a (Z.to_nat j) with
    | Some v => Ok v
    | None => Raise IndexError
    end.

(** The object: [self.x] and [self.y]. *)
Record Interp1D : Type := { self_x : list Q; self_y : list Q }.

Section Interp1DCall.
Variable self : Interp1D.
Variable x_new : Q.

(** The two statements
    [slope = (self.y[j] - self.y[k]) / (self.x[j] - self.x[k])] and
    [return float(self.y[i] + slope * (x_new - self.x[i]))]. *)
Definition line_through (j k i : Z) : result hull_exception np_float :=
  yj <- getitem (self_y self) j ;;
  yk <- getitem (self_y self) k ;;
  xj <- getitem (self_x self) j ;;
  xk <- getitem (self_x self) k ;;
  let slope := float_div (yj - yk) (xj - xk) in
  yi <- getitem (self_y self) i ;;
  xi <- getitem (self_x self) i ;;
  Ok (float_line yi slope (x_new - xi)).

(** The [for] loop from the index [i] on, with [n] rounds to go.
    [Some r]: the function is left with [r]; [None]: the loop ends. *)
Fixpoint interp_loop (n : nat) (i : Z)
  : option (result hull_exception np_float) :=
  match n with
  | O => None
  | S n' =>
      match (xi <- getitem (self_x self) i ;;
             if Qle_bool xi x_new
             then xi1 <- getitem (self_x self) (i + 1) ;;
                  Ok (Qle_bool x_new xi1)
             else Ok false) with
      | Raise e => Some (Raise e)
      | Ok true => Some (line_through (i + 1) i i)
      | Ok false => interp_loop n' (i + 1)
      end
  end.

(** [Interp1D.__call__] *)
Definition Interp1D_call : result hull_exception np_float :=
  match interp_loop (Z.to_nat (Z.of_nat (length (self_x self)) - 1)) 0 with
  | Some r => r
  | None =>
      x0 <- getitem (self_x self) 0 ;;
      holds <- (if Qltb x_new x0 then Ok true
                else xl <- getitem (self_x self) (-1) ;;
                     Ok (Qgtb x_new xl)) ;;
      if negb holds then Raise AssertionError
      else
        let i := (if Qltb x_new x0 then 1 else -1)%Z in
        line_through i (i - 1) i
  end.
End Interp1DCall.

(** * Colours: [mod_color] *)

(** A colour is a sequence of channels, [(r, g, b)] or [(r, g, b, a)]. *)
Definition mod_color (color : list Q) (modification : Q) : list Q :=
  if Qltb (Qabs modification) (999 # 1000) then   (* is alpha level *)
    firstn 3 color ++ [modification]
  else
    map (fun c => Qmax 0 (Qmin 1 (c * (1 + modification / 100)))) color.

(** * Styles for an SVG text: [add_styling_to_svg] *)

(** [s.find(sub)]: the lowest index at which [sub] occurs in [s], or -1. *)
Definition find (s sub : string) : Z :=
  match index 0 sub s with
  | Some i => Z.of_nat i
  | None => (-1)%Z
  end.

(** The bound [i] of a slice of a sequence of length [n]: a negative
    bound counts from the end, and a bound outside the sequence is
    moved to its nearer end. *)
Definition slice_bound (n : nat) (i : Z) : nat :=
  if (i <? 0)%Z then Z.to_nat (Z.max 0 (Z.of_nat n + i))
  else Nat.min (Z.to_nat i) n.

(** [s[:i]] and [s[i:]] *)
Definition slice_to (s : string) (i : Z) : string :=
  substring 0 (slice_bound (String.length s) i) s.

Definition slice_from (s : string) (i : Z) : string :=
  let k := slice_bound (String.length s) i in
  substring k (String.length s - k) s.

(** The argument [css_styles]: a text, or the path of a file. *)
Inductive css_styles_arg : Type :=
| CssText (text : string)
| CssPath (path : string).

(** The newline and the double quote of the inserted lines. *)
Definition newline : string := String (Ascii.ascii_of_nat 10) EmptyString.
Definition double_quote : string := String (Ascii.ascii_of_nat 34) EmptyString.

Section AddStyling.
(** [Path.read_text]: the text of the file, or the exception raised. *)
Variable OSError : Type.
Variable read_text : string -> result OSError string.

(** [css_styles.read_text() if isinstance(css_styles, Path) else
    css_styles] *)
Definition text_of_css (css_styles : css_styles_arg)
  : result OSError string :=
  match css_styles with
  | CssPath path => read_text path
  | CssText text => Ok text
  end.

(** What the f-string puts between the two slices of [original]. *)
Definition inserted_text (svg_definitions text_css : string) : string :=
  ((if String.eqb svg_definitions "" then "" else svg_definitions)
   ++ newline
   ++ "<style type=" ++ double_quote ++ "text/css" ++ double_quote ++ ">"
   ++ newline ++ text_css ++ "</style>" ++ newline
   ++ " ")%string.

Definition add_styling_to_svg (original : string)
    (css_styles : option css_styles_arg) (svg_definitions : option string)
  : result OSError string :=
  match css_styles, svg_definitions with
  | Some css_styles, Some svg_definitions =>
      let insertion_point := find original "</defs>" in
      text_css <- text_of_css css_styles ;;
      Ok (slice_to original insertion_point
          ++ inserted_text svg_definitions text_css
          ++ slice_from original insertion_point)%string
  | _, _ => Ok original
  end.
End AddStyling.


(** * The floats of the program: binary64

    A float of the program is a finite number, an infinity or nan.  The
    finite ones are the rational numbers [m * 2 ^ e] with [|m| < 2 ^ 53],
    [-1074 <= e] and [|m * 2 ^ e| < 2 ^ 1024]; the two zeros are not told
    apart (the source neither divides by a zero nor takes the sign of
    one).  An operation returns its exact result rounded to the nearest
    float, to the one with the even [m] when two are nearest, and an
    infinity when the rounded result is [2 ^ 1024] or more. *)

Inductive b64 : Type :=
| Fin (q : Q)
| Inf (negative : bool)
| NaN.

(** [2 ^ e] *)
Definition pow2 (e : Z) : Q :=
  if (0 <=? e)%Z then inject_Z (2 ^ e) else 1 / inject_Z (2 ^ (- e)).

(** The integer part of the binary logarithm of [n / d], for positive [n]
    and [d]. *)
Definition floor_log2 (n d : Z) : Z :=
  let e := (Z.log2 n - Z.log2 d)%Z in
  if (if (0 <=? e)%Z then (n <? d * 2 ^ e)%Z else (n * 2 ^ (- e) <? d)%Z)
  then (e - 1)%Z else e.

(** The integer nearest to [n / d], for [0 <= n] and [0 < d]; of two
    nearest integers the even one. *)
Definition nearest_integer (n d : Z) : Z :=
  let m := (n / d)%Z in
  match (2 * (n mod d) ?= d)%Z with
  | Lt => m
  | Gt => (m + 1)%Z
  | Eq => if Z.even m then m else (m + 1)%Z
  end.

(** The float nearest to [q]: a multiple [m * 2 ^ p] of the unit in the
    last place [2 ^ p], where [p] is 52 below the binary exponent of [q]
    and not below -1074. *)
Definition nearest (q : Q) : b64 :=
  let q := Qred q in
  if Qeq_bool q 0 then Fin 0
  else
    let n := Z.abs (Qnum q) in
    let d := Z.pos (Qden q) in
    let p := Z.max (floor_log2 n d - 52) (-1074) in
    let m := if (p <=? 0)%Z then nearest_integer (n * 2 ^ (- p)) d
             else nearest_integer n (d * 2 ^ p) in
    let r := Qred (inject_Z m * pow2 p) in
    if Qle_bool (pow2 1024) r then Inf (Qnum q <? 0)%Z
    else Fin (if (Qnum q <? 0)%Z then - r else r).

(** [q] is a float. *)
Definition is_b64 (q : Q) : bool :=
  match nearest q with
  | Fin r => Qeq_bool r q
  | _ => false
  end.

(** The float that an operation with the exact result [q] returns.  A
    result that is a float is returned as it is. *)
Definition round (q : Q) : b64 :=
  if is_b64 q then Fin q else nearest q.

(** The functions of the source on floats.  They have the names of the
    functions of the exact embedding and stand in the name space [B64]. *)
Module B64.

(** [- a] and [abs(a)] *)
Definition opp (a : b64) : b64 :=
  match a with
  | Fin x => Fin (- x)
  | Inf s => Inf (negb s)
  | NaN => NaN
  end.

Definition abs (a : b64) : b64 :=
  match a with
  | Fin x => Fin (Qabs x)
  | Inf _ => Inf false
  | NaN => NaN
  end.

(** [a + b] and [a - b] *)
Definition add (a b : b64) : b64 :=
  match a, b with
  | Fin x, Fin y => round (x + y)
  | Fin _, Inf t => Inf t
  | Inf s, Fin _ => Inf s
  | Inf s, Inf t => if Bool.eqb s t then Inf s else NaN
  | _, _ => NaN
  end.

Definition sub (a b : b64) : b64 :=
  match a, b with
  | Fin x, Fin y => round (x - y)
  | Fin _, Inf t => Inf (negb t)
  | Inf s, Fin _ => Inf s
  | Inf s, Inf t => if Bool.eqb s t then NaN else Inf s
  | _, _ => NaN
  end.

(** [a * b] *)
Definition mul (a b : b64) : b64 :=
  match a, b with
  | Fin x, Fin y => round (x * y)
  | Fin x, Inf t => if Qeq_bool x 0 then NaN else Inf (xorb (Qltb x 0) t)
  | Inf s, Fin y => if Qeq_bool y 0 then NaN else Inf (xorb s (Qltb y 0))
  | Inf s, Inf t => Inf (xorb s t)
  | _, _ => NaN
  end.

(** [a / b] for a divisor that is not zero (the source divides by the
    literals 2 and 20 only). *)
Definition div (a b : b64) : b64 :=
  match a, b with
  | Fin x, Fin y => round (x / y)
  | Fin _, Inf _ => Fin 0
  | Inf s, Fin y => Inf (xorb s (Qltb y 0))
  | _, _ => NaN
  end.

(** [a < b], [a > b] and [a == b]: false when one of the two is nan. *)
Definition ltb (a b : b64) : bool :=
  match a, b with
  | Fin x, Fin y => Qltb x y
  | Fin _, Inf t => negb t
  | Inf s, Fin _ => s
  | Inf s, Inf t => s && negb t
  | _, _ => false
  end.

Definition gtb (a b : b64) : bool := ltb b a.

Definition eqb (a b : b64) : bool :=
  match a, b with
  | Fin x, Fin y => Qeq_bool x y
  | Inf s, Inf t => Bool.eqb s t
  | _, _ => false
  end.

(** [max(a, b)] of Python: [b] when [b > a], else [a]. *)
Definition max (a b : b64) : b64 := if gtb b a then b else a.

(** ** The turn classifier and the convex hull

    The coordinates of a [point] are finite floats.  The key of [sorted]
    is compared as in the exact embedding: the order of the floats that
    [np.arctan2] returns is taken to be the order of the angles. *)

(** [val] of [orientation]. *)
Definition orientation_val (p q r : point) : b64 :=
  sub (mul (sub (Fin (py q)) (Fin (py p))) (sub (Fin (px r)) (Fin (px q))))
      (mul (sub (Fin (px q)) (Fin (px p))) (sub (Fin (py r)) (Fin (py q)))).

Definition orientation (p q r : point) : turn :=
  let val := orientation_val p q r in
  if eqb val (Fin 0) then Collinear
  else if gtb val (Fin 0) then Clockwise
  else CounterClockwise.

Fixpoint pop_while (hull : list point) (r : point) : list point :=
  match hull with
  | q :: ((p :: _) as rest) =>
      if negb (turn_eqb (orientation p q r) CounterClockwise)
      then pop_while rest r
      else hull
  | _ => hull
  end.

Definition scan_step (hull : list point) (r : point) : list point :=
  r :: pop_while hull r.

Definition scan (hull : list point) (rest : list point) : list point :=
  fold_left scan_step rest hull.

Definition hull_stack (points : list point) : result hull_exception (list point) :=
  if negb (3 <=? length points)%nat then Raise AssertionError
  else
    match points with
    | [] => Raise AssertionError   (* not reached: [points] has 3 elements *)
    | first :: others =>
        let leftp := min_from first others in
        let sorted_points :=
          sorted leftp (filter (fun p => negb (point_eqb p leftp)) points) in
        match sorted_points with
        | [] => Raise IndexError
        | p0 :: rest => Ok (scan [p0; leftp] rest)
        end
    end.

Definition convex_hull_graham_scan (points : list point)
  : result hull_exception (list Q * list Q) :=
  stack <- hull_stack points ;;
  let hull := rev stack in
  let hull_x := map px hull in
  let hull_y := map py hull in
  if negb (2 <=? length hull_x)%nat then Raise AssertionError
  else Ok (hull_x, hull_y).

(** ** The iteration solver *)

Record solver_state : Type := SolverState {
  value_calc : b64;
  increment : b64;
  decreasing : bool;
  num_iter : Z;
  error : b64;
  iteration_value : b64
}.

Inductive solver_exception : Type :=
| NoConvergence (num_iter : Z)
    (value_calc increment objective_value iteration_value : b64).

Inductive pass : Type :=
| Break (st : solver_state)
| Next (st : solver_state).

Section IterSolver.
Variable objective_value : b64.
Variable func_eval : b64 -> b64.
Variable num_iters_max : Z.
Variable precision : b64.

Definition loop_body (st : solver_state) : pass :=
  let iteration_value := func_eval (value_calc st) in
  let error := sub objective_value iteration_value in
  if ltb (abs error) precision then
    Break (SolverState (value_calc st) (increment st) (decreasing st)
             (num_iter st) error iteration_value)
  else if ltb error (Fin 0) then
    let increment :=
      if negb (decreasing st) then div (increment st) (Fin 2)
      else increment st in
    let increment := max (div precision (Fin 20)) increment in
    Next (SolverState (sub (value_calc st) increment) increment true
            (num_iter st + 1) error iteration_value)
  else
    let increment :=
      if decreasing st then div (increment st) (Fin 2) else increment st in
    let increment := max (div precision (Fin 20)) increment in
    Next (SolverState (add (value_calc st) increment) increment false
            (num_iter st + 1) error iteration_value).

Fixpoint while_loop (fuel : nat) (st : solver_state)
  : result solver_exception (b64 * Z) :=
  if gtb (abs (error st)) precision && (num_iter st <? num_iters_max)%Z
  then
    match fuel with
    | O => Ok (value_calc st, num_iter st)
    | S fuel' =>
        match loop_body st with
        | Break st' => Ok (value_calc st', num_iter st')
        | Next st' =>
            if (num_iter st' =? num_iters_max)%Z
            then Raise (NoConvergence (num_iter st') (value_calc st')
                          (increment st') objective_value
                          (iteration_value st'))
            else while_loop fuel' st'
        end
    end
  else Ok (value_calc st, num_iter st).

Definition initial_state (initial_value initial_increment : b64)
  : solver_state :=
  SolverState initial_value initial_increment true 0
    (sub objective_value (func_eval initial_value)) (Fin 0).
End IterSolver.

Definition _iter_solver (initial_value objective_value : b64)
    (func_eval : b64 -> b64) (initial_increment : b64) (num_iters_max : Z)
    (precision : b64) : result solver_exception (b64 * Z) :=
  while_loop objective_value func_eval num_iters_max precision
    (Z.to_nat num_iters_max)
    (initial_state objective_value func_eval initial_value initial_increment).

End B64.

(** * The vocabulary of the specification *)

(** The lexicographic order of points, and equality of points as
    Python's [==] sees it. *)
Definition lex_lt (p q : point) : Prop :=
  px p < px q \/ (px p == px q /\ py p < py q).

Definition lex_le (p q : point) : Prop :=
  px p < px q \/ (px p == px q /\ py p <= py q).

Definition point_eq (p q : point) : Prop :=
  px p == px q /\ py p == py q.


(** The stacks that the run goes through, in order: [pop_while_trace]
    lists the stack at every test of the [while] loop for [r] (the last
    one is the stack the loop ends with), [scan_trace] does so for the
    whole [for] loop and ends with the final stack. *)
Fixpoint pop_while_trace (hull : list point) (r : point)
  : list (list point) :=
  match hull with
  | q :: ((p :: _) as rest) =>
      if negb (turn_eqb (orientation p q r) CounterClockwise)
      then hull :: pop_while_trace rest r
      else [hull]
  | _ => [hull]
  end.

Fixpoint scan_trace (hull : list point) (rest : list point)
  : list (list point) :=
  match rest with
  | [] => [hull]
  | r :: rest' => pop_while_trace hull r ++ scan_trace (scan_step hull r) rest'
  end.

(** The stacks of the whole run of [convex_hull_graham_scan]. *)
Definition hull_trace (points : list point) : list (list point) :=
  match points with
  | [] => []
  | first :: others =>
      let leftp := min_from first others in
      match sorted leftp (filter (fun p => negb (point_eqb p leftp)) points) with
      | [] => []
      | p0 :: rest => scan_trace [p0; leftp] rest
      end
  end.

(** A stack whose bottom (the first element of the list of the source)
    is [bottom]. *)
Definition has_bottom (bottom : point) (stack : list point) : Prop :=
  exists above, stack = above ++ [bottom].

(** The two kinds of strictly monotonic functions. *)
Definition strictly_increasing (f : Q -> Q) : Prop :=
  forall a b, a < b -> f a < f b.

Definition strictly_decreasing (f : Q -> Q) : Prop :=
  forall a b, a < b -> f b < f a.

Definition strictly_monotonic (f : Q -> Q) : Prop :=
  strictly_increasing f \/ strictly_decreasing f.

(** An increasing function, and one whose slope is at most [L]. *)
Definition increasing (f : Q -> Q) : Prop :=
  forall a b, a <= b -> f a <= f b.

Definition slope_at_most (L : Q) (f : Q -> Q) : Prop :=
  forall a b, a <= b -> f b - f a <= L * (b - a).

(** The step that a pass takes from the state [st] when it goes down,
    and when it goes up. *)
Definition step_down (precision : Q) (st : solver_state) : Q :=
  Qmax (precision / 20)
    (if negb (decreasing st) then increment st / 2 else increment st).

Definition step_up (precision : Q) (st : solver_state) : Q :=
  Qmax (precision / 20)
    (if decreasing st then increment st / 2 else increment st).

(** The step after [H] halvings, each followed by the floor, as the loop
    computes them. *)
Fixpoint halvings (precision : Q) (H : nat) (s : Q) : Q :=
  match H with
  | O => s
  | S h => halvings precision h (Qmax (precision / 20) (s / 2))
  end.

(** None of the values that the next [n] passes evaluate, from the state
    [st] on, has an error of [precision] exactly. *)
Fixpoint never_exact (objective_value : Q) (func_eval : Q -> Q)
    (precision : Q) (n : nat) (st : solver_state) : bool :=
  negb (Qeq_bool (Qabs (objective_value - func_eval (value_calc st)))
          precision)
  && match n with
     | O => true
     | S n' =>
         match loop_body objective_value func_eval precision st with
         | Next st' => never_exact objective_value func_eval precision n' st'
         | Break _ => true
         end
     end.

(** ** Geometry *)

(** The determinant of [p - o] and [q - o]: twice the signed area of the
    triangle [o p q], positive when [o], [p], [q] turn counterclockwise.
    It is the cross product of the specification:
    [(q - p) x (r - q) = det p q r]. *)
Definition det (o p q : point) : Q :=
  (px p - px o) * (py q - py o) - (py p - py o) * (px q - px o).

(** [q] lies on the left of the directed line from [a] to [b], or on it. *)
Definition left_or_on (a b q : point) : Prop := 0 <= det a b q.

(** The convex hull of the points of [V]: the smallest set that contains
    them and, with two points, the segment between them.  When [V] lists
    the corners of a convex polygon this is the polygon with its inside;
    when [V] has two points it is the segment between them. *)
Inductive in_hull (V : list point) : point -> Prop :=
| in_hull_vertex v q :
    In v V -> point_eq v q -> in_hull V q
| in_hull_segment a b t q :
    in_hull V a -> in_hull V b -> 0 <= t <= 1 ->
    px q == t * px a + (1 - t) * px b ->
    py q == t * py a + (1 - t) * py b ->
    in_hull V q.

(** [a], [b], [c] stand in the list in this order (not necessarily next
    to each other); the same for two elements. *)
Definition triple_in (l : list point) (a b c : point) : Prop :=
  exists l1 l2 l3 l4, l = l1 ++ a :: l2 ++ b :: l3 ++ c :: l4.

Definition pair_in (l : list point) (a b : point) : Prop :=
  exists l1 l2 l3, l = l1 ++ a :: l2 ++ b :: l3.

(** Every three points of the list, taken in the order of the list, turn
    counterclockwise: the list goes around a strictly convex polygon
    counterclockwise. *)
Definition counterclockwise_polygon (hull : list point) : Prop :=
  forall a b c, triple_in hull a b c ->
                orientation a b c = CounterClockwise.

(** The sides of the polygon: each corner with the next one, the last one
    with the first. *)
Fixpoint sides_from (first : point) (hull : list point) : list (point * point) :=
  match hull with
  | [] => []
  | [a] => [(a, first)]
  | a :: ((b :: _) as rest) => (a, b) :: sides_from first rest
  end.

Definition sides (hull : list point) : list (point * point) :=
  match hull with
  | [] => []
  | first :: _ => sides_from first hull
  end.

(** The order of the sorting key among the points that are
    lexicographically above [o]: by the angle around [o] first, then
    lexicographically. *)
Definition before (o p q : point) : Prop :=
  0 < det o p q \/ (det o p q == 0 /\ lex_le p q).

(** The invariant of the scan.  [above] is the stack without its bottom
    [o], top first: its points are lexicographically above [o], their
    angles around [o] grow strictly from the bottom to the top, and every
    three of them, from the bottom to the top, turn counterclockwise. *)
Record good (o : point) (above : list point) : Prop := {
  good_dom : forall s, In s above -> lex_lt o s;
  good_ang : forall b a, pair_in above b a -> 0 < det o a b;
  good_ccw : forall c b a, triple_in above c b a -> 0 < det a b c
}.

(** ** The solver, the turns and the interpolation *)

(** The values that a [NoConvergence] carries: [v] is one step [s] away
    from [v'], the last value that was evaluated, whose error is not
    below the precision; [v] itself has not been evaluated. *)
Definition gave_up (objective_value : Q) (func_eval : Q -> Q)
    (num_iters_max : Z) (precision : Q) (e : solver_exception) : Prop :=
  exists v v' s,
    e = NoConvergence num_iters_max v s objective_value (func_eval v') /\
    (v = v' - s \/ v = v' + s) /\
    precision / 20 <= s /\
    precision <= Qabs (objective_value - func_eval v').

(** The turn the other way round, and a point moved by the vector [t]. *)
Definition opposite (t : turn) : turn :=
  match t with
  | Collinear => Collinear
  | Clockwise => CounterClockwise
  | CounterClockwise => Clockwise
  end.

Definition translate (t p : point) : point := (px p + px t, py p + py t).

(** The interval number [i] of [self.x] contains [x_new]. *)
Definition encloses (self : Interp1D) (x_new : Q) (i : nat) : Prop :=
  exists a b, nth_error (self_x self) i = Some a /\
              nth_error (self_x self) (S i) = Some b /\
              a <= x_new <= b.

(** ** Floats and exact numbers *)

(** [q] is an integer of magnitude at most [bound]; both coordinates of
    [p] are. *)
Definition is_integer (bound : Z) (q : Q) : bool :=
  (Z.pos (Qden (Qred q)) =? 1)%Z && (Z.abs (Qnum (Qred q)) <=? bound)%Z.

Definition on_grid (bound : Z) (p : point) : bool :=
  is_integer bound (px p) && is_integer bound (py p).

(** Both coordinates of [p] are floats. *)
Definition float_point (p : point) : bool := is_b64 (px p) && is_b64 (py p).

(** No operation of [orientation] on [p], [q] and [r] rounds: the four
    differences, the two products and [val] are floats. *)
Definition exact_turn (p q r : point) : bool :=
  is_b64 (py q - py p) && is_b64 (px r - px q) &&
  is_b64 (px q - px p) && is_b64 (py r - py q) &&
  is_b64 ((py q - py p) * (px r - px q)) &&
  is_b64 ((px q - px p) * (py r - py q)) &&
  is_b64 (orientation_val p q r).

(** On integers up to [2 ^ 25] the floats compute the turn without
    rounding.  On integers up to [2 ^ 20] two directions between points
    that are not the same differ by more than [2 ^ -43] in angle, far more
    than the error of [np.arctan2]. *)
Definition turn_grid : Z := 2 ^ 25.
Definition hull_grid : Z := 2 ^ 20.

(** The state of the exact solver as a state of the solver on floats,
    and the same for what a run returns or raises. *)
Definition float_state (st : solver_state) : B64.solver_state :=
  B64.SolverState (Fin (value_calc st)) (Fin (increment st)) (decreasing st)
    (num_iter st) (Fin (error st)) (Fin (iteration_value st)).

Definition float_outcome (r : result solver_exception (Q * Z))
  : option (result B64.solver_exception (b64 * Z)) :=
  match r with
  | Ok (v, n) => Some (Ok (Fin v, n))
  | Raise (NoConvergence n v s o i) =>
      Some (Raise (B64.NoConvergence n (Fin v) (Fin s) (Fin o) (Fin i)))
  | Raise _ => None
  end.

(** The pass of the loop from the state [st] computes without rounding:
    the error, the halved increment, the floor [precision / 20] and the
    value stepped to are floats. *)
Definition exact_pass (objective_value : Q) (func_eval : Q -> Q)
    (precision : Q) (st : solver_state) : bool :=
  let error := objective_value - func_eval (value_calc st) in
  is_b64 error &&
  (Qltb (Qabs error) precision ||
   ((if Bool.eqb (Qltb error 0) (decreasing st) then true
     else is_b64 (increment st / 2)) &&
    is_b64 (precision / 20) &&
    match loop_body objective_value func_eval precision st with
    | Next st' => is_b64 (value_calc st')
    | Break _ => true
    end)).

(** Every pass of the run of the [while] loop from the state [st]
    computes without rounding. *)
Fixpoint exact_passes (objective_value : Q) (func_eval : Q -> Q)
    (num_iters_max : Z) (precision : Q) (fuel : nat) (st : solver_state)
  : bool :=
  if Qgtb (Qabs (error st)) precision && (num_iter st <? num_iters_max)%Z
  then
    match fuel with
    | O => true
    | S fuel' =>
        exact_pass objective_value func_eval precision st &&
        match loop_body objective_value func_eval precision st with
        | Break _ => true
        | Next st' =>
            (num_iter st' =? num_iters_max)%Z ||
            exact_passes objective_value func_eval num_iters_max precision
              fuel' st'
        end
    end
  else true.

(** The arguments of [_iter_solver] are floats and its whole run computes
    without rounding. *)
Definition exact_run (initial_value objective_value : Q)
    (func_eval : Q -> Q) (initial_increment : Q) (num_iters_max : Z)
    (precision : Q) : bool :=
  is_b64 initial_value && is_b64 objective_value &&
  is_b64 initial_increment && is_b64 precision &&
  is_b64 (objective_value - func_eval initial_value) &&
  exact_passes objective_value func_eval num_iters_max precision
    (Z.to_nat num_iters_max)
    (initial_state objective_value func_eval initial_value initial_increment).

(** * Proofs *)

(** ** The comparisons *)

Lemma Qltb_lt a b : Qltb a b = true <-> a < b.
Proof.
  unfold Qltb. rewrite Qlt_alt. destruct (a ?= b); split; congruence.
Qed.

Lemma Qltb_ge a b : Qltb a b = false <-> b <= a.
Proof.
  unfold Qltb. destruct (a ?= b) eqn:E; split; intros H; try congruence.
  - apply Qeq_alt in E. rewrite E. apply Qle_refl.
  - apply Qlt_alt in E. lra.
  - apply Qgt_alt in E. lra.
Qed.

Lemma Qeqb_eq a b : Qeq_bool a b = true <-> a == b.
Proof. apply Qeq_bool_iff. Qed.

Lemma Qeqb_neq a b : Qeq_bool a b = false <-> ~ a == b.
Proof.
  rewrite <- Qeq_bool_iff. destruct (Qeq_bool a b); split; congruence.
Qed.

Lemma point_ltb_spec p q : point_ltb p q = true <-> lex_lt p q.
Proof.
  unfold point_ltb, lex_lt.
  destruct (Qeq_bool (px p) (px q)) eqn:E.
  - apply Qeqb_eq in E. rewrite Qltb_lt. split; [tauto | intros [H | H]; [lra | tauto]].
  - apply Qeqb_neq in E. rewrite Qltb_lt. split; [tauto | intros [H | [H _]]; tauto].
Qed.

Lemma point_ltb_false p q : point_ltb p q = false <-> lex_le q p.
Proof.
  unfold point_ltb, lex_le.
  destruct (Qeq_bool (px p) (px q)) eqn:E.
  - apply Qeqb_eq in E. rewrite Qltb_ge. split; [intros H; right; lra | intros [H | H]; lra].
  - apply Qeqb_neq in E. rewrite Qltb_ge. split; [intros H; left; lra | intros [H | H]; lra].
Qed.

Lemma point_eqb_spec p q : point_eqb p q = true <-> point_eq p q.
Proof.
  unfold point_eqb, point_eq. rewrite andb_true_iff, !Qeqb_eq. tauto.
Qed.

Lemma lex_le_refl p : lex_le p p.
Proof. right. split; [reflexivity | apply Qle_refl]. Qed.

Lemma lex_le_trans p q r : lex_le p q -> lex_le q r -> lex_le p r.
Proof. unfold lex_le. intros [H | [H H']] [K | [K K']]; [left | left | left | right; split]; lra. Qed.

Lemma lex_lt_le p q : lex_lt p q -> lex_le p q.
Proof. unfold lex_lt, lex_le. intros [H | [H H']]; [left | right]; lra. Qed.

(** [min] returns an element of the list that no element is below. *)
Lemma min_from_spec rest : forall first,
  In (min_from first rest) (first :: rest) /\
  forall p, In p (first :: rest) -> lex_le (min_from first rest) p.
Proof.
  unfold min_from. induction rest as [| x rest IH]; intros first; simpl.
  - split; [now left |]. intros p [<- | []]. apply lex_le_refl.
  - destruct (IH (if point_ltb x first then x else first)) as [Hin Hle].
    split.
    + destruct Hin as [Hin | Hin]; [| now right; right].
      rewrite <- Hin. destruct (point_ltb x first); [right; now left | now left].
    + intros p Hp.
      destruct (point_ltb x first) eqn:E.
      * destruct Hp as [<- | Hp]; [| now apply Hle].
        apply lex_le_trans with x; [apply Hle; now left |].
        apply lex_lt_le, point_ltb_spec, E.
      * destruct Hp as [<- | [<- | Hp]].
        -- apply Hle. now left.
        -- apply lex_le_trans with first; [apply Hle; now left |].
           apply point_ltb_false, E.
        -- apply Hle. now right.
Qed.

(** ** The stack keeps its bottom *)

Lemma pop_while_bottom r bottom : forall hull,
  exists hull', pop_while (hull ++ [bottom]) r = hull' ++ [bottom].
Proof.
  induction hull as [| q hull IH].
  - now exists [].
  - simpl. destruct (hull ++ [bottom]) as [| p rest] eqn:E.
    + now destruct hull.
    + destruct (negb (turn_eqb (orientation p q r) CounterClockwise)).
      * exact IH.
      * exists (q :: hull). simpl. now rewrite E.
Qed.

Lemma scan_bottom bottom : forall rest hull,
  exists hull', scan (hull ++ [bottom]) rest = hull' ++ [bottom].
Proof.
  unfold scan. induction rest as [| r rest IH]; intros hull; simpl.
  - now exists hull.
  - unfold scan_step at 2.
    destruct (pop_while_bottom r bottom hull) as [hull' ->].
    apply (IH (r :: hull')).
Qed.

Lemma pop_while_length r : forall hull,
  (1 <= length hull)%nat -> (1 <= length (pop_while hull r))%nat.
Proof.
  induction hull as [| q hull IH]; simpl; [lia |]. intros _.
  destruct hull as [| p rest]; [simpl; lia |].
  destruct (negb _); [apply IH |]; simpl; lia.
Qed.

Lemma scan_length : forall rest hull,
  (2 <= length hull)%nat -> (2 <= length (scan hull rest))%nat.
Proof.
  unfold scan. induction rest as [| r rest IH]; intros hull H; simpl; [exact H |].
  apply IH. unfold scan_step. simpl.
  pose proof (pop_while_length r hull). lia.
Qed.

Lemma hull_stack_shape points stack :
  hull_stack points = Ok stack ->
  exists first others hull',
    points = first :: others /\
    stack = hull' ++ [min_from first others] /\ hull' <> [].
Proof.
  unfold hull_stack.
  destruct (negb (3 <=? length points)%nat); [discriminate |].
  destruct points as [| first others]; [discriminate |].
  set (leftp := min_from first others).
  destruct (sorted leftp _) as [| p0 rest]; [discriminate |].
  intros [= <-]. exists first, others.
  destruct (scan_bottom leftp rest [p0]) as [hull' E]. simpl in E.
  exists hull'. repeat split; trivial.
  intros ->. pose proof (scan_length rest [p0; leftp]) as L.
  rewrite E in L. simpl in L. lia.
Qed.


(** ** The turn classifier *)

Lemma cross_product_val p q r : cross_product p q r == - orientation_val p q r.
Proof. unfold cross_product, orientation_val. ring. Qed.

Lemma orientation_spec p q r :
  (orientation p q r = Collinear <-> orientation_val p q r == 0) /\
  (orientation p q r = CounterClockwise <-> orientation_val p q r < 0) /\
  (orientation p q r = Clockwise <-> 0 < orientation_val p q r).
Proof.
  unfold orientation, Qgtb.
  destruct (Qeq_bool (orientation_val p q r) 0) eqn:E.
  - apply Qeqb_eq in E. repeat split; intros H; try discriminate; trivial; lra.
  - apply Qeqb_neq in E.
    destruct (Qltb 0 (orientation_val p q r)) eqn:L.
    + apply Qltb_lt in L. repeat split; intros H; try discriminate; trivial; lra.
    + apply Qltb_ge in L. repeat split; intros H; try discriminate; trivial; lra.
Qed.

(** On exact numbers [orientation] returns the sign of the cross product
    [(q - p) x (r - q)]: Collinear exactly when it is zero, CounterClockwise
    exactly when it is positive, Clockwise exactly when it is negative. *)
Lemma orientation_cross_product (p q r : point) :
  (orientation p q r = Collinear <-> cross_product p q r == 0) /\
  (orientation p q r = CounterClockwise <-> 0 < cross_product p q r) /\
  (orientation p q r = Clockwise <-> cross_product p q r < 0).
Proof.
  pose proof (cross_product_val p q r) as V.
  destruct (orientation_spec p q r) as (H0 & H2 & H1).
  rewrite H0, H2, H1. repeat split; intros H; lra.
Qed.

(** ** The precondition and the shape of the result *)

Lemma hull_stack_raise points e :
  (3 <= length points)%nat -> hull_stack points = Raise e -> e = IndexError.
Proof.
  unfold hull_stack. intros L.
  destruct (3 <=? length points)%nat eqn:E; [| apply Nat.leb_gt in E; lia].
  simpl. destruct points as [| first others]; [simpl in L; lia |].
  destruct (sorted _ _); [now intros [= <-] | discriminate].
Qed.

Lemma hull_stack_short points :
  (length points < 3)%nat -> hull_stack points = Raise AssertionError.
Proof.
  unfold hull_stack. intros L.
  destruct (3 <=? length points)%nat eqn:E; [apply Nat.leb_le in E; lia |].
  reflexivity.
Qed.

(** C9.  With fewer than three points the first [assert] fails; with three
    points or more no [assert] of the function fails. *)
Theorem convex_hull_precondition (points : list point) :
  ((length points < 3)%nat ->
   convex_hull_graham_scan points = Raise AssertionError) /\
  ((3 <= length points)%nat ->
   convex_hull_graham_scan points <> Raise AssertionError).
Proof.
  unfold convex_hull_graham_scan. split; intros L.
  - now rewrite hull_stack_short.
  - destruct (hull_stack points) as [stack | e] eqn:E; cbn [bind].
    + destruct (hull_stack_shape _ _ E) as (first & others & hull' & _ & -> & N).
      assert (B : (2 <=? length (map px (rev (hull' ++ [min_from first others]))))%nat = true).
      { apply Nat.leb_le. rewrite length_map, length_rev, length_app. simpl.
        destruct hull'; [congruence | simpl; lia]. }
      rewrite B. discriminate.
    + apply hull_stack_raise in E; trivial. now subst.
Qed.

Lemma convex_hull_precondition_witness :
  convex_hull_graham_scan [(0, 0); (1, 0)] = Raise AssertionError /\
  convex_hull_graham_scan [(0, 0); (1, 0); (0, 1)] <> Raise AssertionError.
Proof.
  split.
  - apply (proj1 (convex_hull_precondition [(0, 0); (1, 0)])). simpl. lia.
  - apply (proj2 (convex_hull_precondition [(0, 0); (1, 0); (0, 1)])). simpl. lia.
Defined.

Lemma last_append {A} (d : A) (l2 : list A) : forall l1,
  l2 <> [] -> last (l1 ++ l2) d = last l2 d.
Proof.
  intros l1 N. induction l1 as [| a l1 IH]; simpl; trivial.
  destruct (l1 ++ l2) eqn:E; trivial.
  apply app_eq_nil in E. tauto.
Qed.

Lemma pop_while_trace_nonempty r hull : pop_while_trace hull r <> [].
Proof.
  destruct hull as [| q [| p rest]]; simpl; try discriminate.
  destruct (negb _); discriminate.
Qed.

Lemma pop_while_trace_last r d : forall hull,
  last (pop_while_trace hull r) d = pop_while hull r.
Proof.
  induction hull as [| q hull IH]; simpl; trivial.
  destruct hull as [| p rest]; trivial.
  destruct (negb _); trivial.
  rewrite <- IH.
  change (?a :: ?l) with ([a] ++ l) at 1.
  apply last_append, pop_while_trace_nonempty.
Qed.

Lemma scan_trace_nonempty rest hull : scan_trace hull rest <> [].
Proof.
  destruct rest; simpl; [discriminate |].
  intros H. apply app_eq_nil in H. now apply (pop_while_trace_nonempty p hull).
Qed.

Lemma scan_trace_last d : forall rest hull,
  last (scan_trace hull rest) d = scan hull rest.
Proof.
  induction rest as [| r rest IH]; intros hull; simpl; trivial.
  rewrite last_append; [| apply scan_trace_nonempty]. apply IH.
Qed.

Lemma pop_while_trace_bottom r bottom : forall hull,
  Forall (has_bottom bottom) (pop_while_trace (hull ++ [bottom]) r).
Proof.
  induction hull as [| q hull IH]; simpl.
  - constructor; [now exists [] | constructor].
  - destruct (hull ++ [bottom]) as [| p rest] eqn:E; [now destruct hull |].
    assert (B : has_bottom bottom (q :: p :: rest)) by (exists (q :: hull); simpl; now rewrite E).
    destruct (negb _); constructor; trivial.
Qed.

Lemma scan_trace_bottom bottom : forall rest hull,
  Forall (has_bottom bottom) (scan_trace (hull ++ [bottom]) rest).
Proof.
  induction rest as [| r rest IH]; intros hull; simpl.
  - constructor; [now exists hull | constructor].
  - apply Forall_app. split; [apply pop_while_trace_bottom |].
    unfold scan_step. destruct (pop_while_bottom r bottom hull) as [hull' ->].
    apply (IH (r :: hull')).
Qed.

Lemma combine_px_py (l : list point) : combine (map px l) (map py l) = l.
Proof. induction l as [| [x y] l IH]; simpl; [| rewrite IH]; reflexivity. Qed.

(** C10.  When [convex_hull_graham_scan] returns, its two lists have the
    same length, at least 2, and they start with the coordinates of the
    lexicographically smallest point of the input (smallest x, then
    smallest y); that point is the bottom of every stack that the run
    goes through, the last of which is the stack returned. *)
Theorem convex_hull_starts_at_smallest_point
    (points : list point) (hull_x hull_y : list Q) :
  convex_hull_graham_scan points = Ok (hull_x, hull_y) ->
  length hull_x = length hull_y /\
  (2 <= length hull_x)%nat /\
  exists leftp : point,
    In leftp points /\
    (forall p, In p points -> lex_le leftp p) /\
    hd_error hull_x = Some (px leftp) /\
    hd_error hull_y = Some (py leftp) /\
    Forall (has_bottom leftp) (hull_trace points) /\
    last (hull_trace points) [] = rev (combine hull_x hull_y).
Proof.
  unfold convex_hull_graham_scan. intros H.
  destruct (hull_stack points) as [stack | e] eqn:E; cbn [bind] in H; [| discriminate].
  destruct (2 <=? _)%nat eqn:B in H; [| discriminate]. apply Nat.leb_le in B.
  cbn [negb] in H. injection H as <- <-.
  destruct (hull_stack_shape _ _ E) as (first & others & hull' & -> & S & N).
  destruct (min_from_spec others first) as [Hin Hmin].
  split; [now rewrite !length_map |]. split; [exact B |].
  exists (min_from first others). split; [exact Hin |]. split; [exact Hmin |].
  rewrite combine_px_py, rev_involutive.
  split; [rewrite S, rev_app_distr; reflexivity |].
  split; [rewrite S, rev_app_distr; reflexivity |].
  unfold hull_stack in E. destruct (negb _) in E; [discriminate |].
  unfold hull_trace.
  destruct (sorted _ _) as [| p0 rest]; [discriminate |].
  injection E as E. split.
  - apply (scan_trace_bottom (min_from first others) rest [p0]).
  - now rewrite scan_trace_last.
Qed.

Lemma convex_hull_starts_at_smallest_point_witness :
  exists leftp : point,
    In leftp [(1, 1); (0, 2); (0, 1); (2, 0)] /\
    (forall p, In p [(1, 1); (0, 2); (0, 1); (2, 0)] -> lex_le leftp p) /\
    hd_error [0; 2; 0] = Some (px leftp) /\
    hd_error [1; 0; 2] = Some (py leftp).
Proof.
  destruct (convex_hull_starts_at_smallest_point
              [(1, 1); (0, 2); (0, 1); (2, 0)] [0; 2; 0] [1; 0; 2])
    as (_ & _ & leftp & H1 & H2 & H3 & H4 & _).
  - vm_compute. reflexivity.
  - exists leftp. auto.
Defined.

(** ** The [while] loop of the solver *)

Section WhileLoop.
Variable objective_value : Q.
Variable func_eval : Q -> Q.
Variable num_iters_max : Z.
Variable precision : Q.

Let body := loop_body objective_value func_eval precision.
Let loop := while_loop objective_value func_eval num_iters_max precision.

Lemma loop_body_num_iter st st' :
  body st = Next st' -> num_iter st' = (num_iter st + 1)%Z.
Proof.
  unfold body, loop_body.
  destruct (Qltb (Qabs _) precision); [discriminate |].
  destruct (Qltb _ 0); intros [= <-]; reflexivity.
Qed.

(** The fuel is not used up: from [num_iters_max - num_iter] passes on,
    the result does not depend on it. *)
Lemma while_loop_fuel : forall fuel1 fuel2 st,
  (num_iters_max - num_iter st <= Z.of_nat fuel1)%Z ->
  (num_iters_max - num_iter st <= Z.of_nat fuel2)%Z ->
  loop fuel1 st = loop fuel2 st.
Proof.
  unfold loop.
  induction fuel1 as [| fuel1 IH]; intros fuel2 st H1 H2.
  - destruct fuel2; simpl; trivial.
    destruct (num_iter st <? num_iters_max)%Z eqn:E;
      [apply Z.ltb_lt in E; lia | now rewrite andb_false_r].
  - destruct fuel2; simpl.
    + destruct (num_iter st <? num_iters_max)%Z eqn:E;
        [apply Z.ltb_lt in E; lia | now rewrite andb_false_r].
    + destruct (Qgtb _ _ && _); trivial.
      destruct (loop_body _ _ _ st) as [st' | st'] eqn:B; trivial.
      destruct (num_iter st' =? num_iters_max)%Z; trivial.
      apply loop_body_num_iter in B. apply IH; lia.
Qed.

Lemma while_loop_S fuel st :
  loop (S fuel) st =
  if Qgtb (Qabs (error st)) precision && (num_iter st <? num_iters_max)%Z
  then match body st with
       | Break st' => Ok (value_calc st', num_iter st')
       | Next st' =>
           if (num_iter st' =? num_iters_max)%Z
           then Raise (NoConvergence (num_iter st') (value_calc st')
                         (increment st') objective_value (iteration_value st'))
           else loop fuel st'
       end
  else Ok (value_calc st, num_iter st).
Proof. reflexivity. Qed.

(** The loop, one pass unfolded. *)
Lemma while_loop_unfold fuel st :
  (num_iters_max - num_iter st <= Z.of_nat fuel)%Z ->
  loop fuel st =
  if Qgtb (Qabs (error st)) precision && (num_iter st <? num_iters_max)%Z
  then match body st with
       | Break st' => Ok (value_calc st', num_iter st')
       | Next st' =>
           if (num_iter st' =? num_iters_max)%Z
           then Raise (NoConvergence (num_iter st') (value_calc st')
                         (increment st') objective_value (iteration_value st'))
           else loop fuel st'
       end
  else Ok (value_calc st, num_iter st).
Proof.
  intros H. destruct fuel as [| fuel].
  - unfold loop at 1. simpl.
    destruct (num_iter st <? num_iters_max)%Z eqn:E;
      [apply Z.ltb_lt in E; lia | now rewrite andb_false_r].
  - rewrite while_loop_S.
    destruct (Qgtb _ _ && _); trivial.
    destruct (body st) as [st' | st'] eqn:B; trivial.
    destruct (num_iter st' =? num_iters_max)%Z; trivial.
    apply loop_body_num_iter in B. apply while_loop_fuel; lia.
Qed.

End WhileLoop.

(** ** The step policy *)

(** C5, as stated, fails: the first step is half of [initial_increment]
    when it goes upwards, because the flag [decreasing] starts as [True].
    From the value 0 towards the objective 10 with [initial_increment] 4
    the first step is 2. *)
Lemma first_step_not_always_full :
  ~ (forall objective_value func_eval precision
            initial_value initial_increment st',
        loop_body objective_value func_eval precision
          (initial_state objective_value func_eval
             initial_value initial_increment) = Next st' ->
        Qabs (value_calc st' - initial_value) == initial_increment).
Proof.
  intros H.
  specialize (H 10 (fun v => v) (1 # 100) 0 4 _ eq_refl).
  vm_compute in H. discriminate.
Qed.

(** C5, amended.  In every pass that takes a step, the flag [decreasing]
    becomes the direction of that step; the increment is halved exactly
    when this direction differs from the flag left by the pass before, and
    is then raised to [precision / 20] if it is below, so the increment
    that is applied is never below [precision / 20].  The flag starts as
    [True]: the first step applies
    [max(precision / 20, initial_increment)] when it goes down and
    [max(precision / 20, initial_increment / 2)] when it goes up. *)
Theorem step_policy (objective_value : Q) (func_eval : Q -> Q) (precision : Q) :
  (forall st st',
      loop_body objective_value func_eval precision st = Next st' ->
      decreasing st' = Qltb (objective_value - func_eval (value_calc st)) 0 /\
      increment st' =
        Qmax (precision / 20)
          (if Bool.eqb (decreasing st') (decreasing st)
           then increment st else increment st / 2) /\
      precision / 20 <= increment st') /\
  (forall initial_value initial_increment st',
      loop_body objective_value func_eval precision
        (initial_state objective_value func_eval
           initial_value initial_increment) = Next st' ->
      increment st' =
        Qmax (precision / 20)
          (if decreasing st' then initial_increment
           else initial_increment / 2)).
Proof.
  assert (A : forall st st',
      loop_body objective_value func_eval precision st = Next st' ->
      decreasing st' = Qltb (objective_value - func_eval (value_calc st)) 0 /\
      increment st' =
        Qmax (precision / 20)
          (if Bool.eqb (decreasing st') (decreasing st)
           then increment st else increment st / 2)).
  { intros st st'. unfold loop_body.
    destruct (Qltb (Qabs _) precision); [discriminate |].
    destruct (Qltb _ 0), (decreasing st); intros [= <-]; simpl; auto. }
  split.
  - intros st st' H. destruct (A _ _ H) as (D & I).
    repeat split; trivial.
    rewrite I. apply Q.le_max_l.
  - intros v0 inc0 st' H. destruct (A _ _ H) as (_ & I).
    rewrite I. simpl. now destruct (decreasing st').
Qed.

Lemma step_policy_witness :
  exists st',
    loop_body 10 (fun v => v) (1 # 100)
      (initial_state 10 (fun v => v) 0 4) = Next st' /\
    increment st' = Qmax ((1 # 100) / 20) (if decreasing st' then 4 else 4 / 2) /\
    (1 # 100) / 20 <= increment st'.
Proof.
  eexists. split; [vm_compute; reflexivity |].
  split.
  - apply (proj2 (step_policy 10 (fun v => v) (1 # 100)) 0 4).
    vm_compute. reflexivity.
  - apply (proj1 (step_policy 10 (fun v => v) (1 # 100))
             (initial_state 10 (fun v => v) 0 4)).
    vm_compute. reflexivity.
Defined.

(** ** The batch solver *)

Section Batch.
Variable func_init : Q -> Q.
Variable func_eval : Q -> Q.
Variables precision_comp initial_increment precision : Q.

(** The call of [_iter_solver] for one objective. *)
Let solve (objective : Q) : result solver_exception (Q * Z) :=
  _iter_solver (func_init objective) objective func_eval
    initial_increment NUM_ITERS_MAX precision.

(** The test of validation mode lets the solved value through. *)
Let accepted (objective : Q) (r : Q * Z) : Prop :=
  Qgtb (Qabs (objective - func_eval (fst r))) precision_comp = false.

Let run (mode : bool) :=
  solve_loop mode func_init func_eval precision_comp initial_increment precision.

Lemma solve_loop_normal_ok : forall objectives solved calc_points,
  Forall2 (fun o r => solve o = Ok r) objectives solved ->
  run false objectives calc_points = Ok (calc_points ++ map fst solved).
Proof.
  intros objectives solved calc_points H. revert calc_points. unfold run, solve in *.
  induction H as [| o [v n] objectives solved H _ IH]; intros calc_points;
    cbn [solve_loop app map fst].
  - now rewrite app_nil_r.
  - rewrite H. cbn [andb]. rewrite IH. now rewrite <- app_assoc.
Qed.

Lemma solve_loop_strict_ok : forall objectives solved calc_points,
  Forall2 (fun o r => solve o = Ok r) objectives solved ->
  Forall2 accepted objectives solved ->
  run true objectives calc_points = Ok (calc_points ++ map fst solved).
Proof.
  intros objectives solved calc_points H. revert calc_points. unfold run, solve in *.
  induction H as [| o [v n] objectives solved H _ IH]; intros calc_points A;
    cbn [solve_loop app map fst].
  - now rewrite app_nil_r.
  - inversion A as [| ? ? ? ? A1 A2]; subst.
    rewrite H. unfold accepted in A1. cbn [fst] in A1.
    rewrite A1. cbn [andb]. rewrite IH; trivial.
    now rewrite <- app_assoc.
Qed.

Lemma solve_loop_normal_raise :
  forall before solved objective exc after calc_points,
  Forall2 (fun o r => solve o = Ok r) before solved ->
  solve objective = Raise exc ->
  run false (before ++ objective :: after) calc_points
  = Ok (calc_points ++ map fst solved).
Proof.
  intros before solved objective exc after calc_points H. revert calc_points.
  unfold run, solve in *.
  induction H as [| o [v n] before solved H _ IH]; intros calc_points R;
    cbn [solve_loop app map fst].
  - rewrite R. now rewrite app_nil_r.
  - rewrite H. cbn [andb]. rewrite IH; trivial.
    now rewrite <- app_assoc.
Qed.

Lemma solve_loop_strict_raise :
  forall before solved objective exc after calc_points,
  Forall2 (fun o r => solve o = Ok r) before solved ->
  solve objective = Raise exc ->
  exists e,
    run true (before ++ objective :: after) calc_points = Raise e /\
    (Forall2 accepted before solved -> e = exc).
Proof.
  intros before solved objective exc after calc_points H. revert calc_points.
  unfold run, solve in *.
  induction H as [| o [v n] before solved H _ IH]; intros calc_points R;
    cbn [solve_loop app map fst].
  - rewrite R. exists exc. auto.
  - rewrite H.
    destruct (Qgtb (Qabs (o - func_eval v)) precision_comp) eqn:B; cbn [andb].
    + eexists. split; [reflexivity |].
      intros A. inversion A as [| ? ? ? ? A1 A2]; subst.
      unfold accepted in A1. cbn [fst] in A1. congruence.
    + destruct (IH (calc_points ++ [v]) R) as (e & E1 & E2).
      exists e. split; [exact E1 |].
      intros A. inversion A; subst. auto.
Qed.

End Batch.

Lemma families_recognized family_name :
  In family_name ["ENTHALPHY"; "CONSTANT VOLUME"]%string <->
  exists config, lookup families family_name = Some config.
Proof.
  simpl. split.
  - intros [<- | [<- | []]]; eexists; reflexivity.
  - intros [config H]. cbn [lookup families] in H.
    destruct (String.eqb family_name "ENTHALPHY") eqn:E1.
    + apply String.eqb_eq in E1. auto.
    + destruct (String.eqb family_name "CONSTANT VOLUME") eqn:E2.
      * apply String.eqb_eq in E2. auto.
      * discriminate.
Qed.

(** C6.  Let the first [k] objectives be solved and let the solver raise
    on objective [k].  Outside validation mode the batch returns the [k]
    solved values and raises nothing.  In validation mode the batch
    raises: the exception of objective [k] itself when the solved values
    before it passed the test of validation mode (otherwise that test has
    raised before objective [k] is reached). *)
Theorem batch_convergence_error_policy
    (func_init func_eval : Q -> Q) (family_name : string)
    (precision_comp initial_increment precision : Q)
    (before : list Q) (solved : list (Q * Z))
    (objective : Q) (exc : solver_exception) (after : list Q) :
  lookup families family_name
    = Some (precision_comp, initial_increment, precision) ->
  Forall2 (fun o r =>
             _iter_solver (func_init o) o func_eval
               initial_increment NUM_ITERS_MAX precision = Ok r)
    before solved ->
  _iter_solver (func_init objective) objective func_eval
    initial_increment NUM_ITERS_MAX precision = Raise exc ->
  solve_curves_with_iteration false func_init func_eval family_name
    (before ++ objective :: after) = Ok (map fst solved) /\
  length (map fst solved) = length before /\
  exists e,
    solve_curves_with_iteration true func_init func_eval family_name
      (before ++ objective :: after) = Raise e /\
    (Forall2 (fun o r =>
                Qgtb (Qabs (o - func_eval (fst r))) precision_comp = false)
       before solved -> e = exc).
Proof.
  intros F H R. unfold solve_curves_with_iteration. rewrite F.
  split; [| split].
  - now rewrite (solve_loop_normal_raise func_init func_eval precision_comp
                   initial_increment precision before solved objective exc after [] H R).
  - rewrite length_map. symmetry. eapply Forall2_length, H.
  - apply (solve_loop_strict_raise func_init func_eval precision_comp
             initial_increment precision before solved objective exc after [] H R).
Qed.

Lemma batch_convergence_error_policy_witness :
  let func_eval := fun v : Q => if Qeq_bool v 0 then 0 else 5 in
  solve_curves_with_iteration false (fun o => o) func_eval
    "CONSTANT VOLUME" [0; 1; 2] = Ok [0] /\
  exists e,
    solve_curves_with_iteration true (fun o => o) func_eval
      "CONSTANT VOLUME" [0; 1; 2] = Raise e.
Proof.
  intros func_eval.
  destruct (_iter_solver 1 1 func_eval 1 NUM_ITERS_MAX (25 # 100000))
    as [r | exc] eqn:R.
  - vm_compute in R. discriminate.
  - destruct (batch_convergence_error_policy (fun o => o) func_eval
                "CONSTANT VOLUME" (5 # 10000) 1 (25 # 100000)
                [0] [(0, 0%Z)] 1 exc [2])
      as (A & _ & e & B & _).
    + reflexivity.
    + constructor; [vm_compute; reflexivity | constructor].
    + exact R.
    + split; [exact A | exists e; exact B].
Defined.

Lemma families_precisions family_name precision_comp initial_increment precision :
  lookup families family_name
    = Some (precision_comp, initial_increment, precision) ->
  precision <= precision_comp.
Proof.
  cbn [lookup families].
  destruct (String.eqb family_name "ENTHALPHY");
    [| destruct (String.eqb family_name "CONSTANT VOLUME")];
    intros [= <- <- <-]; vm_compute; discriminate.
Qed.

(** C7.  For a recognized family and objectives that all converge, the
    batch returns the solved values, one for each objective and in the
    order of the objectives: outside validation mode whenever the solver
    returns for every objective, and in either mode when every returned
    value is within [precision] of its objective.  On the empty sequence
    of objectives it returns the empty sequence, in either mode. *)
Theorem batch_preserves_order
    (TESTING_MODE : bool) (func_init func_eval : Q -> Q)
    (family_name : string)
    (precision_comp initial_increment precision : Q)
    (objective_values : list Q) (solved : list (Q * Z)) :
  lookup families family_name
    = Some (precision_comp, initial_increment, precision) ->
  Forall2 (fun o r =>
             _iter_solver (func_init o) o func_eval
               initial_increment NUM_ITERS_MAX precision = Ok r)
    objective_values solved ->
  (TESTING_MODE = false \/
   Forall2 (fun o r => Qabs (o - func_eval (fst r)) <= precision)
     objective_values solved) ->
  solve_curves_with_iteration TESTING_MODE func_init func_eval family_name
    objective_values = Ok (map fst solved) /\
  length (map fst solved) = length objective_values /\
  solve_curves_with_iteration TESTING_MODE func_init func_eval family_name
    [] = Ok [].
Proof.
  intros F H M. unfold solve_curves_with_iteration. rewrite F.
  split; [| split; [| reflexivity]].
  - destruct TESTING_MODE.
    + destruct M as [M | M]; [discriminate |].
      apply (solve_loop_strict_ok func_init func_eval precision_comp
               initial_increment precision objective_values solved [] H).
      pose proof (families_precisions _ _ _ _ F) as P.
      clear H. induction M as [| o r l l' M1 _ IH]; constructor; trivial.
      apply Qltb_ge. lra.
    + apply (solve_loop_normal_ok func_init func_eval precision_comp
               initial_increment precision objective_values solved [] H).
  - rewrite length_map. symmetry. eapply Forall2_length, H.
Qed.

Lemma batch_preserves_order_witness :
  solve_curves_with_iteration true (fun o => o + 1) (fun v => v)
    "ENTHALPHY" [0; 3; 1] = Ok [0 # 4; 12 # 4; 4 # 4] /\
  solve_curves_with_iteration true (fun o => o + 1) (fun v => v)
    "ENTHALPHY" [] = Ok [].
Proof.
  destruct (batch_preserves_order true (fun o => o + 1) (fun v => v)
              "ENTHALPHY" (1 # 100) (1 # 2) (1 # 100)
              [0; 3; 1] [(0 # 4, 2%Z); (12 # 4, 2%Z); (4 # 4, 2%Z)])
    as (A & _ & B).
  - reflexivity.
  - repeat (constructor; [vm_compute; reflexivity |]). constructor.
  - right. repeat constructor; vm_compute; discriminate.
  - split; [exact A | exact B].
Defined.

(** ** Convergence of the solver *)

(** C2.  The loop is left when [abs(error) > precision] fails, but the
    test inside the loop that accepts a value is [abs(error) < precision]:
    when the error of a value is [precision] exactly, one more step is
    taken and the stepped-to value is returned without being evaluated.
    From [4.25] towards the objective [0] of the identity, with
    [initial_increment = 4] and [precision = 0.25], the solver returns
    [(-3.75, 2)], whose error is [3.75]. *)
Theorem iter_solver_returns_outside_precision :
  _iter_solver (17 # 4) 0 (fun v => v) 4 NUM_ITERS_MAX (1 # 4)
    = Ok (-15 # 4, 2%Z) /\
  ~ Qabs (0 - (fun v => v) (-15 # 4)) <= 1 # 4.
Proof.
  split; [vm_compute; reflexivity |].
  vm_compute. intros H. apply H. reflexivity.
Qed.

(** What a normal return of the solver can be: the initial value, when
    its error is within the precision (or when [num_iters_max] allows no
    pass at all); a value that the test [abs(error) < precision] has
    accepted; or the value one step away from a value whose error is
    [precision] exactly, returned without having been evaluated. *)
Section Returns.
Variable objective_value : Q.
Variable func_eval : Q -> Q.
Variable num_iters_max : Z.
Variable precision : Q.

Let body := loop_body objective_value func_eval precision.
Let loop := while_loop objective_value func_eval num_iters_max precision.
Let cur (st : solver_state) : Q := objective_value - func_eval (value_calc st).


Lemma loop_body_cases st :
  (exists st', body st = Break st' /\
     value_calc st' = value_calc st /\ num_iter st' = num_iter st /\
     Qabs (cur st) < precision) \/
  (exists st', body st = Next st' /\
     precision <= Qabs (cur st) /\ error st' = cur st /\
     num_iter st' = (num_iter st + 1)%Z /\
     precision / 20 <= increment st' /\
     (value_calc st' = value_calc st - increment st' \/
      value_calc st' = value_calc st + increment st')).
Proof.
  unfold body, loop_body. fold (cur st).
  destruct (Qltb (Qabs (cur st)) precision) eqn:A;
    [apply Qltb_lt in A | apply Qltb_ge in A].
  - left. eexists. repeat split. exact A.
  - right. destruct (Qltb (cur st) 0); eexists;
      (split; [reflexivity |]); cbn [error num_iter increment value_calc];
      repeat split; trivial; try apply Q.le_max_l; auto.
Qed.



End Returns.

(** C1, as stated, fails: the identity is strictly increasing and takes
    the value 1000, but from the initial value 0 the solver walks in steps
    of 2 and has used its 100 passes at 200. *)
Lemma monotonic_function_without_convergence :
  ~ (forall (func_eval : Q -> Q)
            (initial_value objective_value initial_increment precision : Q)
            (num_iters_max : Z),
        strictly_monotonic func_eval ->
        (exists t, func_eval t == objective_value) ->
        exists v n,
          _iter_solver initial_value objective_value func_eval
            initial_increment num_iters_max precision = Ok (v, n) /\
          Qabs (objective_value - func_eval v) <= precision /\
          (n <= num_iters_max)%Z).
Proof.
  intros H.
  destruct (H (fun v => v) 0 1000 4 (1 # 100) NUM_ITERS_MAX)
    as (v & n & R & _).
  - left. intros a b L. exact L.
  - exists 1000. reflexivity.
  - vm_compute in R. discriminate.
Qed.

Section SmallSteps.
Variable objective_value : Q.
Variable func_eval : Q -> Q.
Variable num_iters_max : Z.
Variable precision : Q.
Variables L t : Q.

Hypothesis precision_pos : 0 < precision.
Hypothesis func_increasing : increasing func_eval.
Hypothesis func_slope : slope_at_most L func_eval.
Hypothesis root : func_eval t == objective_value.

Let body := loop_body objective_value func_eval precision.
Let loop := while_loop objective_value func_eval num_iters_max precision.

(** The error of the value of the state. *)
Let cur (st : solver_state) : Q := objective_value - func_eval (value_calc st).

Lemma body_break st :
  Qabs (cur st) < precision ->
  exists st', body st = Break st' /\
    value_calc st' = value_calc st /\ num_iter st' = num_iter st.
Proof.
  intros H. unfold body, loop_body. apply Qltb_lt in H. unfold cur in H.
  rewrite H. eexists. split; [reflexivity |]. split; reflexivity.
Qed.

Lemma body_down st :
  cur st <= - precision ->
  body st =
  Next (SolverState (value_calc st - step_down precision st)
          (step_down precision st) true (num_iter st + 1)
          (cur st) (func_eval (value_calc st))).
Proof.
  intros H. unfold body, loop_body. fold (cur st).
  assert (A : Qltb (Qabs (cur st)) precision = false).
  { apply Qltb_ge. rewrite Qabs_neg by lra. lra. }
  assert (B : Qltb (cur st) 0 = true) by (apply Qltb_lt; lra).
  rewrite A, B. reflexivity.
Qed.

Lemma body_up st :
  precision <= cur st ->
  body st =
  Next (SolverState (value_calc st + step_up precision st)
          (step_up precision st) false (num_iter st + 1)
          (cur st) (func_eval (value_calc st))).
Proof.
  intros H. unfold body, loop_body. fold (cur st).
  assert (A : Qltb (Qabs (cur st)) precision = false).
  { apply Qltb_ge. rewrite Qabs_pos by lra. lra. }
  assert (B : Qltb (cur st) 0 = false) by (apply Qltb_ge; lra).
  rewrite A, B. reflexivity.
Qed.

Lemma step_down_floor st : precision / 20 <= step_down precision st.
Proof. apply Q.le_max_l. Qed.

Lemma step_up_floor st : precision / 20 <= step_up precision st.
Proof. apply Q.le_max_l. Qed.

Lemma floor_pos : 0 < precision / 20.
Proof. change (precision / 20) with (precision * (1 # 20)). lra. Qed.

Lemma inject_succ (K : nat) :
  inject_Z (Z.of_nat (S K)) == inject_Z (Z.of_nat K) + 1.
Proof. rewrite Nat2Z.inj_succ. unfold Z.succ. now rewrite inject_Z_plus. Qed.

Lemma step_down_next v st n e i :
  step_down precision (SolverState v (step_down precision st) true n e i)
  == step_down precision st.
Proof.
  unfold step_down at 1. cbn [decreasing increment negb].
  apply Q.max_r, step_down_floor.
Qed.

Lemma step_up_next v st n e i :
  step_up precision (SolverState v (step_up precision st) false n e i)
  == step_up precision st.
Proof.
  unfold step_up at 1. cbn [decreasing increment].
  apply Q.max_r, step_up_floor.
Qed.

(** The walk downwards: the stored error says that the value before was
    too high, the value of the state is not more than one step below it,
    and [K] steps lead to the root. *)
Let inv_down (K : nat) (st : solver_state) : Prop :=
  L * step_down precision st <= 2 * precision /\
  error st <= - precision /\
  error st <= cur st /\
  cur st <= error st + 2 * precision /\
  value_calc st - t <= inject_Z (Z.of_nat K) * step_down precision st /\
  (num_iter st + Z.of_nat K < num_iters_max)%Z.

Let inv_up (K : nat) (st : solver_state) : Prop :=
  L * step_up precision st <= 2 * precision /\
  precision <= error st /\
  cur st <= error st /\
  error st - 2 * precision <= cur st /\
  t - value_calc st <= inject_Z (Z.of_nat K) * step_up precision st /\
  (num_iter st + Z.of_nat K < num_iters_max)%Z.

Lemma walk_down : forall K st fuel,
  inv_down K st ->
  (num_iters_max - num_iter st <= Z.of_nat fuel)%Z ->
  exists v n,
    loop fuel st = Ok (v, n) /\
    Qabs (objective_value - func_eval v) <= precision /\
    (n <= num_iter st + Z.of_nat K)%Z.
Proof.
  induction K as [| K IH]; intros st fuel (HL & He & Hlo & Hhi & Hd & Hn) Hf;
    unfold loop; rewrite while_loop_unfold by assumption; fold loop body.
  all: destruct (Qgtb (Qabs (error st)) precision) eqn:G; cbn [andb];
    [ apply Qltb_lt in G; rewrite Qabs_neg in G by lra
    | apply Qltb_ge in G; rewrite Qabs_neg in G by lra;
      exists (value_calc st), (num_iter st); split; [reflexivity |];
      split; [apply Qabs_Qle_condition; fold (cur st); lra | lia] ].
  all: assert (N : (num_iter st <? num_iters_max)%Z = true)
         by (apply Z.ltb_lt; lia); rewrite N.
  all: destruct (Qlt_le_dec (Qabs (cur st)) precision) as [B | B];
    [ destruct (body_break st B) as (st' & E & V & M); rewrite E, V, M;
      exists (value_calc st), (num_iter st); split; [reflexivity |];
      split; [apply Qlt_le_weak; exact B | lia] | ].
  all: assert (C : cur st <= - precision)
         by (destruct (Qlt_le_dec (cur st) 0);
             [rewrite Qabs_neg in B by lra | rewrite Qabs_pos in B by lra]; lra).
  - exfalso. change (inject_Z (Z.of_nat 0)) with 0 in Hd.
    assert (value_calc st <= t) by lra.
    pose proof (func_increasing _ _ H). unfold cur in C. lra.
  - rewrite (body_down st C). cbn [num_iter value_calc increment iteration_value].
    assert (M : (num_iter st + 1 =? num_iters_max)%Z = false)
      by (apply Z.eqb_neq; lia). rewrite M.
    pose proof (step_down_floor st) as F. pose proof floor_pos as F0.
    set (st' := SolverState _ _ _ _ _ _).
    assert (S' : step_down precision st' == step_down precision st)
      by apply step_down_next.
    destruct (IH st' fuel) as (v & n & R & P & Q').
    + unfold inv_down. rewrite S'. unfold cur, st'.
      cbn [error value_calc num_iter]. fold (cur st).
      assert (A : value_calc st - step_down precision st <= value_calc st) by lra.
      pose proof (func_increasing _ _ A) as A1.
      pose proof (func_slope _ _ A) as A2.
      rewrite inject_succ in Hd. unfold cur in *.
      repeat split; try lra; try lia.
    + unfold st'. cbn [num_iter]. lia.
    + exists v, n. split; [exact R |]. split; [exact P |].
      unfold st' in Q'. cbn [num_iter] in Q'. lia.
Qed.

Lemma walk_up : forall K st fuel,
  inv_up K st ->
  (num_iters_max - num_iter st <= Z.of_nat fuel)%Z ->
  exists v n,
    loop fuel st = Ok (v, n) /\
    Qabs (objective_value - func_eval v) <= precision /\
    (n <= num_iter st + Z.of_nat K)%Z.
Proof.
  induction K as [| K IH]; intros st fuel (HL & He & Hhi & Hlo & Hd & Hn) Hf;
    unfold loop; rewrite while_loop_unfold by assumption; fold loop body.
  all: destruct (Qgtb (Qabs (error st)) precision) eqn:G; cbn [andb];
    [ apply Qltb_lt in G; rewrite Qabs_pos in G by lra
    | apply Qltb_ge in G; rewrite Qabs_pos in G by lra;
      exists (value_calc st), (num_iter st); split; [reflexivity |];
      split; [apply Qabs_Qle_condition; fold (cur st); lra | lia] ].
  all: assert (N : (num_iter st <? num_iters_max)%Z = true)
         by (apply Z.ltb_lt; lia); rewrite N.
  all: destruct (Qlt_le_dec (Qabs (cur st)) precision) as [B | B];
    [ destruct (body_break st B) as (st' & E & V & M); rewrite E, V, M;
      exists (value_calc st), (num_iter st); split; [reflexivity |];
      split; [apply Qlt_le_weak; exact B | lia] | ].
  all: assert (C : precision <= cur st)
         by (destruct (Qlt_le_dec (cur st) 0);
             [rewrite Qabs_neg in B by lra | rewrite Qabs_pos in B by lra]; lra).
  - exfalso. change (inject_Z (Z.of_nat 0)) with 0 in Hd.
    assert (t <= value_calc st) by lra.
    pose proof (func_increasing _ _ H). unfold cur in C. lra.
  - rewrite (body_up st C). cbn [num_iter value_calc increment iteration_value].
    assert (M : (num_iter st + 1 =? num_iters_max)%Z = false)
      by (apply Z.eqb_neq; lia). rewrite M.
    pose proof (step_up_floor st) as F. pose proof floor_pos as F0.
    set (st' := SolverState _ _ _ _ _ _).
    assert (S' : step_up precision st' == step_up precision st)
      by apply step_up_next.
    destruct (IH st' fuel) as (v & n & R & P & Q').
    + unfold inv_up. rewrite S'. unfold cur, st'.
      cbn [error value_calc num_iter]. fold (cur st).
      assert (A : value_calc st <= value_calc st + step_up precision st) by lra.
      pose proof (func_increasing _ _ A) as A1.
      pose proof (func_slope _ _ A) as A2.
      rewrite inject_succ in Hd. unfold cur in *.
      repeat split; try lra; try lia.
    + unfold st'. cbn [num_iter]. lia.
    + exists v, n. split; [exact R |]. split; [exact P |].
      unfold st' in Q'. cbn [num_iter] in Q'. lia.
Qed.

(** *** Steps that are halved

    The walk towards the root overshoots it when the step is long; the
    step is then halved and the walk turns round.  [K] steps lead to the
    root, and after [H] halvings a step does not carry the value of the
    function across more than twice the precision. *)

Let exact_free := never_exact objective_value func_eval precision.

Let down (st : solver_state) : solver_state :=
  SolverState (value_calc st - step_down precision st)
    (step_down precision st) true (num_iter st + 1)
    (cur st) (func_eval (value_calc st)).

Let up (st : solver_state) : solver_state :=
  SolverState (value_calc st + step_up precision st)
    (step_up precision st) false (num_iter st + 1)
    (cur st) (func_eval (value_calc st)).

Let side_info (H K : nat) (st : solver_state) : Prop :=
  (t <= value_calc st ->
   value_calc st - t <= inject_Z (Z.of_nat K) * step_down precision st /\
   L * halvings precision H (step_down precision st) <= 2 * precision) /\
  (value_calc st <= t ->
   t - value_calc st <= inject_Z (Z.of_nat K) * step_up precision st /\
   L * halvings precision H (step_up precision st) <= 2 * precision).

Lemma slope_nonneg : 0 <= L.
Proof.
  pose proof (func_increasing 0 1 ltac:(lra)).
  pose proof (func_slope 0 1 ltac:(lra)). lra.
Qed.

Lemma half_le s : precision / 20 <= s -> Qmax (precision / 20) (s / 2) <= s.
Proof.
  intros H. pose proof floor_pos. apply Q.max_lub; trivial.
  change (s / 2) with (s * (1 # 2)). lra.
Qed.

Lemma halvings_mono : forall H s s',
  s <= s' -> halvings precision H s <= halvings precision H s'.
Proof.
  induction H as [| H IH]; intros s s' Hs; simpl; trivial.
  apply IH, Q.max_le_compat_l.
  change (s / 2) with (s * (1 # 2)). change (s' / 2) with (s' * (1 # 2)). lra.
Qed.

Lemma halvings_pos : forall H s, 0 < s -> 0 < halvings precision H s.
Proof.
  induction H as [| H IH]; intros s Hs; simpl; trivial.
  apply IH. pose proof floor_pos.
  apply Qlt_le_trans with (precision / 20); [assumption | apply Q.le_max_l].
Qed.

Lemma exact_free_cur n st :
  exact_free n st = true -> ~ Qabs (cur st) == precision.
Proof.
  unfold exact_free. destruct n; simpl; intros H;
    apply andb_true_iff in H; destruct H as [H _];
    apply negb_true_iff, Qeqb_neq in H; exact H.
Qed.

Lemma exact_free_next n st st' :
  exact_free (S n) st = true -> body st = Next st' -> exact_free n st' = true.
Proof.
  unfold exact_free, body. simpl. intros H B.
  apply andb_true_iff in H. destruct H as [_ H]. now rewrite B in H.
Qed.

Lemma exact_free_le : forall n m st,
  (m <= n)%nat -> exact_free n st = true -> exact_free m st = true.
Proof.
  unfold exact_free.
  induction n as [| n IH]; intros m st Hm H.
  - now replace m with 0%nat by lia.
  - destruct m as [| m]; simpl in *;
      apply andb_true_iff in H; destruct H as [H1 H2];
      apply andb_true_iff; split; trivial.
    destruct (loop_body objective_value func_eval precision st); trivial.
    apply IH; [lia | assumption].
Qed.

Lemma above_root st : cur st < 0 -> t < value_calc st.
Proof.
  intros H. apply Qnot_le_lt. intros N.
  pose proof (func_increasing _ _ N). unfold cur in H. lra.
Qed.

Lemma below_root st : 0 < cur st -> value_calc st < t.
Proof.
  intros H. apply Qnot_le_lt. intros N.
  pose proof (func_increasing _ _ N). unfold cur in H. lra.
Qed.

Lemma down_steps H K st :
  side_info H K st -> cur st < 0 -> exists K', K = S K'.
Proof.
  intros [Sd _] C. pose proof (above_root st C) as A.
  destruct K as [| K']; [| now exists K'].
  destruct Sd as [Sd _]; [lra |].
  change (inject_Z (Z.of_nat 0)) with 0 in Sd. lra.
Qed.

Lemma up_steps H K st :
  side_info H K st -> 0 < cur st -> exists K', K = S K'.
Proof.
  intros [_ Su] C. pose proof (below_root st C) as A.
  destruct K as [| K']; [| now exists K'].
  destruct Su as [Su _]; [lra |].
  change (inject_Z (Z.of_nat 0)) with 0 in Su. lra.
Qed.

Lemma scale_le (c a b : Q) : 0 <= c -> a <= b -> c * a <= c * b.
Proof. intros. nra. Qed.

Lemma inject_nonneg (K : nat) : 0 <= inject_Z (Z.of_nat K).
Proof. change 0 with (inject_Z 0). rewrite <- Zle_Qle. lia. Qed.

Lemma down_alpha H K st :
  side_info H (S K) st -> cur st < 0 ->
  t <= value_calc (down st) -> side_info H K (down st).
Proof.
  intros [Sd _] C A. pose proof (above_root st C) as A0.
  destruct Sd as [Sd1 Sd2]; [lra |].
  pose proof (step_down_floor st) as F. pose proof floor_pos as F0.
  pose proof slope_nonneg as L0. pose proof (inject_nonneg K) as K0.
  assert (S1 : step_down precision (down st) == step_down precision st)
    by apply step_down_next.
  assert (S2 : step_up precision (down st)
               = Qmax (precision / 20) (step_down precision st / 2))
    by reflexivity.
  rewrite inject_succ in Sd1.
  unfold down in A. cbn [value_calc] in A.
  split; intros B; cbn [down value_calc] in *.
  - split.
    + rewrite S1. lra.
    + apply Qle_trans with (L * halvings precision H (step_down precision st));
        trivial.
      apply scale_le; trivial. apply halvings_mono. rewrite S1. lra.
  - split.
    + assert (0 <= inject_Z (Z.of_nat K) * step_up precision (down st)).
      { apply Qmult_le_0_compat; trivial.
        pose proof (step_up_floor (down st)). lra. }
      lra.
    + apply Qle_trans with (L * halvings precision H (step_down precision st));
        trivial.
      apply scale_le; trivial. apply halvings_mono.
      rewrite S2. now apply half_le.
Qed.

Lemma up_alpha H K st :
  side_info H (S K) st -> 0 < cur st ->
  value_calc (up st) <= t -> side_info H K (up st).
Proof.
  intros [_ Su] C A. pose proof (below_root st C) as A0.
  destruct Su as [Su1 Su2]; [lra |].
  pose proof (step_up_floor st) as F. pose proof floor_pos as F0.
  pose proof slope_nonneg as L0. pose proof (inject_nonneg K) as K0.
  assert (S1 : step_up precision (up st) == step_up precision st)
    by apply step_up_next.
  assert (S2 : step_down precision (up st)
               = Qmax (precision / 20) (step_up precision st / 2))
    by reflexivity.
  rewrite inject_succ in Su1.
  unfold up in A. cbn [value_calc] in A.
  split; intros B; cbn [up value_calc] in *.
  - split.
    + assert (0 <= inject_Z (Z.of_nat K) * step_down precision (up st)).
      { apply Qmult_le_0_compat; trivial.
        pose proof (step_down_floor (up st)). lra. }
      lra.
    + apply Qle_trans with (L * halvings precision H (step_up precision st));
        trivial.
      apply scale_le; trivial. apply halvings_mono.
      rewrite S2. now apply half_le.
  - split.
    + rewrite S1. lra.
    + apply Qle_trans with (L * halvings precision H (step_up precision st));
        trivial.
      apply scale_le; trivial. apply halvings_mono. rewrite S1. lra.
Qed.

(** After an overshoot the root is less than two of the halved steps
    away. *)
Lemma down_beta H K st :
  side_info (S H) K st -> cur st < 0 ->
  value_calc (down st) < t -> side_info H 2 (down st).
Proof.
  intros [Sd _] C A. pose proof (above_root st C) as A0.
  destruct Sd as [_ Sd2]; [lra |].
  unfold down in A. cbn [value_calc] in A.
  split; intros B; cbn [down value_calc] in *; [lra |].
  assert (S2 : step_up precision (down st)
               = Qmax (precision / 20) (step_down precision st / 2))
    by reflexivity.
  rewrite S2. split; [| exact Sd2].
  change (inject_Z (Z.of_nat 2)) with 2.
  pose proof (Q.le_max_r (precision / 20) (step_down precision st / 2)) as M.
  change (step_down precision st / 2)
    with (step_down precision st * (1 # 2)) in M at 1. lra.
Qed.

Lemma up_beta H K st :
  side_info (S H) K st -> 0 < cur st ->
  t < value_calc (up st) -> side_info H 2 (up st).
Proof.
  intros [_ Su] C A. pose proof (below_root st C) as A0.
  destruct Su as [_ Su2]; [lra |].
  unfold up in A. cbn [value_calc] in A.
  split; intros B; cbn [up value_calc] in *; [| lra].
  assert (S2 : step_down precision (up st)
               = Qmax (precision / 20) (step_up precision st / 2))
    by reflexivity.
  rewrite S2. split; [| exact Su2].
  change (inject_Z (Z.of_nat 2)) with 2.
  pose proof (Q.le_max_r (precision / 20) (step_up precision st / 2)) as M.
  change (step_up precision st / 2)
    with (step_up precision st * (1 # 2)) in M at 1. lra.
Qed.

(** When a step is short, the value across the root is accepted. *)
Lemma down_last K st :
  side_info 0 K st -> cur st < - precision ->
  value_calc (down st) < t -> Qabs (cur (down st)) < precision.
Proof.
  intros [Sd _] C A. pose proof (above_root st ltac:(lra)) as A0.
  destruct Sd as [_ Sd2]; [lra |]. simpl in Sd2.
  unfold down in *. cbn [value_calc] in *. unfold cur in *. cbn [value_calc].
  pose proof (step_down_floor st) as F. pose proof floor_pos as F0.
  assert (B : value_calc st - step_down precision st <= value_calc st) by lra.
  pose proof (func_slope _ _ B) as B1.
  pose proof (func_increasing _ _ (Qlt_le_weak _ _ A)) as B2.
  apply Qabs_Qlt_condition. split; lra.
Qed.

Lemma up_last K st :
  side_info 0 K st -> precision < cur st ->
  t < value_calc (up st) -> Qabs (cur (up st)) < precision.
Proof.
  intros [_ Su] C A. pose proof (below_root st ltac:(lra)) as A0.
  destruct Su as [_ Su2]; [lra |]. simpl in Su2.
  unfold up in *. cbn [value_calc] in *. unfold cur in *. cbn [value_calc].
  pose proof (step_up_floor st) as F. pose proof floor_pos as F0.
  assert (B : value_calc st <= value_calc st + step_up precision st) by lra.
  pose proof (func_slope _ _ B) as B1.
  pose proof (func_increasing _ _ (Qlt_le_weak _ _ A)) as B2.
  apply Qabs_Qlt_condition. split; lra.
Qed.

Lemma not_accepted st :
  ~ Qabs (cur st) == precision -> precision <= Qabs (cur st) ->
  cur st < - precision \/ precision < cur st.
Proof.
  intros N B. destruct (Qlt_le_dec (cur st) 0) as [C | C].
  - rewrite Qabs_neg in N, B by lra. left.
    apply Qnot_le_lt. intros M. apply N. lra.
  - rewrite Qabs_pos in N, B by lra. right.
    apply Qnot_le_lt. intros M. apply N. lra.
Qed.

Lemma body_down' st : cur st < - precision -> body st = Next (down st).
Proof. intros H. apply body_down. lra. Qed.

Lemma body_up' st : precision < cur st -> body st = Next (up st).
Proof. intros H. apply body_up. lra. Qed.

(** The loop from a state whose passes never meet an error of
    [precision] exactly. *)
Lemma oscillate : forall H K st fuel,
  precision < Qabs (error st) ->
  exact_free (K + 2 * H) st = true ->
  side_info H K st ->
  (num_iter st + Z.of_nat (K + 2 * H) < num_iters_max)%Z ->
  (num_iters_max - num_iter st <= Z.of_nat fuel)%Z ->
  exists v n,
    loop fuel st = Ok (v, n) /\
    Qabs (objective_value - func_eval v) < precision /\
    (n <= num_iter st + Z.of_nat (K + 2 * H))%Z.
Proof.
  induction H as [| H IHH]; induction K as [| K IHK];
    intros st fuel He Hn Hs Hb Hf;
    unfold loop; rewrite while_loop_unfold by assumption; fold loop body;
    (assert (G : Qgtb (Qabs (error st)) precision = true)
       by (apply Qltb_lt; exact He));
    (assert (N : (num_iter st <? num_iters_max)%Z = true)
       by (apply Z.ltb_lt; lia));
    rewrite G, N; cbn [andb];
    (destruct (Qlt_le_dec (Qabs (cur st)) precision) as [B | B];
     [ destruct (body_break st B) as (st' & E & V & M); rewrite E, V, M;
       exists (value_calc st), (num_iter st); split; [reflexivity |];
       split; [exact B | lia] | ]);
    (destruct (not_accepted st (exact_free_cur _ _ Hn) B) as [C | C];
     [ destruct (down_steps _ _ _ Hs ltac:(lra)) as [K' EK];
       rewrite (body_down' st C)
     | destruct (up_steps _ _ _ Hs ltac:(lra)) as [K' EK];
       rewrite (body_up' st C) ]);
    try discriminate; injection EK as <-;
    match goal with
    | |- context [(num_iter ?s =? num_iters_max)%Z] =>
        assert (M : (num_iter s =? num_iters_max)%Z = false)
          by (apply Z.eqb_neq; cbn [down up num_iter]; lia);
        rewrite M
    end.
  (* no halving left *)
  - pose proof (exact_free_next _ _ _ Hn (body_down' st C)) as Hn'.
    assert (He' : precision < Qabs (error (down st)))
      by (cbn [down error]; rewrite Qabs_neg; lra).
    destruct (Qlt_le_dec (value_calc (down st)) t) as [A | A].
    + pose proof (down_last _ _ Hs C A) as B'.
      unfold loop. rewrite while_loop_unfold by (cbn [down num_iter]; lia).
      fold loop body.
      assert (G' : Qgtb (Qabs (error (down st))) precision = true)
        by (apply Qltb_lt; exact He').
      assert (N' : (num_iter (down st) <? num_iters_max)%Z = true)
        by (apply Z.ltb_lt; cbn [down num_iter]; lia).
      rewrite G', N'. cbn [andb].
      destruct (body_break _ B') as (st' & E & V & M'). rewrite E, V, M'.
      exists (value_calc (down st)), (num_iter (down st)).
      split; [reflexivity |]. split; [exact B' |]. cbn [down num_iter]. lia.
    + destruct (IHK (down st) fuel) as (v & n & R & P & Q'); trivial.
      * apply down_alpha; trivial. lra.
      * cbn [down num_iter]. lia.
      * cbn [down num_iter]. lia.
      * exists v, n. split; [exact R |]. split; [exact P |].
        cbn [down num_iter] in Q'. lia.
  - pose proof (exact_free_next _ _ _ Hn (body_up' st C)) as Hn'.
    assert (He' : precision < Qabs (error (up st)))
      by (cbn [up error]; rewrite Qabs_pos; lra).
    destruct (Qlt_le_dec t (value_calc (up st))) as [A | A].
    + pose proof (up_last _ _ Hs C A) as B'.
      unfold loop. rewrite while_loop_unfold by (cbn [up num_iter]; lia).
      fold loop body.
      assert (G' : Qgtb (Qabs (error (up st))) precision = true)
        by (apply Qltb_lt; exact He').
      assert (N' : (num_iter (up st) <? num_iters_max)%Z = true)
        by (apply Z.ltb_lt; cbn [up num_iter]; lia).
      rewrite G', N'. cbn [andb].
      destruct (body_break _ B') as (st' & E & V & M'). rewrite E, V, M'.
      exists (value_calc (up st)), (num_iter (up st)).
      split; [reflexivity |]. split; [exact B' |]. cbn [up num_iter]. lia.
    + destruct (IHK (up st) fuel) as (v & n & R & P & Q'); trivial.
      * apply up_alpha; trivial. lra.
      * cbn [up num_iter]. lia.
      * cbn [up num_iter]. lia.
      * exists v, n. split; [exact R |]. split; [exact P |].
        cbn [up num_iter] in Q'. lia.
  (* a halving is left *)
  - pose proof (exact_free_next _ _ _ Hn (body_down' st C)) as Hn'.
    assert (He' : precision < Qabs (error (down st)))
      by (cbn [down error]; rewrite Qabs_neg; lra).
    destruct (Qlt_le_dec (value_calc (down st)) t) as [A | A].
    + destruct (IHH 2%nat (down st) fuel) as (v & n & R & P & Q'); trivial.
      * apply exact_free_le with (K + 2 * S H)%nat; [lia | exact Hn'].
      * apply down_beta with (S K); trivial. lra.
      * cbn [down num_iter]. lia.
      * cbn [down num_iter]. lia.
      * exists v, n. split; [exact R |]. split; [exact P |].
        cbn [down num_iter] in Q'. lia.
    + destruct (IHK (down st) fuel) as (v & n & R & P & Q'); trivial.
      * apply down_alpha; trivial. lra.
      * cbn [down num_iter]. lia.
      * cbn [down num_iter]. lia.
      * exists v, n. split; [exact R |]. split; [exact P |].
        cbn [down num_iter] in Q'. lia.
  - pose proof (exact_free_next _ _ _ Hn (body_up' st C)) as Hn'.
    assert (He' : precision < Qabs (error (up st)))
      by (cbn [up error]; rewrite Qabs_pos; lra).
    destruct (Qlt_le_dec t (value_calc (up st))) as [A | A].
    + destruct (IHH 2%nat (up st) fuel) as (v & n & R & P & Q'); trivial.
      * apply exact_free_le with (K + 2 * S H)%nat; [lia | exact Hn'].
      * apply up_beta with (S K); trivial. lra.
      * cbn [up num_iter]. lia.
      * cbn [up num_iter]. lia.
      * exists v, n. split; [exact R |]. split; [exact P |].
        cbn [up num_iter] in Q'. lia.
    + destruct (IHK (up st) fuel) as (v & n & R & P & Q'); trivial.
      * apply up_alpha; trivial. lra.
      * cbn [up num_iter]. lia.
      * cbn [up num_iter]. lia.
      * exists v, n. split; [exact R |]. split; [exact P |].
        cbn [up num_iter] in Q'. lia.
Qed.

End SmallSteps.

Lemma while_loop_exit objective_value func_eval num_iters_max precision fuel st :
  Qgtb (Qabs (error st)) precision = false ->
  while_loop objective_value func_eval num_iters_max precision fuel st
  = Ok (value_calc st, num_iter st).
Proof. intros H. destruct fuel; cbn [while_loop]; rewrite H; reflexivity. Qed.

(** When no step carries the value of the function across more than
    twice the precision, the walk ends at a value within the precision,
    also when an error of [precision] exactly is met on the way. *)
Lemma small_steps_converge
    (func_eval : Q -> Q)
    (initial_value objective_value initial_increment precision L t : Q)
    (num_iters_max : Z) (K : nat) :
  0 < precision ->
  increasing func_eval ->
  slope_at_most L func_eval ->
  func_eval t == objective_value ->
  L * Qmax (precision / 20) initial_increment <= 2 * precision ->
  Qabs (initial_value - t)
    <= inject_Z (Z.of_nat K) * Qmax (precision / 20) (initial_increment / 2) ->
  (Z.of_nat K < num_iters_max)%Z ->
  exists v n,
    _iter_solver initial_value objective_value func_eval
      initial_increment num_iters_max precision = Ok (v, n) /\
    Qabs (objective_value - func_eval v) <= precision /\
    (n <= Z.of_nat K)%Z /\ (n < num_iters_max)%Z.
Proof.
  intros Hp Hi Hs Hr HL Hd HK.
  set (st := initial_state objective_value func_eval initial_value initial_increment).
  assert (L0 : 0 <= L).
  { pose proof (Hi 0 1 ltac:(lra)). pose proof (Hs 0 1 ltac:(lra)). lra. }
  assert (Sdown : step_down precision st == Qmax (precision / 20) initial_increment)
    by reflexivity.
  assert (Sup : step_up precision st == Qmax (precision / 20) (initial_increment / 2))
    by reflexivity.
  assert (Sle : step_up precision st <= step_down precision st).
  { rewrite Sdown, Sup.
    assert (F : 0 < precision / 20)
      by (change (precision / 20) with (precision * (1 # 20)); lra).
    apply Q.max_lub; [apply Q.le_max_l |].
    destruct (Qlt_le_dec initial_increment 0) as [I | I].
    - apply Qle_trans with (precision / 20); [| apply Q.le_max_l].
      change (initial_increment / 2) with (initial_increment * (1 # 2)). lra.
    - apply Qle_trans with initial_increment; [| apply Q.le_max_r].
      change (initial_increment / 2) with (initial_increment * (1 # 2)). lra. }
  assert (K0 : 0 <= inject_Z (Z.of_nat K)).
  { change 0 with (inject_Z 0). rewrite <- Zle_Qle. lia. }
  apply Qabs_Qle_condition in Hd. rewrite <- Sup in Hd. rewrite <- Sdown in HL.
  assert (Fuel : (num_iters_max - num_iter st <= Z.of_nat (Z.to_nat num_iters_max))%Z)
    by (cbn [st initial_state num_iter]; lia).
  assert (KS : inject_Z (Z.of_nat K) * step_up precision st
               <= inject_Z (Z.of_nat K) * step_down precision st) by nra.
  assert (V : value_calc st = initial_value) by reflexivity.
  assert (N0 : num_iter st = 0%Z) by reflexivity.
  assert (E0 : error st = objective_value - func_eval (value_calc st)) by reflexivity.
  unfold _iter_solver. fold st.
  destruct (Qlt_le_dec (error st) (- precision)) as [E | E];
    [| destruct (Qlt_le_dec precision (error st)) as [E' | E']].
  - destruct (walk_down objective_value func_eval num_iters_max precision L t
                Hp Hi Hs Hr K st (Z.to_nat num_iters_max))
      as (v & n & R & P & N); trivial.
    + repeat split; rewrite <- ?E0, ?V, ?N0; try lra; lia.
    + exists v, n. rewrite N0 in N. repeat split; trivial; lia.
  - destruct (walk_up objective_value func_eval num_iters_max precision L t
                Hp Hi Hs Hr K st (Z.to_nat num_iters_max))
      as (v & n & R & P & N); trivial.
    + repeat split; rewrite <- ?E0, ?V, ?N0; try lra; try lia. nra.
    + exists v, n. rewrite N0 in N. repeat split; trivial; lia.
  - exists initial_value, 0%Z.
    assert (G : Qgtb (Qabs (error st)) precision = false).
    { apply Qltb_ge, Qabs_Qle_condition. lra. }
    split; [| split; [| lia]].
    + now rewrite while_loop_exit.
    + apply Qabs_Qle_condition. rewrite E0, V in E, E'. lra.
Qed.

(** On exact numbers.  Let the evaluation function be increasing with
    slope at most [L] and take the objective at a point [t].  Let [K]
    steps of the size [max(precision/20, initial_increment/2)] reach [t]
    from the initial value, let [H] halvings bring the step
    [max(precision/20, initial_increment)] down to a size that does not
    carry the value of the function across more than twice the precision,
    and let [K + 2 * H < num_iters_max].  Then the solver returns a value
    whose error is at most [precision], after at most [K + 2 * H] passes;
    when the step has to be halved ([H > 0]) this needs that none of the
    values evaluated on the way has an error of [precision] exactly. *)
Lemma halved_steps_converge
    (func_eval : Q -> Q)
    (initial_value objective_value initial_increment precision L t : Q)
    (num_iters_max : Z) (K H : nat) :
  0 < precision ->
  increasing func_eval ->
  slope_at_most L func_eval ->
  func_eval t == objective_value ->
  L * halvings precision H (Qmax (precision / 20) initial_increment)
    <= 2 * precision ->
  Qabs (initial_value - t)
    <= inject_Z (Z.of_nat K) * Qmax (precision / 20) (initial_increment / 2) ->
  (Z.of_nat (K + 2 * H) < num_iters_max)%Z ->
  (H = 0%nat \/
   never_exact objective_value func_eval precision (K + 2 * H)
     (initial_state objective_value func_eval
        initial_value initial_increment) = true) ->
  exists v n,
    _iter_solver initial_value objective_value func_eval
      initial_increment num_iters_max precision = Ok (v, n) /\
    Qabs (objective_value - func_eval v) <= precision /\
    (n <= Z.of_nat (K + 2 * H))%Z /\ (n < num_iters_max)%Z.
Proof.
  intros Hp Hi Hs Hr HL Hd HK [-> | Hn].
  - simpl in HL. replace (K + 2 * 0)%nat with K in * by lia.
    now apply small_steps_converge with L t.
  - set (st := initial_state objective_value func_eval
                 initial_value initial_increment) in *.
    assert (Sle : step_up precision st <= step_down precision st).
    { change (Qmax (precision / 20) (initial_increment / 2)
              <= Qmax (precision / 20) initial_increment).
      assert (F : 0 < precision / 20)
        by (change (precision / 20) with (precision * (1 # 20)); lra).
      apply Q.max_lub; [apply Q.le_max_l |].
      destruct (Qlt_le_dec initial_increment 0) as [I | I].
      - apply Qle_trans with (precision / 20); [| apply Q.le_max_l].
        change (initial_increment / 2) with (initial_increment * (1 # 2)). lra.
      - apply Qle_trans with initial_increment; [| apply Q.le_max_r].
        change (initial_increment / 2) with (initial_increment * (1 # 2)). lra. }
    pose proof (inject_nonneg K) as K0.
    pose proof (slope_nonneg func_eval L Hi Hs) as L0.
    apply Qabs_Qle_condition in Hd.
    change (Qmax (precision / 20) (initial_increment / 2))
      with (step_up precision st) in Hd.
    change (Qmax (precision / 20) initial_increment)
      with (step_down precision st) in HL.
    unfold _iter_solver. fold st.
    destruct (Qlt_le_dec precision (Qabs (error st))) as [E | E].
    + destruct (oscillate objective_value func_eval num_iters_max precision
                  L t Hp Hi Hs Hr H K st (Z.to_nat num_iters_max))
        as (v & n & R & P & N); trivial.
      * split; intros A; split; trivial.
        -- assert (inject_Z (Z.of_nat K) * step_up precision st
                   <= inject_Z (Z.of_nat K) * step_down precision st)
             by (now apply scale_le).
           change (value_calc st) with initial_value. lra.
        -- change (value_calc st) with initial_value. lra.
        -- apply Qle_trans
             with (L * halvings precision H (step_down precision st)); trivial.
           apply scale_le; trivial. now apply halvings_mono.
      * change (num_iter st) with 0%Z. lia.
      * exists v, n. change (num_iter st) with 0%Z in N.
        split; [exact R |]. split; [now apply Qlt_le_weak |]. lia.
    + exists initial_value, 0%Z.
      assert (G : Qgtb (Qabs (error st)) precision = false)
        by now apply Qltb_ge.
      split; [now rewrite while_loop_exit |].
      split; [exact E | lia].
Qed.

(** ** The symbolic angle and the real [arctan2] *)

Section Arctan2.
Local Open Scope R_scope.

Lemma atan_inv_neg u : u < 0 -> atan (/ u) = - (PI / 2) - atan u.
Proof.
  intros H. assert (P : 0 < - u) by Lra.lra.
  pose proof (atan_inv (- u) P) as E.
  assert (I : / - u = - / u) by (field; Lra.lra).
  rewrite I, !atan_opp in E. Lra.lra.
Qed.

Lemma arctan2_upper y x : 0 < y -> arctan2 y x = PI / 2 - atan (x / y).
Proof.
  intros Hy. unfold arctan2.
  assert (I : x <> 0 -> y / x = / (x / y)) by (intros; field; split; Lra.lra).
  destruct (Rlt_dec 0 x) as [Hx | Hx].
  - rewrite I by Lra.lra. apply atan_inv.
    apply Rdiv_lt_0_compat; assumption.
  - destruct (Rlt_dec x 0) as [Hx' | Hx'].
    + destruct (Rle_dec 0 y) as [_ | N]; [| Lra.lra].
      rewrite I by Lra.lra. rewrite atan_inv_neg; [Lra.lra |].
      pose proof (Rinv_0_lt_compat y Hy). unfold Rdiv. Lra.nra.
    + assert (x = 0) by Lra.lra. subst x.
      destruct (Rlt_dec 0 y); [| Lra.lra].
      unfold Rdiv. rewrite Rmult_0_l, atan_0. Lra.lra.
Qed.

Lemma arctan2_lower y x : y < 0 -> arctan2 y x = - (PI / 2) - atan (x / y).
Proof.
  intros Hy. unfold arctan2.
  assert (I : x <> 0 -> y / x = / (x / y)) by (intros; field; split; Lra.lra).
  assert (Iy : 0 < / - y) by (apply Rinv_0_lt_compat; Lra.lra).
  assert (E : forall z, z / y = - (z * / - y)) by (intros; field; Lra.lra).
  destruct (Rlt_dec 0 x) as [Hx | Hx].
  - rewrite I by Lra.lra. apply atan_inv_neg.
    rewrite E. pose proof (Rmult_lt_0_compat _ _ Hx Iy). Lra.lra.
  - destruct (Rlt_dec x 0) as [Hx' | Hx'].
    + destruct (Rle_dec 0 y) as [N | _]; [Lra.lra |].
      rewrite I by Lra.lra. rewrite atan_inv; [Lra.lra |].
      rewrite E. assert (P : 0 < - x) by Lra.lra.
      pose proof (Rmult_lt_0_compat _ _ P Iy). Lra.lra.
    + assert (x = 0) by Lra.lra. subst x.
      destruct (Rlt_dec 0 y); [Lra.lra |].
      destruct (Rlt_dec y 0); [| Lra.lra].
      unfold Rdiv. rewrite Rmult_0_l, atan_0. Lra.lra.
Qed.

Lemma arctan2_flat x :
  arctan2 0 x = if Rlt_dec x 0 then PI else 0.
Proof.
  unfold arctan2. unfold Rdiv. rewrite Rmult_0_l, atan_0.
  destruct (Rlt_dec 0 x), (Rlt_dec x 0); try Lra.lra.
  - destruct (Rle_dec 0 0); Lra.lra.
  - destruct (Rlt_dec 0 0); Lra.lra.
Qed.

Lemma arctan2_upper_range y x : 0 < y -> 0 < arctan2 y x < PI.
Proof.
  intros H. rewrite (arctan2_upper _ _ H).
  pose proof (atan_bound (x / y)). Lra.lra.
Qed.

Lemma arctan2_lower_range y x : y < 0 -> - PI < arctan2 y x < 0.
Proof.
  intros H. rewrite (arctan2_lower _ _ H).
  pose proof (atan_bound (x / y)). Lra.lra.
Qed.

Lemma fraction_lt a b c d : 0 < b * d -> a * d < c * b -> a / b < c / d.
Proof.
  intros P H.
  assert (Nb : b <> 0) by (intros ->; Lra.lra).
  assert (Nd : d <> 0) by (intros ->; Lra.lra).
  assert (E : c / d - a / b = (c * b - a * d) * / (b * d)) by (field; split; assumption).
  pose proof (Rinv_0_lt_compat _ P) as I.
  assert (0 < (c * b - a * d) * / (b * d)) by (apply Rmult_lt_0_compat; Lra.lra).
  Lra.lra.
Qed.

Lemma fraction_eq a b c d : b <> 0 -> d <> 0 -> a * d = c * b -> a / b = c / d.
Proof.
  intros Nb Nd H.
  assert (E : c / d - a / b = (c * b - a * d) * / (b * d)) by (field; split; assumption).
  rewrite H in E. Lra.lra.
Qed.

(** Two angles of the same open half turn. *)
Lemma arctan2_same_side y1 x1 y2 x2 :
  0 < y1 * y2 ->
  (0 < x1 * y2 - y1 * x2 -> arctan2 y1 x1 < arctan2 y2 x2) /\
  (0 = x1 * y2 - y1 * x2 -> arctan2 y1 x1 = arctan2 y2 x2).
Proof.
  intros P.
  assert (N1 : y1 <> 0) by (intros ->; Lra.lra).
  assert (N2 : y2 <> 0) by (intros ->; Lra.lra).
  assert (V : arctan2 y1 x1 - arctan2 y2 x2 = atan (x2 / y2) - atan (x1 / y1)).
  { destruct (Rlt_dec 0 y1) as [H1 | H1].
    - assert (H2 : 0 < y2) by Lra.nra.
      rewrite (arctan2_upper _ _ H1), (arctan2_upper _ _ H2). Lra.lra.
    - assert (H1' : y1 < 0) by Lra.lra. assert (H2 : y2 < 0) by Lra.nra.
      rewrite (arctan2_lower _ _ H1'), (arctan2_lower _ _ H2). Lra.lra. }
  split; intros C.
  - assert (x2 / y2 < x1 / y1).
    { apply fraction_lt; [Lra.lra | Lra.lra]. }
    pose proof (atan_increasing _ _ H). Lra.lra.
  - assert (E : x2 / y2 = x1 / y1) by (apply fraction_eq; trivial; Lra.lra).
    rewrite E in V. Lra.lra.
Qed.

End Arctan2.

Lemma Q2R_pos q : 0 < q -> (0 < Q2R q)%R.
Proof. intros H. apply Qlt_Rlt in H. now rewrite RMicromega.Q2R_0 in H. Qed.

Lemma Q2R_neg q : q < 0 -> (Q2R q < 0)%R.
Proof. intros H. apply Qlt_Rlt in H. now rewrite RMicromega.Q2R_0 in H. Qed.

Lemma Q2R_zero q : q == 0 -> Q2R q = 0%R.
Proof. intros H. apply Qeq_eqR in H. now rewrite RMicromega.Q2R_0 in H. Qed.

Lemma Q2R_det a b :
  Q2R (ang_x a * ang_y b - ang_y a * ang_x b)
  = (Q2R (ang_x a) * Q2R (ang_y b) - Q2R (ang_y a) * Q2R (ang_x b))%R.
Proof. now rewrite Q2R_minus, !Q2R_mult. Qed.

(** What the sector says on the value of the angle. *)
Lemma sector_value a :
  match sector a with
  | 0%Z => ang_y a < 0 /\ (- PI < angle_value a < 0)%R
  | 1%Z => ang_y a == 0 /\ angle_value a = 0%R
  | 2%Z => 0 < ang_y a /\ (0 < angle_value a < PI)%R
  | 3%Z => ang_y a == 0 /\ angle_value a = PI
  | _ => False
  end.
Proof.
  unfold sector, angle_value.
  destruct (Qltb (ang_y a) 0) eqn:A; [apply Qltb_lt in A | apply Qltb_ge in A].
  - split; trivial. apply arctan2_lower_range. now apply Q2R_neg.
  - destruct (Qltb 0 (ang_y a)) eqn:B; [apply Qltb_lt in B | apply Qltb_ge in B].
    + split; trivial. apply arctan2_upper_range. now apply Q2R_pos.
    + assert (E : ang_y a == 0) by lra.
      rewrite (Q2R_zero _ E), arctan2_flat.
      destruct (Qltb (ang_x a) 0) eqn:C; [apply Qltb_lt in C | apply Qltb_ge in C].
      * split; trivial. apply Q2R_neg in C.
        destruct (Rlt_dec (Q2R (ang_x a)) 0); [reflexivity | contradiction].
      * split; trivial. apply Qle_Rle in C. rewrite RMicromega.Q2R_0 in C.
        destruct (Rlt_dec (Q2R (ang_x a)) 0); [Lra.lra | reflexivity].
Qed.

(** [angle_compare] is the comparison of the real numbers
    [arctan2(y, x)]. *)
Lemma angle_compare_arctan2 a b :
  match angle_compare a b with
  | Lt => (angle_value a < angle_value b)%R
  | Eq => angle_value a = angle_value b
  | Gt => (angle_value b < angle_value a)%R
  end.
Proof.
  pose proof (sector_value a) as Sa. pose proof (sector_value b) as Sb.
  pose proof PI_RGT_0 as Pi.
  unfold angle_compare.
  destruct (sector a) as [| [[| |] | [| |] |] |] eqn:Ea; try contradiction;
  destruct (sector b) as [| [[| |] | [| |] |] |] eqn:Eb; try contradiction;
  destruct Sa as [Ya Va], Sb as [Yb Vb]; cbn [Z.compare Pos.compare Pos.compare_cont];
  try Lra.lra.
  all: pose proof (Q2R_det a b) as D.
  all: try (assert (C : ang_x a * ang_y b - ang_y a * ang_x b == 0) by nra;
            apply Qeq_sym, Qeq_alt in C; rewrite C; Lra.lra).
  all: assert (P : (0 < Q2R (ang_y a) * Q2R (ang_y b))%R)
         by (first [ apply Rmult_lt_0_compat; now apply Q2R_pos
                   | apply Q2R_neg in Ya, Yb; Lra.nra ]).
  all: destruct (arctan2_same_side _ (Q2R (ang_x a)) _ (Q2R (ang_x b)) P) as [L1 L2];
       pose proof (proj1 (arctan2_same_side (Q2R (ang_y b)) (Q2R (ang_x b))
                     (Q2R (ang_y a)) (Q2R (ang_x a)) ltac:(Lra.lra))) as L3.
  all: destruct (0 ?= ang_x a * ang_y b - ang_y a * ang_x b) eqn:C;
       [ apply Qeq_alt, Qeq_eqR in C | apply Qlt_alt, Qlt_Rlt in C
       | apply Qgt_alt, Qlt_Rlt in C ];
       rewrite D, RMicromega.Q2R_0 in C.
  all: first [ now apply L2 | now apply L1 | apply L3; Lra.lra ].
Qed.


(** ** Determinants and the sorting key *)

Lemma Qcompare_Lt a b : (a ?= b) = Lt <-> a < b.
Proof. symmetry. apply Qlt_alt. Qed.

Lemma Qcompare_Eq a b : (a ?= b) = Eq <-> a == b.
Proof. symmetry. apply Qeq_alt. Qed.

Lemma Qcompare_Gt a b : (a ?= b) = Gt <-> b < a.
Proof. symmetry. apply Qgt_alt. Qed.

Lemma cross_product_det p q r : cross_product p q r == det p q r.
Proof. unfold cross_product, det. ring. Qed.

Lemma det_shift o p q r : det p q r == det o p q + det o q r - det o p r.
Proof. unfold det. ring. Qed.

Lemma det_swap o p q : det o q p == - det o p q.
Proof. unfold det. ring. Qed.

Lemma orientation_ccw p q r :
  orientation p q r = CounterClockwise <-> 0 < det p q r.
Proof.
  destruct (orientation_spec p q r) as (_ & H2 & _).
  pose proof (cross_product_val p q r) as V.
  pose proof (cross_product_det p q r) as D.
  rewrite H2. split; lra.
Qed.

Lemma not_ccw p q r :
  negb (turn_eqb (orientation p q r) CounterClockwise) = true <->
  det p q r <= 0.
Proof.
  pose proof (orientation_ccw p q r) as H.
  destruct (orientation p q r); simpl; split; intros K; trivial; try discriminate.
  - destruct (Qlt_le_dec 0 (det p q r)) as [L | L]; trivial.
    apply H in L. discriminate.
  - destruct (Qlt_le_dec 0 (det p q r)) as [L | L]; trivial.
    apply H in L. discriminate.
  - assert (0 < det p q r) by now apply H. lra.
Qed.

Section AroundPivot.
Variable o : point.

(** A vector in the half plane on the right of the pivot, the upper
    half of the vertical line included. *)
Let right (x y : Q) : Prop := 0 < x \/ (x == 0 /\ 0 < y).

Lemma above_right p :
  lex_lt o p -> right (px p - px o) (py p - py o).
Proof. unfold lex_lt, right. intros [H | [H1 H2]]; [left | right]; lra. Qed.

Lemma angle_compare_right x1 y1 x2 y2 :
  right x1 y1 -> right x2 y2 ->
  angle_compare (Arctan2 y1 x1) (Arctan2 y2 x2) = (0 ?= x1 * y2 - y1 * x2).
Proof.
  unfold right, angle_compare, sector. cbn [ang_x ang_y]. intros H1 H2.
  destruct (Qltb y1 0) eqn:A1; [apply Qltb_lt in A1 | apply Qltb_ge in A1];
  destruct (Qltb y2 0) eqn:A2; [apply Qltb_lt in A2 | apply Qltb_ge in A2 | apply Qltb_lt in A2 | apply Qltb_ge in A2];
  try (destruct (Qltb 0 y1) eqn:B1; [apply Qltb_lt in B1 | apply Qltb_ge in B1]);
  try (destruct (Qltb 0 y2) eqn:B2; [apply Qltb_lt in B2 | apply Qltb_ge in B2]);
  try (destruct (Qltb x1 0) eqn:C1; [apply Qltb_lt in C1 | apply Qltb_ge in C1]);
  try (destruct (Qltb x2 0) eqn:C2; [apply Qltb_lt in C2 | apply Qltb_ge in C2]);
  cbn [Z.compare Pos.compare Pos.compare_cont];
  try reflexivity;
  try (exfalso; destruct H1 as [H1 | [H1 H1']], H2 as [H2 | [H2 H2']]; lra);
  symmetry;
  first [ apply Qcompare_Lt; destruct H1 as [H1 | [H1 H1']], H2 as [H2 | [H2 H2']]; nra
        | apply Qcompare_Gt; destruct H1 as [H1 | [H1 H1']], H2 as [H2 | [H2 H2']]; nra
        | apply Qcompare_Eq; destruct H1 as [H1 | [H1 H1']], H2 as [H2 | [H2 H2']]; nra ].
Qed.

Lemma key_ltb_before p q :
  lex_lt o p -> lex_lt o q ->
  key_ltb (sort_key o q) (sort_key o p) = false <-> before o p q.
Proof.
  intros Hp Hq. unfold key_ltb, sort_key, key_compare, before.
  rewrite (angle_compare_right _ _ _ _ (above_right q Hq) (above_right p Hp)).
  fold (det o q p). pose proof (det_swap o p q) as S.
  destruct (0 ?= det o q p) eqn:C;
    [apply -> Qcompare_Eq in C | apply -> Qcompare_Lt in C | apply -> Qcompare_Gt in C].
  - destruct (px q ?= px p) eqn:X;
      [apply -> Qcompare_Eq in X | apply -> Qcompare_Lt in X | apply -> Qcompare_Gt in X].
    + destruct (py q ?= py p) eqn:Y;
        [apply -> Qcompare_Eq in Y | apply -> Qcompare_Lt in Y | apply -> Qcompare_Gt in Y];
        unfold lex_le; split; intros H; trivial; try discriminate.
      * right. split; [lra | right; split; lra].
      * exfalso. destruct H as [H | [_ [H | [_ H]]]]; lra.
      * right. split; [lra | right; split; lra].
    + unfold lex_le; split; intros H; try discriminate.
      exfalso. destruct H as [H | [_ [H | [H _]]]]; lra.
    + unfold lex_le; split; intros H; trivial.
      right. split; [lra | left; lra].
  - split; intros H; try discriminate. exfalso. destruct H as [H | [H _]]; lra.
  - split; intros H; trivial. left. lra.
Qed.

(** The determinants of three vectors of the right half plane. *)
Lemma det_trans a1 a2 b1 b2 c1 c2 :
  right a1 a2 -> right b1 b2 -> right c1 c2 ->
  0 <= a1 * b2 - a2 * b1 -> 0 <= b1 * c2 - b2 * c1 ->
  0 <= a1 * c2 - a2 * c1 /\
  (0 < a1 * b2 - a2 * b1 \/ 0 < b1 * c2 - b2 * c1 -> 0 < a1 * c2 - a2 * c1).
Proof.
  unfold right. intros Ha Hb Hc Hab Hbc.
  assert (I : b1 * (a1 * c2 - a2 * c1)
              == a1 * (b1 * c2 - b2 * c1) + c1 * (a1 * b2 - a2 * b1)) by ring.
  destruct Hb as [Hb | [Hb Hb']].
  - assert (A1 : 0 <= a1) by (destruct Ha as [? | [? _]]; lra).
    assert (C1 : 0 <= c1) by (destruct Hc as [? | [? _]]; lra).
    split.
    + apply Qnot_lt_le. intros N. nra.
    + intros S. apply Qnot_le_lt. intros N.
      assert (Z1 : a1 * (b1 * c2 - b2 * c1) == 0) by nra.
      assert (Z2 : c1 * (a1 * b2 - a2 * b1) == 0) by nra.
      destruct Ha as [Ha | [Ha Ha']], Hc as [Hc | [Hc Hc']], S as [S | S]; nra.
  - assert (C1 : c1 == 0) by (destruct Hc as [? | [? _]]; nra).
    assert (C2 : 0 < c2) by (destruct Hc as [? | [_ ?]]; [lra | trivial]).
    assert (A1 : 0 <= a1) by (destruct Ha as [? | [? _]]; lra).
    split; [nra |].
    intros S. destruct Ha as [Ha | [Ha Ha']]; [nra |].
    destruct S as [S | S]; nra.
Qed.

Lemma det_order p q r :
  lex_lt o p -> lex_lt o q -> lex_lt o r ->
  0 <= det o p q -> 0 <= det o q r ->
  0 <= det o p r /\ (0 < det o p q \/ 0 < det o q r -> 0 < det o p r).
Proof.
  intros Hp Hq Hr. unfold det.
  apply det_trans; now apply above_right.
Qed.

Lemma before_det p q : before o p q -> 0 <= det o p q.
Proof. intros [H | [H _]]; lra. Qed.

Lemma before_trans p q r :
  lex_lt o p -> lex_lt o q -> lex_lt o r ->
  before o p q -> before o q r -> before o p r.
Proof.
  intros Hp Hq Hr Hpq Hqr.
  destruct (det_order p q r Hp Hq Hr (before_det _ _ Hpq) (before_det _ _ Hqr))
    as [H0 H1].
  destruct Hpq as [Hpq | [Hpq Lpq]]; [left; auto |].
  destruct Hqr as [Hqr | [Hqr Lqr]]; [left; auto |].
  right. split; [| eapply lex_le_trans; eassumption].
  pose proof (det_swap o p q) as S1. pose proof (det_swap o q r) as S2.
  pose proof (det_swap o p r) as S3.
  destruct (det_order r q p Hr Hq Hp) as [H2 _]; lra.
Qed.

Lemma lex_le_total p q : lex_le p q \/ lex_le q p.
Proof.
  unfold lex_le.
  destruct (Q_dec (px p) (px q)) as [[H | H] | H]; [left; left | right; left |]; trivial.
  destruct (Qlt_le_dec (py q) (py p)); [right | left]; right; split; lra.
Qed.

Lemma before_total p q : before o p q \/ before o q p.
Proof.
  unfold before. pose proof (det_swap o p q).
  destruct (Q_dec 0 (det o p q)) as [[H0 | H0] | H0].
  - left. left. trivial.
  - right. left. lra.
  - destruct (lex_le_total p q); [left | right]; right; split; trivial; lra.
Qed.

(** *** [sorted] *)

Lemma insert_sorted_In x y : forall l,
  In y (insert_sorted o x l) <-> y = x \/ In y l.
Proof.
  induction l as [| z l IH]; simpl.
  - intuition congruence.
  - destruct (key_ltb _ _); simpl; [rewrite IH |]; intuition congruence.
Qed.

Lemma sorted_In y : forall l, In y (sorted o l) <-> In y l.
Proof.
  induction l as [| x l IH]; simpl; [tauto |].
  rewrite insert_sorted_In, IH. intuition congruence.
Qed.

Lemma insert_sorted_sorted x : forall l,
  lex_lt o x -> Forall (lex_lt o) l ->
  StronglySorted (before o) l ->
  StronglySorted (before o) (insert_sorted o x l).
Proof.
  induction l as [| y l IH]; intros Hx Hl Hs; simpl.
  - repeat constructor.
  - inversion Hl as [| ? ? Hy Hl']; subst.
    inversion Hs as [| ? ? Hs' Hy']; subst.
    destruct (key_ltb (sort_key o y) (sort_key o x)) eqn:K.
    + constructor; [now apply IH |].
      apply Forall_forall. intros z Hz. apply -> insert_sorted_In in Hz.
      destruct Hz as [-> | Hz].
      * destruct (before_total y x) as [B | B]; trivial.
        apply key_ltb_before in B; trivial. congruence.
      * rewrite Forall_forall in Hy'. auto.
    + apply key_ltb_before in K; trivial.
      constructor; [assumption |]. constructor; [assumption |].
      rewrite Forall_forall in Hy', Hl' |- *. intros z Hz.
      apply before_trans with y; auto.
Qed.

Lemma sorted_sorted : forall l,
  Forall (lex_lt o) l -> StronglySorted (before o) (sorted o l).
Proof.
  induction l as [| x l IH]; intros Hl; simpl; [constructor |].
  inversion Hl as [| ? ? Hx Hl']; subst.
  apply insert_sorted_sorted; [assumption | | now apply IH].
  apply Forall_forall. intros z Hz. apply -> sorted_In in Hz.
  rewrite Forall_forall in Hl'. auto.
Qed.

(** A list that is in order already is left as it is. *)
Lemma sorted_fixed : forall l,
  Forall (lex_lt o) l -> StronglySorted (before o) l -> sorted o l = l.
Proof.
  induction l as [| x l IH]; intros Hl Hs; simpl; trivial.
  inversion Hl as [| ? ? Hx Hl']; subst.
  inversion Hs as [| ? ? Hs' Hx']; subst.
  rewrite IH by assumption.
  destruct l as [| y l]; simpl; trivial.
  inversion Hl'; subst. inversion Hx'; subst.
  assert (K : key_ltb (sort_key o y) (sort_key o x) = false)
    by now apply key_ltb_before.
  now rewrite K.
Qed.

End AroundPivot.

(** ** The convex hull of a list of points *)

Lemma point_eq_refl p : point_eq p p.
Proof. split; reflexivity. Qed.

Lemma point_eq_trans p q r : point_eq p q -> point_eq q r -> point_eq p r.
Proof. intros [H1 H2] [K1 K2]. split; lra. Qed.

Lemma in_hull_In V v : In v V -> in_hull V v.
Proof. intros H. apply in_hull_vertex with v; [assumption | apply point_eq_refl]. Qed.

Lemma in_hull_eq V a b : in_hull V a -> point_eq a b -> in_hull V b.
Proof.
  intros H [E1 E2]. destruct H as [v a Hv Ha | a1 a2 t a H1 H2 Ht Hx Hy].
  - apply in_hull_vertex with v; trivial.
    apply point_eq_trans with a; [assumption | now split].
  - apply in_hull_segment with a1 a2 t; trivial; lra.
Qed.

(** If the points of [V] are in the hull of [W], so is the hull of [V]. *)
Lemma in_hull_incl V W q :
  (forall v, In v V -> in_hull W v) -> in_hull V q -> in_hull W q.
Proof.
  intros H K. induction K as [v q Hv Hq | a b t q _ IHa _ IHb Ht Hx Hy].
  - apply in_hull_eq with v; auto.
  - apply in_hull_segment with a b t; trivial.
Qed.

Lemma in_hull_mono V W q : incl V W -> in_hull V q -> in_hull W q.
Proof.
  intros H. apply in_hull_incl. intros v Hv. apply in_hull_In, H, Hv.
Qed.

(** The hull of [V] lies in every half plane that contains [V]. *)
Lemma in_hull_half_plane V a b q :
  (forall v, In v V -> left_or_on a b v) ->
  in_hull V q -> left_or_on a b q.
Proof.
  unfold left_or_on. intros H K.
  induction K as [v q Hv [E1 E2] | c d t q _ IHc _ IHd Ht Hx Hy].
  - specialize (H v Hv). unfold det in *. rewrite <- E1, <- E2. exact H.
  - unfold det in *. rewrite Hx, Hy.
    set (A := (px b - px a) * (py c - py a) - (py b - py a) * (px c - px a)) in *.
    set (B := (px b - px a) * (py d - py a) - (py b - py a) * (px d - px a)) in *.
    assert (E : (px b - px a) * (t * py c + (1 - t) * py d - py a)
                - (py b - py a) * (t * px c + (1 - t) * px d - px a)
                == t * A + (1 - t) * B) by (unfold A, B; ring).
    rewrite E.
    assert (0 <= t * A) by (apply Qmult_le_0_compat; lra).
    assert (0 <= (1 - t) * B) by (apply Qmult_le_0_compat; lra).
    lra.
Qed.

(** A point between two points on a line is in their hull. *)
Lemma between_1d (xp xq xr yp yq yr : Q) :
  xp <= xq -> xq <= xr -> xp < xr ->
  (xq - xp) * (yr - yp) == (yq - yp) * (xr - xp) ->
  exists t, 0 <= t <= 1 /\
    xq == t * xp + (1 - t) * xr /\ yq == t * yp + (1 - t) * yr.
Proof.
  intros H1 H2 H3 C. exists ((xr - xq) / (xr - xp)).
  assert (D : ~ xr - xp == 0) by lra.
  set (t := (xr - xq) / (xr - xp)).
  assert (T : t * (xr - xp) == xr - xq) by (unfold t; field; exact D).
  split; [| split].
  - split.
    + apply Qnot_lt_le. intros N. nra.
    + apply Qnot_lt_le. intros N. nra.
  - lra.
  - assert (E : (xr - xp) * (yq - (t * yp + (1 - t) * yr)) == 0) by nra.
    apply Qmult_integral in E. destruct E as [E | E]; [tauto | lra].
Qed.

Lemma segment_point p q r :
  det p q r == 0 -> lex_le p q -> lex_le q r -> in_hull [p; r] q.
Proof.
  unfold det, lex_le. intros C Hpq Hqr.
  assert (X1 : px p <= px q) by (destruct Hpq as [? | [? _]]; lra).
  assert (X2 : px q <= px r) by (destruct Hqr as [? | [? _]]; lra).
  destruct (Qlt_le_dec (px p) (px r)) as [X | X].
  - destruct (between_1d (px p) (px q) (px r) (py p) (py q) (py r))
      as (t & Ht & Ex & Ey); trivial; [lra |].
    apply in_hull_segment with p r t; trivial; apply in_hull_In; simpl; auto.
  - assert (Y1 : py p <= py q) by (destruct Hpq as [? | [_ ?]]; lra).
    assert (Y2 : py q <= py r) by (destruct Hqr as [? | [_ ?]]; lra).
    destruct (Qlt_le_dec (py p) (py r)) as [Y | Y].
    + destruct (between_1d (py p) (py q) (py r) (px p) (px q) (px r))
        as (t & Ht & Ey & Ex); trivial; [lra |].
      apply in_hull_segment with p r t; trivial; apply in_hull_In; simpl; auto.
    + apply in_hull_vertex with p; [simpl; auto | split; lra].
Qed.

(** A point of the triangle [o p r], given by its three areas. *)
Lemma triangle_point o p q r :
  0 < det o p r -> 0 <= det o p q -> 0 <= det o q r -> det p q r <= 0 ->
  in_hull [o; p; r] q.
Proof.
  intros D A C T. rewrite (det_shift o) in T.
  set (a := det o q r) in *. set (c := det o p q) in *. set (d := det o p r) in *.
  assert (Ix : d * (px q - px o) == a * (px p - px o) + c * (px r - px o))
    by (unfold a, c, d, det; ring).
  assert (Iy : d * (py q - py o) == a * (py p - py o) + c * (py r - py o))
    by (unfold a, c, d, det; ring).
  destruct (Qlt_le_dec 0 (a + c)) as [S | S].
  - set (m := (px o + (a * (px p - px o) + c * (px r - px o)) / (a + c),
               py o + (a * (py p - py o) + c * (py r - py o)) / (a + c)) : point).
    assert (N : ~ a + c == 0) by lra.
    assert (Nd : ~ d == 0) by lra.
    assert (Hm : in_hull [o; p; r] m).
    { apply in_hull_segment with p r (a / (a + c)).
      - apply in_hull_In. simpl. auto.
      - apply in_hull_In. simpl. auto.
      - split.
        + apply Qle_shift_div_l; lra.
        + apply Qle_shift_div_r; lra.
      - unfold m, px. cbn [fst]. field. exact N.
      - unfold m, py. cbn [snd]. field. exact N. }
    apply in_hull_segment with m o ((a + c) / d); trivial.
    + apply in_hull_In. simpl. auto.
    + split.
      * apply Qle_shift_div_l; lra.
      * apply Qle_shift_div_r; lra.
    + unfold m, px at 2. cbn [fst].
      assert (E : (a + c) / d * (px o + (a * (px p - px o) + c * (px r - px o)) / (a + c))
                  + (1 - (a + c) / d) * px o
                  == px o + (a * (px p - px o) + c * (px r - px o)) / d)
        by (field; split; assumption).
      rewrite E, <- Ix. field. exact Nd.
    + unfold m, py at 2. cbn [snd].
      assert (E : (a + c) / d * (py o + (a * (py p - py o) + c * (py r - py o)) / (a + c))
                  + (1 - (a + c) / d) * py o
                  == py o + (a * (py p - py o) + c * (py r - py o)) / d)
        by (field; split; assumption).
      rewrite E, <- Iy. field. exact Nd.
  - assert (a == 0) by lra. assert (c == 0) by lra.
    apply in_hull_vertex with o; [simpl; auto |].
    assert (Ex : d * (px q - px o) == 0) by (rewrite Ix; nra).
    assert (Ey : d * (py q - py o) == 0) by (rewrite Iy; nra).
    apply Qmult_integral in Ex, Ey.
    split; [destruct Ex | destruct Ey]; lra.
Qed.

(** ** Pairs and triples of a list *)

Lemma pair_in_cons x l a b :
  pair_in (x :: l) a b <-> (x = a /\ In b l) \/ pair_in l a b.
Proof.
  unfold pair_in. split.
  - intros (l1 & l2 & l3 & E). destruct l1 as [| y l1]; simpl in E.
    + injection E as -> ->. left. split; trivial.
      apply in_or_app. right. now left.
    + injection E as -> ->. right. now exists l1, l2, l3.
  - intros [[-> H] | (l1 & l2 & l3 & ->)].
    + apply in_split in H. destruct H as (l2 & l3 & ->). now exists [], l2, l3.
    + now exists (x :: l1), l2, l3.
Qed.

Lemma triple_in_cons x l a b c :
  triple_in (x :: l) a b c <-> (x = a /\ pair_in l b c) \/ triple_in l a b c.
Proof.
  unfold triple_in, pair_in. split.
  - intros (l1 & l2 & l3 & l4 & E). destruct l1 as [| y l1]; simpl in E.
    + injection E as -> ->. left. split; trivial. now exists l2, l3, l4.
    + injection E as -> ->. right. now exists l1, l2, l3, l4.
  - intros [[-> (l2 & l3 & l4 & ->)] | (l1 & l2 & l3 & l4 & ->)].
    + now exists [], l2, l3, l4.
    + now exists (x :: l1), l2, l3, l4.
Qed.

Lemma pair_in_nil a b : ~ pair_in [] a b.
Proof. intros (l1 & l2 & l3 & E). destruct l1; discriminate. Qed.

Lemma pair_in_In l a b : pair_in l a b -> In a l /\ In b l.
Proof.
  intros (l1 & l2 & l3 & ->). split.
  - apply in_or_app. right. now left.
  - apply in_or_app. right. right. apply in_or_app. right. now left.
Qed.

Lemma pair_in_app_bottom l o a b :
  pair_in (l ++ [o]) a b <-> pair_in l a b \/ (In a l /\ b = o).
Proof.
  induction l as [| x l IH]; simpl.
  - split.
    + intros H. apply pair_in_cons in H. destruct H as [[_ []] | H].
      now apply pair_in_nil in H.
    + intros [H | [[] _]]. now apply pair_in_nil in H.
  - rewrite !pair_in_cons, IH, in_app_iff. simpl. intuition (subst; auto).
Qed.

Lemma triple_in_rev l a b c : triple_in (rev l) a b c <-> triple_in l c b a.
Proof.
  assert (H : forall l a b c, triple_in l c b a -> triple_in (rev l) a b c).
  { clear. intros l a b c (l1 & l2 & l3 & l4 & ->).
    exists (rev l4), (rev l3), (rev l2), (rev l1).
    repeat (rewrite rev_app_distr; simpl). now rewrite <- !app_assoc. }
  split; [| apply H]. intros K. apply H in K. now rewrite rev_involutive in K.
Qed.

(** ** Turns of points in angular order *)

(** The identity between the six determinants of four vectors. *)
Lemma det_four o a b c d :
  det o a b * det o c d - det o a c * det o b d + det o a d * det o b c == 0.
Proof. unfold det. ring. Qed.

(** After a left turn at [q] the angle has grown. *)
Lemma strict_turn o p q r :
  lex_lt o p -> lex_lt o q -> lex_lt o r ->
  0 < det o p q -> before o q r -> 0 < det p q r -> 0 < det o q r.
Proof.
  intros Hp Hq Hr Hpq [B | [B L]] T; trivial. exfalso.
  rewrite (det_shift o) in T.
  unfold det, lex_lt, lex_le in *.
  set (p1 := px p - px o) in *. set (p2 := py p - py o) in *.
  set (q1 := px q - px o) in *. set (q2 := py q - py o) in *.
  set (r1 := px r - px o) in *. set (r2 := py r - py o) in *.
  assert (P : 0 <= p1) by (destruct Hp as [? | [? _]]; unfold p1; lra).
  assert (Q1 : 0 < q1 \/ (q1 == 0 /\ 0 < q2))
    by (destruct Hq as [? | [? ?]]; unfold q1, q2; [left | right]; lra).
  assert (L' : q1 < r1 \/ (q1 == r1 /\ q2 <= r2))
    by (destruct L as [? | [? ?]]; unfold q1, q2, r1, r2; [left | right]; lra).
  assert (G : (p1 * r2 - p2 * r1) < (p1 * q2 - p2 * q1)) by lra.
  destruct Q1 as [Q1 | [Q1 Q2]].
  - assert (E : q1 * ((p1 * r2 - p2 * r1) - (p1 * q2 - p2 * q1))
                == (r1 - q1) * (p1 * q2 - p2 * q1)) by nra.
    assert (0 <= r1 - q1) by (destruct L' as [? | [? _]]; lra).
    nra.
  - assert (R1 : r1 == 0) by nra.
    assert (R2 : q2 <= r2) by (destruct L' as [? | [_ ?]]; lra).
    nra.
Qed.

Lemma ccw_extend_top o a p q r :
  0 < det o a q -> 0 < det o p q -> 0 < det o q r ->
  0 < det a p q -> 0 < det p q r -> 0 < det a q r.
Proof.
  intros Haq Hpq Hqr T1 T2.
  rewrite (det_shift o a p q) in T1. rewrite (det_shift o p q r) in T2.
  rewrite (det_shift o a q r).
  pose proof (det_four o a p q r) as I.
  set (ap := det o a p) in *. set (aq := det o a q) in *.
  set (ar := det o a r) in *. set (pq := det o p q) in *.
  set (pr := det o p r) in *. set (qr := det o q r) in *.
  assert (E : pq * (aq + qr - ar) == qr * (ap + pq - aq) + aq * (pq + qr - pr))
    by nra.
  assert (0 < qr * (ap + pq - aq)) by (apply Qmult_lt_0_compat; lra).
  assert (0 < aq * (pq + qr - pr)) by (apply Qmult_lt_0_compat; lra).
  apply Qnot_le_lt. intros N. nra.
Qed.

Lemma ccw_extend_mid o a b q r :
  0 < det o a b -> 0 < det o b q -> 0 < det o b r ->
  0 < det a b q -> 0 < det b q r -> 0 < det a b r.
Proof.
  intros Hab Hbq Hbr T1 T2.
  rewrite (det_shift o a b q) in T1. rewrite (det_shift o b q r) in T2.
  rewrite (det_shift o a b r).
  pose proof (det_four o a b q r) as I.
  set (ab := det o a b) in *. set (aq := det o a q) in *.
  set (ar := det o a r) in *. set (bq := det o b q) in *.
  set (br := det o b r) in *. set (qr := det o q r) in *.
  assert (E : bq * (ab + br - ar) == ab * (bq + qr - br) + br * (ab + bq - aq))
    by nra.
  assert (0 < ab * (bq + qr - br)) by (apply Qmult_lt_0_compat; lra).
  assert (0 < br * (ab + bq - aq)) by (apply Qmult_lt_0_compat; lra).
  apply Qnot_le_lt. intros N. nra.
Qed.

(** ** The invariant of the scan *)

Section Scan.
Variable o : point.

Lemma good_nil : good o [].
Proof.
  split.
  - intros s [].
  - intros b a H. now apply pair_in_nil in H.
  - intros c b a (l1 & l2 & l3 & l4 & E). destruct l1; discriminate.
Qed.

Lemma good_tail q above : good o (q :: above) -> good o above.
Proof.
  intros [D A C]. split.
  - intros s H. apply D. now right.
  - intros b a H. apply A, pair_in_cons. now right.
  - intros c b a H. apply C, triple_in_cons. now right.
Qed.

Lemma good_one q : lex_lt o q -> good o [q].
Proof.
  intros H. split.
  - intros s [<- | []]. exact H.
  - intros b a K. apply pair_in_cons in K. destruct K as [[_ []] | K].
    now apply pair_in_nil in K.
  - intros c b a K. apply triple_in_cons in K. destruct K as [[_ K] | K].
    + now apply pair_in_nil in K.
    + destruct K as (l1 & l2 & l3 & l4 & E). destruct l1; discriminate.
Qed.

(** The point that a pop removes is in the triangle of the pivot, the
    point below it and the point that comes. *)
Lemma popped_in_triangle p q r :
  lex_lt o p -> lex_lt o q -> lex_lt o r ->
  0 < det o p q -> before o q r -> det p q r <= 0 ->
  in_hull [o; p; r] q.
Proof.
  intros Hp Hq Hr Hpq Hqr T.
  pose proof (before_det _ _ _ Hqr) as Q.
  destruct (det_order o p q r Hp Hq Hr) as [_ S]; try lra.
  assert (0 < det o p r) by (apply S; now left).
  apply triangle_point; lra.
Qed.

Lemma popped_on_segment q r :
  lex_lt o q -> before o q r -> det o q r <= 0 -> in_hull [o; r] q.
Proof.
  intros Hq [B | [B L]] T; [lra |].
  apply segment_point; trivial. now apply lex_lt_le.
Qed.

Lemma pop_while_spec r : forall above,
  good o above -> lex_lt o r ->
  (forall s, In s above -> before o s r) ->
  exists popped kept,
    above = popped ++ kept /\
    pop_while (above ++ [o]) r = kept ++ [o] /\
    match kept with
    | [] => True
    | [q] => 0 < det o q r
    | q :: p :: _ => 0 < det p q r
    end /\
    forall x, In x above -> in_hull (r :: kept ++ [o]) x.
Proof.
  induction above as [| q above IH]; intros G Hr B.
  - exists [], []. repeat split; trivial. intros x [].
  - assert (Hq : lex_lt o q) by (apply (good_dom _ _ G); now left).
    assert (Bq : before o q r) by (apply B; now left).
    destruct (IH (good_tail _ _ G) Hr) as (popped & kept & E & P & S & C).
    { intros s Hs. apply B. now right. }
    simpl. destruct above as [| p above'].
    + simpl.
      destruct (negb (turn_eqb (orientation o q r) CounterClockwise)) eqn:T.
      * apply not_ccw in T. exists [q], []. repeat split; trivial.
        intros x [<- | []].
        apply in_hull_mono with [o; r];
          [| now apply popped_on_segment].
        intros v [<- | [<- | []]]; simpl; auto.
      * exists [], [q]. repeat split; trivial.
        -- destruct (Qlt_le_dec 0 (det o q r)) as [L | L]; trivial.
           apply not_ccw in L. congruence.
        -- intros x [<- | []]. apply in_hull_In. simpl. auto.
    + simpl.
      destruct (negb (turn_eqb (orientation p q r) CounterClockwise)) eqn:T.
      * apply not_ccw in T. exists (q :: popped), kept.
        split; [simpl; now rewrite <- E |]. split; [exact P |]. split; [exact S |].
        intros x [<- | Hx]; [| now apply C].
        assert (Hp : lex_lt o p) by (apply (good_dom _ _ G); right; now left).
        assert (Hpq : 0 < det o p q).
        { apply (good_ang _ _ G). apply pair_in_cons. left. split; trivial. now left. }
        apply in_hull_incl with [o; p; r];
          [| now apply popped_in_triangle].
        intros v [<- | [<- | [<- | []]]].
        -- apply in_hull_In. right. apply in_or_app. right. now left.
        -- apply C. now left.
        -- apply in_hull_In. now left.
      * exists [], (q :: p :: above'). repeat split; trivial.
        -- destruct (Qlt_le_dec 0 (det p q r)) as [L | L]; trivial.
           apply not_ccw in L. congruence.
        -- intros x Hx. apply in_hull_In. right. apply in_or_app. now left.
Qed.

Lemma good_suffix popped kept : good o (popped ++ kept) -> good o kept.
Proof.
  induction popped as [| x popped IH]; simpl; trivial.
  intros G. apply IH. eapply good_tail, G.
Qed.

Lemma good_push r kept :
  good o kept -> lex_lt o r ->
  (forall s, In s kept -> before o s r) ->
  match kept with
  | [] => True
  | [q] => 0 < det o q r
  | q :: p :: _ => 0 < det p q r
  end ->
  good o (r :: kept).
Proof.
  intros G Hr B S.
  assert (A0 : forall a, In a kept -> 0 < det o a r).
  { destruct kept as [| q [| p rest]].
    - intros a [].
    - intros a [<- | []]. exact S.
    - assert (Hq : lex_lt o q) by (apply (good_dom _ _ G); now left).
      assert (Hp : lex_lt o p) by (apply (good_dom _ _ G); right; now left).
      assert (Q : 0 < det o q r).
      { apply strict_turn with p; trivial.
        - apply (good_ang _ _ G), pair_in_cons. left. split; trivial. now left.
        - apply B. now left. }
      intros a [<- | Ha]; trivial.
      assert (Haq : 0 < det o a q).
      { apply (good_ang _ _ G), pair_in_cons. left. now split. }
      destruct (det_order o a q r) as [_ K]; trivial; try lra.
      apply (good_dom _ _ G). now right. }
  split.
  - intros s [<- | H]; trivial. now apply (good_dom _ _ G).
  - intros b a H. apply pair_in_cons in H. destruct H as [[<- H] | H].
    + now apply A0.
    + now apply (good_ang _ _ G).
  - intros c b a H. apply triple_in_cons in H. destruct H as [[<- H] | H];
      [| now apply (good_ccw _ _ G)].
    destruct kept as [| q [| p rest]].
    + now apply pair_in_nil in H.
    + apply pair_in_cons in H. destruct H as [[_ []] | H].
      now apply pair_in_nil in H.
    + assert (Q : 0 < det o q r) by (apply A0; now left).
      assert (B1 : forall x, In x (p :: rest) -> 0 < det x q r).
      { intros x [<- | Hx]; trivial.
        apply ccw_extend_top with o p; trivial.
        - apply (good_ang _ _ G), pair_in_cons. left. split; trivial. now right.
        - apply (good_ang _ _ G), pair_in_cons. left. split; trivial. now left.
        - apply (good_ccw _ _ G), triple_in_cons. left. split; trivial.
          apply pair_in_cons. left. now split. }
      apply pair_in_cons in H. destruct H as [[<- H] | H]; [now apply B1 |].
      pose proof (pair_in_In _ _ _ H) as [Hb Ha].
      apply ccw_extend_mid with o q.
      * apply (good_ang _ _ G), pair_in_cons. now right.
      * apply (good_ang _ _ G), pair_in_cons. left. now split.
      * apply A0. now right.
      * apply (good_ccw _ _ G), triple_in_cons. left. now split.
      * now apply B1.
Qed.

Lemma scan_spec : forall rest above,
  good o above ->
  Forall (lex_lt o) rest ->
  StronglySorted (before o) rest ->
  (forall s r, In s above -> In r rest -> before o s r) ->
  exists above',
    scan (above ++ [o]) rest = above' ++ [o] /\
    good o above' /\
    (forall s, In s above' -> In s above \/ In s rest) /\
    (forall x, In x above \/ In x rest -> in_hull (above' ++ [o]) x).
Proof.
  induction rest as [| r rest IH]; intros above G D S B.
  - exists above. split; [reflexivity |]. split; [exact G |].
    split; [intros s Hs; now left |].
    intros x [H | []]. apply in_hull_In, in_or_app. now left.
  - inversion D as [| ? ? Hr D']; subst.
    inversion S as [| ? ? S' Sr]; subst.
    destruct (pop_while_spec r above G Hr) as (popped & kept & E & P & T & C).
    { intros s Hs. apply B; trivial. now left. }
    assert (G' : good o (r :: kept)).
    { apply good_push; trivial.
      - apply good_suffix with popped. now rewrite <- E.
      - intros s Hs. apply B; [| now left].
        rewrite E. apply in_or_app. now right. }
    destruct (IH (r :: kept) G' D' S') as (above' & R & G'' & I & H).
    { intros s r' [<- | Hs] Hr'.
      - rewrite Forall_forall in Sr. now apply Sr.
      - apply B; [| now right]. rewrite E. apply in_or_app. now right. }
    exists above'. split; [| split; [| split]]; trivial.
    + unfold scan in *. simpl. unfold scan_step at 2. rewrite P. exact R.
    + intros s Hs. destruct (I s Hs) as [[<- | K] | K].
      * right. now left.
      * left. rewrite E. apply in_or_app. now right.
      * right. now right.
    + intros x [Hx | [<- | Hx]].
      * apply in_hull_incl with (r :: kept ++ [o]); [| now apply C].
        intros v [<- | Hv]; [apply H; left; now left |].
        apply in_app_or in Hv. destruct Hv as [Hv | [<- | []]].
        -- apply H. left. now right.
        -- apply in_hull_In, in_or_app. right. now left.
      * apply H. left. now left.
      * apply H. now right.
Qed.

End Scan.

(** ** The run of the hull function *)

Lemma lex_lt_of_le o p : lex_le o p -> ~ point_eq p o -> lex_lt o p.
Proof.
  unfold lex_le, lex_lt, point_eq. intros [H | [H1 H2]] N; [now left |].
  right. split; trivial.
  destruct (Qlt_le_dec (py o) (py p)) as [L | L]; trivial.
  exfalso. apply N. split; lra.
Qed.

Lemma lex_lt_not_eq o p : lex_lt o p -> ~ point_eq p o.
Proof. unfold lex_lt, point_eq. intros [H | [H1 H2]] [E1 E2]; lra. Qed.

Lemma point_eqb_false p q : point_eqb p q = false <-> ~ point_eq p q.
Proof.
  rewrite <- point_eqb_spec. destruct (point_eqb p q); split; congruence.
Qed.

Lemma triple_in_app_bottom l o a b c :
  triple_in (l ++ [o]) a b c <-> triple_in l a b c \/ (pair_in l a b /\ c = o).
Proof.
  induction l as [| x l IH]; simpl.
  - split.
    + intros H. apply triple_in_cons in H. destruct H as [[_ H] | H].
      * now apply pair_in_nil in H.
      * destruct H as (l1 & l2 & l3 & l4 & E). destruct l1; discriminate.
    + intros [H | [H _]].
      * destruct H as (l1 & l2 & l3 & l4 & E). destruct l1; discriminate.
      * now apply pair_in_nil in H.
  - rewrite !triple_in_cons, IH, pair_in_app_bottom, pair_in_cons.
    intuition (subst; auto).
Qed.

Lemma sorted_of_pairs (R : point -> point -> Prop) : forall l,
  (forall a b, pair_in l a b -> R a b) -> StronglySorted R l.
Proof.
  induction l as [| x l IH]; intros H; constructor.
  - apply IH. intros a b K. apply H, pair_in_cons. now right.
  - apply Forall_forall. intros y Hy. apply H, pair_in_cons. now left.
Qed.

Lemma pair_in_rev l a b : pair_in (rev l) a b <-> pair_in l b a.
Proof.
  assert (H : forall l a b, pair_in l b a -> pair_in (rev l) a b).
  { clear. intros l a b (l1 & l2 & l3 & ->).
    exists (rev l3), (rev l2), (rev l1).
    repeat (rewrite rev_app_distr; simpl). now rewrite <- !app_assoc. }
  split; [| apply H]. intros K. apply H in K. now rewrite rev_involutive in K.
Qed.

(** What the stack of a run that returns looks like. *)
Lemma hull_stack_spec points stack :
  hull_stack points = Ok stack ->
  exists o above,
    stack = above ++ [o] /\ above <> [] /\ good o above /\
    In o points /\
    (forall p, In p points -> lex_le o p) /\
    (forall s, In s above -> In s points) /\
    (forall q, In q points -> in_hull stack q).
Proof.
  unfold hull_stack. destruct (negb _); [discriminate |].
  destruct points as [| first others]; [discriminate |].
  set (points := first :: others). set (o := min_from first others).
  destruct (min_from_spec others first) as [Hin Hmin]. fold o points in Hin, Hmin.
  set (filtered := filter (fun p => negb (point_eqb p o)) points).
  assert (F : forall p, In p filtered -> In p points /\ lex_lt o p).
  { intros p Hp. apply filter_In in Hp. destruct Hp as [Hp E]. split; trivial.
    apply lex_lt_of_le; [now apply Hmin |].
    apply point_eqb_false. now destruct (point_eqb p o). }
  assert (D : Forall (lex_lt o) (sorted o filtered)).
  { apply Forall_forall. intros p Hp. apply -> sorted_In in Hp. now apply F. }
  assert (S : StronglySorted (before o) (sorted o filtered)).
  { apply sorted_sorted, Forall_forall. intros p Hp. now apply F. }
  assert (I : forall p, In p (sorted o filtered) <-> In p filtered)
    by (intros p; apply sorted_In).
  destruct (sorted o filtered) as [| p0 rest]; [discriminate |].
  intros [= <-].
  inversion D as [| ? ? Hp0 D']; subst.
  inversion S as [| ? ? S' Sp0]; subst.
  destruct (scan_spec o rest [p0]) as (above & R & G & V & H); trivial.
  { now apply good_one. }
  { intros s r [<- | []] Hr. rewrite Forall_forall in Sp0. now apply Sp0. }
  exists o, above. change ([p0; o]) with ([p0] ++ [o]). rewrite R.
  split; [reflexivity |]. split.
  { intros ->. pose proof (scan_length rest [p0; o]) as L.
    change ([p0; o]) with ([p0] ++ [o]) in L. rewrite R in L. simpl in L. lia. }
  split; [exact G |]. split; [exact Hin |]. split; [exact Hmin |]. split.
  - intros s Hs. apply F, I. destruct (V s Hs) as [[<- | []] | K]; [now left | now right].
  - intros q Hq. destruct (point_eqb q o) eqn:E.
    + apply point_eqb_spec in E. destruct E as [E1 E2].
      apply in_hull_vertex with o; [apply in_or_app; right; now left |].
      split; lra.
    + apply H. assert (K : In q (p0 :: rest)).
      { apply I, filter_In. split; trivial. now rewrite E. }
      destruct K as [<- | K]; [left; now left | now right].
Qed.

Lemma hull_stack_returns points :
  (3 <= length points)%nat ->
  (exists p q, In p points /\ In q points /\ ~ point_eq p q) ->
  exists stack, hull_stack points = Ok stack.
Proof.
  intros L (p & q & Hp & Hq & N). unfold hull_stack.
  destruct (3 <=? length points)%nat eqn:E; [| apply Nat.leb_gt in E; lia].
  cbn [negb]. destruct points as [| first others]; [destruct Hp |].
  set (points := first :: others) in *. set (o := min_from first others).
  assert (K : exists x, In x points /\ point_eqb x o = false).
  { destruct (point_eqb p o) eqn:E1; [| now exists p].
    destruct (point_eqb q o) eqn:E2; [| now exists q].
    exfalso. apply N. apply point_eqb_spec in E1, E2.
    destruct E1, E2. split; lra. }
  destruct K as (x & Hx & Ex).
  assert (I : In x (sorted o (filter (fun p => negb (point_eqb p o)) points))).
  { apply sorted_In, filter_In. split; trivial. now rewrite Ex. }
  destruct (sorted o _) as [| p0 rest]; [destruct I |].
  eexists. reflexivity.
Qed.

Lemma good_polygon o above :
  good o above -> counterclockwise_polygon (rev (above ++ [o])).
Proof.
  intros G a b c H. apply orientation_ccw.
  apply triple_in_rev, triple_in_app_bottom in H.
  destruct H as [H | [H ->]].
  - now apply (good_ccw _ _ G).
  - now apply (good_ang _ _ G).
Qed.

Lemma det_cycle a b c : det a b c == det b c a.
Proof. unfold det. ring. Qed.

Lemma det_flat a b : det a b a == 0 /\ det a b b == 0.
Proof. unfold det. split; ring. Qed.

Lemma sides_from_spec first a b : forall l,
  In (a, b) (sides_from first l) ->
  (exists l1 l2, l = l1 ++ a :: b :: l2) \/
  (exists l1, l = l1 ++ [a] /\ b = first).
Proof.
  induction l as [| x l IH]; simpl; [intros [] |].
  destruct l as [| y l].
  - intros [[= <- <-] | []]. right. now exists [].
  - intros [[= <- <-] | H].
    + left. now exists [], l.
    + destruct (IH H) as [(l1 & l2 & E) | (l1 & E & ->)].
      * left. exists (x :: l1), l2. simpl. now rewrite E.
      * right. exists (x :: l1). simpl. now rewrite E.
Qed.

(** The corners of a counterclockwise polygon are on the left of each of
    its sides, or on it. *)
Lemma polygon_corners_left hull a b v :
  counterclockwise_polygon hull ->
  In (a, b) (sides hull) -> In v hull -> left_or_on a b v.
Proof.
  unfold left_or_on. intros P S V.
  assert (P' : forall x y z, triple_in hull x y z -> 0 < det x y z)
    by (intros x y z H; now apply orientation_ccw, P).
  destruct hull as [| first hull']; [destruct V |].
  cbn [sides] in S. apply sides_from_spec in S.
  destruct (det_flat a b) as [F1 F2].
  destruct S as [(l1 & l2 & E) | (l1 & E & ->)].
  - rewrite E in V. apply in_app_or in V.
    destruct V as [V | [<- | [<- | V]]]; try lra.
    + apply in_split in V. destruct V as (l3 & l4 & ->).
      rewrite (det_cycle a b v), (det_cycle b v a).
      apply Qlt_le_weak, P'. rewrite E.
      exists l3, l4, [], l2. now rewrite <- app_assoc.
    + apply in_split in V. destruct V as (l3 & l4 & ->).
      apply Qlt_le_weak, P'. rewrite E.
      now exists l1, [], l3, l4.
  - destruct l1 as [| x l1]; simpl in E.
    + injection E as -> ->. destruct V as [<- | []]. lra.
    + injection E as -> ->. destruct V as [<- | V].
      * pose proof (det_flat a x) as [_ F3]. lra.
      * apply in_app_or in V. destruct V as [V | [<- | []]]; [| lra].
        apply in_split in V. destruct V as (l3 & l4 & ->).
        rewrite (det_cycle a x v).
        apply Qlt_le_weak, P'.
        exists [], l3, l4, []. simpl. now rewrite <- app_assoc.
Qed.

(** C3, as stated, fails: three equal points are a list of size 3, the
    list [sorted_points] is empty for them and [sorted_points[0]] raises
    an [IndexError]. *)
Lemma equal_points_have_no_hull :
  ~ (forall points : list point,
        (3 <= length points)%nat ->
        exists hull_x hull_y,
          convex_hull_graham_scan points = Ok (hull_x, hull_y) /\
          forall q, In q points -> in_hull (combine hull_x hull_y) q).
Proof.
  intros H.
  destruct (H [(0, 0); (0, 0); (0, 0)]) as (hull_x & hull_y & R & _).
  - simpl. lia.
  - vm_compute in R. discriminate.
Qed.

(** On exact numbers.  For at least three points that are not all equal,
    [convex_hull_graham_scan] returns a polygon such that every point of
    the input is in the convex hull of its corners, hence on the left of
    every side of the polygon or on it; the corners are points of the
    input and go around a strictly convex polygon counterclockwise. *)
Lemma hull_contains_points (points : list point) :
  (3 <= length points)%nat ->
  (exists p q, In p points /\ In q points /\ ~ point_eq p q) ->
  exists hull_x hull_y,
    convex_hull_graham_scan points = Ok (hull_x, hull_y) /\
    let hull := combine hull_x hull_y in
    (forall q, In q points -> in_hull hull q) /\
    (forall a b q,
        In (a, b) (sides hull) -> In q points -> left_or_on a b q) /\
    (forall v, In v hull -> In v points) /\
    counterclockwise_polygon hull.
Proof.
  intros L N.
  destruct (hull_stack_returns points L N) as [stack E].
  destruct (hull_stack_spec points stack E)
    as (o & above & -> & Na & G & Ho & Hmin & V & H).
  exists (map px (rev (above ++ [o]))), (map py (rev (above ++ [o]))).
  split.
  - unfold convex_hull_graham_scan. rewrite E. cbn [bind].
    destruct (2 <=? _)%nat eqn:B; [reflexivity |].
    exfalso. apply Nat.leb_gt in B.
    rewrite length_map, length_rev, length_app in B. simpl in B.
    destruct above; [congruence | simpl in B; lia].
  - cbv zeta. rewrite combine_px_py.
    assert (Hq : forall q, In q points -> in_hull (rev (above ++ [o])) q).
    { intros q Hq. apply in_hull_mono with (above ++ [o]); [| now apply H].
      intros v Hv. now apply -> in_rev. }
    assert (P : counterclockwise_polygon (rev (above ++ [o])))
      by now apply good_polygon.
    assert (Hv : forall v, In v (rev (above ++ [o])) -> In v points).
    { intros v Hv. apply in_rev, in_app_or in Hv.
      destruct Hv as [Hv | [<- | []]]; auto. }
    repeat split; trivial.
    intros a b q S Q. apply in_hull_half_plane with (rev (above ++ [o])); auto.
    intros v K. now apply polygon_corners_left with (rev (above ++ [o])).
Qed.

(** ** Running the hull function on a hull *)

Section Rerun.
Variable o : point.

Lemma min_from_fixed : forall rest,
  (forall x, In x rest -> lex_lt o x) -> min_from o rest = o.
Proof.
  unfold min_from. induction rest as [| x rest IH]; intros H; simpl; trivial.
  assert (E : point_ltb x o = false).
  { apply point_ltb_false, lex_lt_le, H. now left. }
  rewrite E. apply IH. intros y Hy. apply H. now right.
Qed.

Lemma filter_fixed : forall l,
  (forall x, In x l -> lex_lt o x) ->
  filter (fun p => negb (point_eqb p o)) l = l.
Proof.
  induction l as [| x l IH]; intros H; simpl; trivial.
  assert (E : point_eqb x o = false).
  { apply point_eqb_false, lex_lt_not_eq, H. now left. }
  rewrite E. simpl. f_equal. apply IH. intros y Hy. apply H. now right.
Qed.

Lemma pop_while_keep r q done :
  good o (r :: q :: done) ->
  pop_while (q :: done ++ [o]) r = q :: done ++ [o].
Proof.
  intros G. simpl. destruct done as [| p done]; simpl.
  - assert (T : orientation o q r = CounterClockwise).
    { apply orientation_ccw, (good_ang _ _ G), pair_in_cons.
      left. split; trivial. now left. }
    now rewrite T.
  - assert (T : orientation p q r = CounterClockwise).
    { apply orientation_ccw, (good_ccw _ _ G), triple_in_cons.
      left. split; trivial. apply pair_in_cons. left. split; trivial. now left. }
    now rewrite T.
Qed.

Lemma scan_fixed : forall rest q done,
  good o (rev rest ++ q :: done) ->
  scan (q :: done ++ [o]) rest = rev rest ++ q :: done ++ [o].
Proof.
  unfold scan. induction rest as [| r rest IH]; intros q done G; simpl; trivial.
  simpl in G. rewrite <- app_assoc in G. simpl in G.
  unfold scan_step at 2. rewrite pop_while_keep.
  - pose proof (IH r (q :: done) G) as K. simpl in K. rewrite K.
    now rewrite <- app_assoc.
  - now apply good_suffix with (rev rest).
Qed.

Lemma hull_stack_fixed above :
  good o above -> (2 <= length above)%nat ->
  hull_stack (rev (above ++ [o])) = Ok (above ++ [o]).
Proof.
  intros G L. rewrite rev_app_distr. simpl. unfold hull_stack.
  assert (D : forall x, In x (rev above) -> lex_lt o x).
  { intros x Hx. apply (good_dom _ _ G). now apply in_rev. }
  assert (E : (3 <=? length (o :: rev above))%nat = true).
  { apply Nat.leb_le. simpl. rewrite length_rev. lia. }
  rewrite E. cbn [negb]. rewrite (min_from_fixed _ D).
  cbn [filter]. assert (E0 : point_eqb o o = true)
    by (apply point_eqb_spec, point_eq_refl).
  rewrite E0. cbn [negb]. rewrite (filter_fixed _ D).
  rewrite sorted_fixed.
  - destruct (rev above) as [| p0 rest] eqn:R.
    + apply (f_equal (@length point)) in R. rewrite length_rev in R.
      simpl in R. lia.
    + assert (A : above = rev rest ++ [p0]).
      { rewrite <- (rev_involutive above), R. reflexivity. }
      pose proof (scan_fixed rest p0 []) as K. simpl in K. rewrite K.
      * now rewrite A, <- app_assoc.
      * now rewrite <- A.
  - apply Forall_forall, D.
  - apply sorted_of_pairs. intros a b H. left.
    apply (good_ang _ _ G), pair_in_rev, H.
Qed.

End Rerun.

(** C8, as stated, fails: the hull of three points on a line has two
    corners, and on two points the function fails its first [assert]. *)
Lemma hull_of_collinear_points_is_too_short :
  ~ (forall (points : list point) (hull_x hull_y : list Q),
        (3 <= length points)%nat ->
        convex_hull_graham_scan points = Ok (hull_x, hull_y) ->
        convex_hull_graham_scan (combine hull_x hull_y)
        = Ok (hull_x, hull_y)).
Proof.
  intros H.
  specialize (H [(0, 0); (1, 0); (2, 0)] [0; 2] [0; 0]).
  assert (R : convex_hull_graham_scan (combine [0; 2] [0; 0])
              = Raise AssertionError) by (vm_compute; reflexivity).
  rewrite H in R; [discriminate | simpl; lia | vm_compute; reflexivity].
Qed.

(** C8, amended.  When [convex_hull_graham_scan] returns a hull of at
    least three corners, running it on the points of this hull returns
    the same two lists of coordinates. *)
Theorem convex_hull_idempotent
    (points : list point) (hull_x hull_y : list Q) :
  convex_hull_graham_scan points = Ok (hull_x, hull_y) ->
  (3 <= length hull_x)%nat ->
  convex_hull_graham_scan (combine hull_x hull_y) = Ok (hull_x, hull_y).
Proof.
  unfold convex_hull_graham_scan at 1. intros H L.
  destruct (hull_stack points) as [stack | e] eqn:E; cbn [bind] in H;
    [| discriminate].
  destruct (negb _) in H; [discriminate |]. injection H as <- <-.
  rewrite combine_px_py.
  destruct (hull_stack_spec points stack E) as (o & above & -> & _ & G & _).
  rewrite length_map, length_rev, length_app in L. simpl in L.
  unfold convex_hull_graham_scan.
  rewrite hull_stack_fixed by (trivial; lia). cbn [bind].
  destruct (2 <=? _)%nat eqn:B; [reflexivity |].
  apply Nat.leb_gt in B.
  rewrite length_map, length_rev, length_app in B. simpl in B. lia.
Qed.

Lemma convex_hull_idempotent_witness :
  convex_hull_graham_scan (combine [0; 4; 4; 0] [0; 0; 4; 4])
  = Ok ([0; 4; 4; 0], [0; 0; 4; 4]).
Proof.
  apply (convex_hull_idempotent [(0, 0); (4, 0); (4, 4); (0, 4); (2, 2)]).
  - vm_compute. reflexivity.
  - simpl. lia.
Defined.

(** * Further properties of the solvers and of the hull *)

(** ** What the solver reports *)

Section Outcome.
Variable objective_value : Q.
Variable func_eval : Q -> Q.
Variable num_iters_max : Z.
Variable precision : Q.

Lemma loop_body_evaluates st st' :
  loop_body objective_value func_eval precision st = Next st' ->
  iteration_value st' = func_eval (value_calc st).
Proof.
  unfold loop_body.
  destruct (Qltb (Qabs _) precision); [discriminate |].
  destruct (Qltb _ 0); intros [= <-]; reflexivity.
Qed.

Lemma while_loop_outcome : forall fuel st,
  (num_iters_max - num_iter st <= Z.of_nat fuel)%Z ->
  match while_loop objective_value func_eval num_iters_max precision fuel st
  with
  | Ok (v, n) =>
      (n = num_iter st /\ v = value_calc st /\
       (Qabs (error st) <= precision \/ (num_iters_max <= num_iter st)%Z \/
        Qabs (objective_value - func_eval (value_calc st)) < precision)) \/
      (num_iter st < n < num_iters_max)%Z
  | Raise e =>
      (num_iter st < num_iters_max)%Z /\
      gave_up objective_value func_eval num_iters_max precision e
  end.
Proof.
  induction fuel as [| fuel IH]; intros st Hf.
  - cbn [while_loop].
    destruct (Qgtb (Qabs (error st)) precision && (num_iter st <? num_iters_max)%Z);
      left; repeat split; right; left; lia.
  - rewrite while_loop_S.
    destruct (Qgtb (Qabs (error st)) precision) eqn:G; cbn [andb].
    + destruct (num_iter st <? num_iters_max)%Z eqn:N.
      * apply Z.ltb_lt in N.
        destruct (loop_body_cases objective_value func_eval precision st)
          as [(st' & B & V & M & A) | (st' & B & A & E & M & F & V)]; rewrite B.
        -- left. repeat split; auto.
        -- pose proof (loop_body_evaluates _ _ B) as I.
           destruct (num_iter st' =? num_iters_max)%Z eqn:X.
           ++ apply Z.eqb_eq in X. split; [exact N |].
              exists (value_calc st'), (value_calc st), (increment st').
              rewrite X, I. repeat split; trivial.
           ++ apply Z.eqb_neq in X. specialize (IH st' ltac:(lia)).
              destruct (while_loop _ _ _ _ fuel st') as [[v n] | e].
              ** right. destruct IH as [(-> & _) | IH]; lia.
              ** split; [exact N | apply IH].
      * apply Z.ltb_ge in N. left. repeat split. right. left. exact N.
    + apply Qltb_ge in G. left. repeat split. left. exact G.
Qed.
End Outcome.


Lemma iter_solver_gave_up
    (initial_value objective_value : Q) (func_eval : Q -> Q)
    (initial_increment : Q) (num_iters_max : Z) (precision : Q)
    (e : solver_exception) :
  _iter_solver initial_value objective_value func_eval initial_increment
    num_iters_max precision = Raise e ->
  (1 <= num_iters_max)%Z /\
  gave_up objective_value func_eval num_iters_max precision e.
Proof.
  intros R.
  pose proof (while_loop_outcome objective_value func_eval num_iters_max
                precision (Z.to_nat num_iters_max)
                (initial_state objective_value func_eval initial_value
                   initial_increment)) as O.
  unfold _iter_solver in R. rewrite R in O.
  cbn [initial_state num_iter] in O.
  destruct O as [N G]; [lia |]. split; [lia | exact G].
Qed.


(** ** Functions that go the other way *)

Section Decreasing.
Variable objective_value : Q.
Variable func_eval : Q -> Q.
Variable num_iters_max : Z.
Variable precision : Q.

Hypothesis precision_nonneg : 0 <= precision.
Hypothesis decreasing_function :
  forall a b, a <= b -> func_eval b <= func_eval a.

Let cur (st : solver_state) : Q := objective_value - func_eval (value_calc st).

(** The value is too high and every step takes it higher, or it is too
    low and every step takes it lower. *)
Lemma walks_away : forall fuel st,
  (num_iters_max - num_iter st <= Z.of_nat fuel)%Z ->
  (num_iter st < num_iters_max)%Z ->
  (precision < error st /\ precision < cur st) \/
  (error st < - precision /\ cur st < - precision) ->
  exists e,
    while_loop objective_value func_eval num_iters_max precision fuel st
    = Raise e.
Proof.
  induction fuel as [| fuel IH]; intros st Hf Hn Hw; [lia |].
  rewrite while_loop_S.
  assert (G : Qgtb (Qabs (error st)) precision = true).
  { unfold Qgtb. apply Qltb_lt.
    destruct Hw as [[H _] | [H _]].
    - rewrite Qabs_pos; lra.
    - rewrite Qabs_neg; lra. }
  rewrite G. apply Z.ltb_lt in Hn. rewrite Hn. cbn [andb]. apply Z.ltb_lt in Hn.
  assert (P20 : 0 <= precision / 20)
    by (change (precision / 20) with (precision * (1 # 20)); lra).
  unfold loop_body. fold (cur st).
  assert (A : Qltb (Qabs (cur st)) precision = false).
  { apply Qltb_ge. destruct Hw as [[_ H] | [_ H]].
    - rewrite Qabs_pos; lra.
    - rewrite Qabs_neg; lra. }
  rewrite A.
  destruct Hw as [[H1 H2] | [H1 H2]].
  - assert (S : Qltb (cur st) 0 = false) by (apply Qltb_ge; lra).
    rewrite S. cbn [num_iter value_calc increment iteration_value].
    destruct (num_iter st + 1 =? num_iters_max)%Z eqn:X; [eauto |].
    apply Z.eqb_neq in X. apply IH; cbn [num_iter error value_calc]; try lia.
    left. split; [exact H2 |]. unfold cur. cbn [value_calc].
    set (s := Qmax (precision / 20)
                (if decreasing st then increment st / 2 else increment st)).
    assert (Hs : 0 <= s)
      by (apply Qle_trans with (precision / 20); [exact P20 | apply Q.le_max_l]).
    pose proof (decreasing_function (value_calc st) (value_calc st + s)
                  ltac:(lra)).
    unfold cur in H2. lra.
  - assert (S : Qltb (cur st) 0 = true) by (apply Qltb_lt; lra).
    rewrite S. cbn [num_iter value_calc increment iteration_value].
    destruct (num_iter st + 1 =? num_iters_max)%Z eqn:X; [eauto |].
    apply Z.eqb_neq in X. apply IH; cbn [num_iter error value_calc]; try lia.
    right. split; [exact H2 |]. unfold cur. cbn [value_calc].
    set (s := Qmax (precision / 20)
                (if negb (decreasing st) then increment st / 2
                 else increment st)).
    assert (Hs : 0 <= s)
      by (apply Qle_trans with (precision / 20); [exact P20 | apply Q.le_max_l]).
    pose proof (decreasing_function (value_calc st - s) (value_calc st)
                  ltac:(lra)).
    unfold cur in H2. lra.
Qed.
End Decreasing.

(** X3. The solver steps the way that suits an increasing function.  On
    a function that never goes up (a decreasing one, or a constant) every
    step takes the value further from the objective: unless the initial
    value is within the precision already, the solver uses up its
    iterations and raises. *)
Theorem iter_solver_fails_on_decreasing
    (initial_value objective_value : Q) (func_eval : Q -> Q)
    (initial_increment : Q) (num_iters_max : Z) (precision : Q) :
  (forall a b, a <= b -> func_eval b <= func_eval a) ->
  0 <= precision ->
  precision < Qabs (objective_value - func_eval initial_value) ->
  (1 <= num_iters_max)%Z ->
  exists e,
    _iter_solver initial_value objective_value func_eval initial_increment
      num_iters_max precision = Raise e.
Proof.
  intros D P E M. unfold _iter_solver.
  apply walks_away; trivial; cbn [initial_state num_iter error value_calc];
    try lia.
  destruct (Qlt_le_dec (objective_value - func_eval initial_value) 0) as [S | S].
  - right. rewrite Qabs_neg in E by lra. split; lra.
  - left. rewrite Qabs_pos in E by lra. split; lra.
Qed.



Lemma iter_solver_fails_on_decreasing_witness :
  exists e, _iter_solver 0 1 (fun v => - v) 4 NUM_ITERS_MAX (1 # 100) = Raise e.
Proof.
  apply (iter_solver_fails_on_decreasing 0 1 (fun v => - v) 4 NUM_ITERS_MAX
           (1 # 100)).
  - intros a b H. lra.
  - vm_compute. discriminate.
  - vm_compute. reflexivity.
  - vm_compute. discriminate.
Defined.

(** ** How far the solver goes *)

Section Reach.
Variable objective_value : Q.
Variable func_eval : Q -> Q.
Variable num_iters_max : Z.
Variable precision : Q.
Variable initial_value : Q.
Variable largest : Q.

Hypothesis precision_nonneg : 0 <= precision.
Hypothesis largest_floor : precision / 20 <= largest.

(** The steps are not larger than [largest], and the value is not more
    than [num_iter] such steps from the initial value. *)
Let near (st : solver_state) : Prop :=
  increment st <= largest /\
  Qabs (value_calc st - initial_value)
    <= inject_Z (num_iter st) * largest.

Lemma loop_body_near st st' :
  (0 <= num_iter st)%Z -> near st ->
  loop_body objective_value func_eval precision st = Next st' ->
  near st'.
Proof.
  unfold near. intros N0 [I V].
  assert (P20 : 0 <= precision / 20)
    by (change (precision / 20) with (precision * (1 # 20)); lra).
  assert (H2 : increment st / 2 <= largest).
  { change (increment st / 2) with (increment st * (1 # 2)).
    destruct (Qlt_le_dec (increment st) 0); lra. }
  assert (S1 : forall b : bool,
            Qmax (precision / 20)
              (if b then increment st / 2 else increment st) <= largest).
  { intros b. apply Q.max_lub; [exact largest_floor |]. now destruct b. }
  assert (S0 : forall b : bool,
            0 <= Qmax (precision / 20)
                   (if b then increment st / 2 else increment st)).
  { intros b. apply Qle_trans with (precision / 20);
      [exact P20 | apply Q.le_max_l]. }
  assert (J : inject_Z (num_iter st + 1) == inject_Z (num_iter st) + 1)
    by (rewrite inject_Z_plus; reflexivity).
  apply Qabs_Qle_condition in V.
  unfold loop_body.
  destruct (Qltb (Qabs _) precision); [discriminate |].
  destruct (Qltb _ 0); intros [= <-]; cbn [increment value_calc num_iter].
  - specialize (S1 (negb (decreasing st))).
    specialize (S0 (negb (decreasing st))).
    split; [exact S1 |]. apply Qabs_Qle_condition. rewrite J. split; nra.
  - specialize (S1 (decreasing st)). specialize (S0 (decreasing st)).
    split; [exact S1 |]. apply Qabs_Qle_condition. rewrite J. split; nra.
Qed.

Lemma while_loop_near : forall fuel st v n,
  (0 <= num_iter st)%Z -> near st ->
  while_loop objective_value func_eval num_iters_max precision fuel st
  = Ok (v, n) ->
  Qabs (v - initial_value) <= inject_Z n * largest.
Proof.
  induction fuel as [| fuel IH]; intros st v n N0 Hn.
  - cbn [while_loop].
    destruct (Qgtb (Qabs (error st)) precision && (num_iter st <? num_iters_max)%Z);
      intros [= <- <-]; apply Hn.
  - rewrite while_loop_S.
    destruct (Qgtb (Qabs (error st)) precision && (num_iter st <? num_iters_max)%Z);
      [| intros [= <- <-]; apply Hn].
    destruct (loop_body_cases objective_value func_eval precision st)
      as [(st' & B & V & M & A) | (st' & B & A & E & M & F & V)]; rewrite B.
    + intros [= <- <-]. rewrite V, M. apply Hn.
    + destruct (num_iter st' =? num_iters_max)%Z; [discriminate |].
      apply IH; [lia |]. now apply (loop_body_near st).
Qed.
End Reach.

(** On exact numbers the steps do not grow: none is larger than
    [max(precision / 20, initial_increment)].  A value returned after
    [n] iterations is therefore not further than [n] such steps from the
    initial value. *)
Lemma solver_reach
    (initial_value objective_value : Q) (func_eval : Q -> Q)
    (initial_increment : Q) (num_iters_max : Z) (precision : Q)
    (v : Q) (n : Z) :
  0 <= precision ->
  _iter_solver initial_value objective_value func_eval initial_increment
    num_iters_max precision = Ok (v, n) ->
  Qabs (v - initial_value)
    <= inject_Z n * Qmax (precision / 20) initial_increment.
Proof.
  intros P R. unfold _iter_solver in R.
  apply (while_loop_near objective_value func_eval num_iters_max precision
           initial_value (Qmax (precision / 20) initial_increment) P
           (Q.le_max_l _ _) _ _ v n) in R; trivial.
  - cbn [initial_state num_iter]. lia.
  - cbn [initial_state increment value_calc num_iter]. split.
    + apply Q.le_max_r.
    + setoid_replace (initial_value - initial_value) with 0 by ring.
      vm_compute. discriminate.
Qed.

(** ** What the batch solver returns *)

Section BatchResult.
Variable TESTING_MODE : bool.
Variable func_init : Q -> Q.
Variable func_eval : Q -> Q.
Variables precision_comp initial_increment precision : Q.

Let solve (objective : Q) : result solver_exception (Q * Z) :=
  _iter_solver (func_init objective) objective func_eval
    initial_increment NUM_ITERS_MAX precision.

Let run :=
  solve_loop TESTING_MODE func_init func_eval precision_comp
    initial_increment precision.

(** A normal return of the loop: the values of the objectives solved,
    up to the first one on which the solver raises. *)
Lemma solve_loop_returns : forall objectives calc_points l,
  run objectives calc_points = Ok l ->
  exists solved,
    l = calc_points ++ map fst solved /\
    Forall2 (fun o r => solve o = Ok r)
      (firstn (length solved) objectives) solved /\
    (TESTING_MODE = true ->
     length solved = length objectives /\
     Forall2 (fun o r => Qabs (o - func_eval (fst r)) <= precision_comp)
       objectives solved) /\
    ((length solved < length objectives)%nat ->
     exists o e, nth_error objectives (length solved) = Some o /\
                 solve o = Raise e).
Proof.
  unfold run, solve.
  induction objectives as [| o objectives IH]; intros calc_points l;
    cbn [solve_loop].
  - intros [= <-]. exists []. cbn. rewrite app_nil_r.
    repeat split; try constructor. intros H. lia.
  - destruct (_iter_solver (func_init o) o func_eval initial_increment
                NUM_ITERS_MAX precision) as [[v n] | e] eqn:R.
    + destruct (TESTING_MODE
                && Qgtb (Qabs (o - func_eval v)) precision_comp) eqn:B;
        [discriminate |].
      intros H. destruct (IH _ _ H) as (solved & -> & F & T & S).
      exists ((v, n) :: solved). cbn [map fst length firstn].
      split; [now rewrite <- app_assoc |]. split; [now constructor |]. split.
      * intros M. destruct (T M) as [T1 T2]. split; [now rewrite T1 |].
        constructor; [| exact T2]. rewrite M in B. cbn [andb fst] in B |- *.
        now apply Qltb_ge in B.
      * intros L. cbn [nth_error]. apply S. lia.
    + destruct TESTING_MODE eqn:M; [discriminate |].
      intros [= <-]. exists []. cbn. rewrite app_nil_r.
      split; [reflexivity |]. split; [constructor |]. split; [discriminate |].
      intros _. exists o, e. auto.
Qed.

(** An exception of the loop is raised in validation mode only, and it
    is the solver's or the one of the test of the result. *)
Lemma solve_loop_raises : forall objectives calc_points e,
  run objectives calc_points = Raise e ->
  TESTING_MODE = true /\
  ((exists o, In o objectives /\ solve o = Raise e) \/
   (exists o v n, In o objectives /\ solve o = Ok (v, n) /\
      e = BadResult n o v /\
      precision_comp < Qabs (o - func_eval v))).
Proof.
  unfold run, solve.
  induction objectives as [| o objectives IH]; intros calc_points e;
    cbn [solve_loop]; [discriminate |].
  destruct (_iter_solver (func_init o) o func_eval initial_increment
              NUM_ITERS_MAX precision) as [[v n] | e'] eqn:R.
  - destruct TESTING_MODE eqn:M; cbn [andb].
    + destruct (Qgtb (Qabs (o - func_eval v)) precision_comp) eqn:B.
      * intros [= <-]. split; [reflexivity |]. right. exists o, v, n.
        repeat split; [now left | exact R |]. now apply Qltb_lt in B.
      * intros H. destruct (IH _ _ H) as (_ & [(o' & I & E) | (o' & v' & n' & I & E)]).
        -- split; [reflexivity |]. left. exists o'. split; [now right | exact E].
        -- split; [reflexivity |]. right. exists o', v', n'.
           split; [now right | exact E].
    + intros H. destruct (IH _ _ H) as (D & _). discriminate.
  - destruct TESTING_MODE; [| discriminate].
    intros [= <-]. split; [reflexivity |]. left. exists o. split; [now left | exact R].
Qed.
End BatchResult.

(** X5. A family name is rejected exactly when it is not one of the two
    keys of [families], whatever the mode, the functions and the
    objectives; no key of [families] gives this exception.  The key for
    the curves of constant enthalpy is spelled ENTHALPHY. *)
Theorem batch_family_names
    (TESTING_MODE : bool) (func_init func_eval : Q -> Q)
    (family_name : string) (objective_values : list Q) :
  solve_curves_with_iteration TESTING_MODE func_init func_eval family_name
    objective_values = Raise InvalidFamily
  <-> ~ In family_name ["ENTHALPHY"; "CONSTANT VOLUME"]%string.
Proof.
  unfold solve_curves_with_iteration. rewrite families_recognized.
  destruct (lookup families family_name) as [[[pc ii] p] |] eqn:F.
  - split.
    + intros H. exfalso.
      destruct (solve_loop_raises _ _ _ _ _ _ _ _ _ H)
        as (_ & [(o & _ & E) | (o & v & n & _ & _ & E & _)]).
      * apply iter_solver_gave_up in E.
        destruct E as (_ & v & v' & s & E & _). discriminate.
      * discriminate.
    + intros H. exfalso. apply H. eauto.
  - split; [| reflexivity]. intros _ [config H]. discriminate.
Qed.


(** X7. Outside validation mode the batch raises nothing for a key of
    [families]: it returns the solved values of the objectives up to the
    first one on which the solver raises, in their order, and of all
    objectives when there is none. *)
Theorem batch_normal_mode_returns
    (func_init func_eval : Q -> Q) (family_name : string)
    (precision_comp initial_increment precision : Q)
    (objective_values : list Q) :
  lookup families family_name
    = Some (precision_comp, initial_increment, precision) ->
  exists solved,
    solve_curves_with_iteration false func_init func_eval family_name
      objective_values = Ok (map fst solved) /\
    Forall2 (fun o r =>
               _iter_solver (func_init o) o func_eval
                 initial_increment NUM_ITERS_MAX precision = Ok r)
      (firstn (length solved) objective_values) solved /\
    ((length solved < length objective_values)%nat ->
     exists o e,
       nth_error objective_values (length solved) = Some o /\
       _iter_solver (func_init o) o func_eval
         initial_increment NUM_ITERS_MAX precision = Raise e).
Proof.
  intros F. unfold solve_curves_with_iteration. rewrite F.
  destruct (solve_loop false func_init func_eval precision_comp
              initial_increment precision objective_values [])
    as [l | e] eqn:R.
  - destruct (solve_loop_returns _ _ _ _ _ _ _ _ _ R) as (solved & -> & S & _ & N).
    exists solved. auto.
  - destruct (solve_loop_raises _ _ _ _ _ _ _ _ _ R) as (D & _). discriminate.
Qed.

Lemma solve_loop_modes
    (func_init func_eval : Q -> Q)
    (precision_comp initial_increment precision : Q) :
  forall objectives calc_points l,
  solve_loop true func_init func_eval precision_comp initial_increment
    precision objectives calc_points = Ok l ->
  solve_loop false func_init func_eval precision_comp initial_increment
    precision objectives calc_points = Ok l.
Proof.
  induction objectives as [| o objectives IH]; intros calc_points l;
    cbn [solve_loop]; [trivial |].
  destruct (_iter_solver (func_init o) o func_eval initial_increment
              NUM_ITERS_MAX precision) as [[v n] | e]; [| discriminate].
  cbn [andb].
  destruct (Qgtb (Qabs (o - func_eval v)) precision_comp); [discriminate |].
  apply IH.
Qed.

(** X8. Validation mode only adds tests: whenever the batch returns in
    validation mode, it returns the same values outside validation
    mode. *)
Theorem batch_modes_agree
    (func_init func_eval : Q -> Q) (family_name : string)
    (objective_values calc_points : list Q) :
  solve_curves_with_iteration true func_init func_eval family_name
    objective_values = Ok calc_points ->
  solve_curves_with_iteration false func_init func_eval family_name
    objective_values = Ok calc_points.
Proof.
  unfold solve_curves_with_iteration.
  destruct (lookup families family_name) as [[[pc ii] p] |]; [| discriminate].
  apply solve_loop_modes.
Qed.

Lemma batch_modes_agree_witness :
  solve_curves_with_iteration false (fun o => o + 1) (fun v => v)
    "ENTHALPHY" [0; 3; 1] = Ok [0 # 4; 12 # 4; 4 # 4].
Proof.
  apply (batch_modes_agree (fun o => o + 1) (fun v => v) "ENTHALPHY"
           [0; 3; 1] [0 # 4; 12 # 4; 4 # 4]).
  vm_compute. reflexivity.
Defined.


Lemma batch_normal_mode_returns_witness :
  exists solved : list (Q * Z),
    solve_curves_with_iteration false (fun o => o)
      (fun v : Q => if Qeq_bool v 0 then 0 else 5)
      "CONSTANT VOLUME" [0; 1; 2] = Ok (map fst solved) /\
    length solved = 1%nat.
Proof.
  destruct (batch_normal_mode_returns (fun o => o)
              (fun v : Q => if Qeq_bool v 0 then 0 else 5)
              "CONSTANT VOLUME" (5 # 10000) 1 (25 # 100000) [0; 1; 2])
    as (solved & R & S & N).
  - reflexivity.
  - exists solved. split; [exact R |].
    vm_compute in R. injection R as R.
    destruct solved as [| r [| r' solved]]; [discriminate | reflexivity |
      discriminate].
Defined.

(** ** More on the turn classifier *)

(** The turn is the sign of [val]. *)
Lemma orientation_same p q r p' q' r' :
  orientation_val p' q' r' == orientation_val p q r ->
  orientation p' q' r' = orientation p q r.
Proof.
  intros E.
  destruct (orientation_spec p q r) as (A0 & A2 & A1).
  destruct (orientation_spec p' q' r') as (B0 & B2 & B1).
  destruct (Q_dec (orientation_val p q r) 0) as [[L | L] | L].
  - rewrite (proj2 A2 L). apply B2. lra.
  - rewrite (proj2 A1 L). apply B1. lra.
  - rewrite (proj2 A0 L). apply B0. lra.
Qed.

Lemma orientation_opposite p q r p' q' r' :
  orientation_val p' q' r' == - orientation_val p q r ->
  orientation p' q' r' = opposite (orientation p q r).
Proof.
  intros E.
  destruct (orientation_spec p q r) as (A0 & A2 & A1).
  destruct (orientation_spec p' q' r') as (B0 & B2 & B1).
  destruct (Q_dec (orientation_val p q r) 0) as [[L | L] | L].
  - rewrite (proj2 A2 L). apply B1. lra.
  - rewrite (proj2 A1 L). apply B2. lra.
  - rewrite (proj2 A0 L). apply B0. lra.
Qed.

(** On exact numbers the turn of three points does not change when the
    points are rotated ([q], [r], [p]) or when the three are moved by the
    same vector; it is reversed when two of the points change places. *)
Lemma orientation_symmetric (p q r t : point) :
  orientation q r p = orientation p q r /\
  orientation (translate t p) (translate t q) (translate t r)
  = orientation p q r /\
  orientation q p r = opposite (orientation p q r) /\
  orientation p r q = opposite (orientation p q r) /\
  orientation r q p = opposite (orientation p q r).
Proof.
  repeat split;
    first [ apply orientation_same | apply orientation_opposite ];
    unfold orientation_val, translate, px, py; cbn [fst snd]; ring.
Qed.

(** On exact numbers three points of which two are equal make no turn:
    they are classified as collinear. *)
Lemma orientation_equal_points (p q r : point) :
  point_eq p q \/ point_eq q r \/ point_eq p r ->
  orientation p q r = Collinear.
Proof.
  intros H. apply orientation_spec. unfold orientation_val.
  destruct H as [[E1 E2] | [[E1 E2] | [E1 E2]]]; nra.
Qed.

(** ** More on the hull *)

Lemma convex_hull_of_stack points :
  convex_hull_graham_scan points =
  match hull_stack points with
  | Ok stack => Ok (map px (rev stack), map py (rev stack))
  | Raise e => Raise e
  end.
Proof.
  unfold convex_hull_graham_scan.
  destruct (hull_stack points) as [stack | e] eqn:E; cbn [bind]; [| reflexivity].
  destruct (hull_stack_shape _ _ E) as (first & others & hull' & _ & -> & N).
  assert (B : (2 <=? length (map px (rev (hull' ++ [min_from first others]))))%nat
              = true).
  { apply Nat.leb_le. rewrite length_map, length_rev, length_app. simpl.
    destruct hull'; [congruence | simpl; lia]. }
  now rewrite B.
Qed.

(** X11. The function raises [IndexError] (at [sorted_points[0]]) exactly
    when it is given three points or more that are all equal. *)
Theorem convex_hull_index_error (points : list point) :
  convex_hull_graham_scan points = Raise IndexError <->
  (3 <= length points)%nat /\
  forall p q, In p points -> In q points -> point_eq p q.
Proof.
  rewrite convex_hull_of_stack. split.
  - intros H. destruct (hull_stack points) as [stack | e] eqn:E;
      [discriminate |].
    assert (L : (3 <= length points)%nat).
    { destruct (le_lt_dec 3 (length points)) as [L | L]; [exact L |].
      rewrite (hull_stack_short _ L) in E. congruence. }
    split; [exact L |]. intros p q Hp Hq.
    destruct (point_eqb p q) eqn:B; [now apply point_eqb_spec |].
    apply point_eqb_false in B.
    destruct (hull_stack_returns points L) as [stack K]; [eauto |].
    congruence.
  - intros [L A]. destruct (hull_stack points) as [stack | e] eqn:E.
    + exfalso.
      destruct (hull_stack_spec _ _ E) as (o & above & _ & N & G & Ho & _ & V & _).
      destruct above as [| s above]; [congruence |].
      assert (Hs : In s (s :: above)) by now left.
      apply (lex_lt_not_eq o s); [apply (good_dom _ _ G), Hs |].
      apply A; [apply V, Hs | exact Ho].
    + f_equal. now apply (hull_stack_raise points).
Qed.

Lemma det_of_equal o a b : point_eq a b -> det o a b == 0.
Proof. unfold det, point_eq. intros [E1 E2]. nra. Qed.

Lemma distinct_NoDup (l : list point) :
  (forall a b, pair_in l a b -> ~ point_eq a b) -> NoDup l.
Proof.
  induction l as [| x l IH]; intros H; constructor.
  - intros I. apply (H x x); [| apply point_eq_refl].
    apply pair_in_cons. left. now split.
  - apply IH. intros a b K. apply H, pair_in_cons. now right.
Qed.

(** On exact numbers no point is twice among the corners that the
    function returns, also when the input has points more than once; the
    corners are therefore not more than the points of the input. *)
Lemma hull_corners_distinct
    (points : list point) (hull_x hull_y : list Q) :
  convex_hull_graham_scan points = Ok (hull_x, hull_y) ->
  (forall a b, pair_in (combine hull_x hull_y) a b -> ~ point_eq a b) /\
  (length (combine hull_x hull_y) <= length points)%nat.
Proof.
  rewrite convex_hull_of_stack.
  destruct (hull_stack points) as [stack | e] eqn:E; [| discriminate].
  intros [= <- <-]. rewrite combine_px_py.
  destruct (hull_stack_spec _ _ E) as (o & above & -> & _ & G & Ho & _ & V & _).
  assert (D : forall a b, pair_in (rev (above ++ [o])) a b -> ~ point_eq a b).
  { intros a b H. apply pair_in_rev, pair_in_app_bottom in H.
    destruct H as [H | [H ->]].
    - pose proof (good_ang _ _ G _ _ H) as K.
      intros Q. apply det_of_equal with (o := o) in Q. lra.
    - intros Q. apply (lex_lt_not_eq o b); [apply (good_dom _ _ G), H |].
      destruct Q. split; lra. }
  split; [exact D |].
  apply NoDup_incl_length; [now apply distinct_NoDup |].
  intros v Hv. apply in_rev, in_app_or in Hv.
  destruct Hv as [Hv | [<- | []]]; auto.
Qed.

Lemma lex_le_eq v q h : point_eq v q -> lex_le v h -> lex_le q h.
Proof.
  unfold point_eq, lex_le. intros [E1 E2] [H | [H1 H2]]; [left | right]; lra.
Qed.

Lemma lex_le_segment a b h t q :
  lex_le a h -> lex_le b h -> 0 <= t <= 1 ->
  px q == t * px a + (1 - t) * px b ->
  py q == t * py a + (1 - t) * py b ->
  lex_le q h.
Proof.
  unfold lex_le. intros Ha Hb [T0 T1] Ex Ey.
  destruct (Qlt_le_dec 0 t) as [P | P].
  - destruct (Qlt_le_dec t 1) as [P' | P'].
    + destruct Ha as [Ha | [Ha1 Ha2]], Hb as [Hb | [Hb1 Hb2]].
      * left. nra.
      * left. nra.
      * left. nra.
      * right. split; nra.
    + assert (t == 1) by lra.
      destruct Ha as [Ha | [Ha1 Ha2]]; [left | right; split]; nra.
  - assert (t == 0) by lra.
    destruct Hb as [Hb | [Hb1 Hb2]]; [left | right; split]; nra.
Qed.

Lemma in_hull_lex_le V h q :
  (forall v, In v V -> lex_le v h) -> in_hull V q -> lex_le q h.
Proof.
  intros H K. induction K as [v q Hv Hq | a b t q _ IHa _ IHb Ht Hx Hy].
  - apply lex_le_eq with v; auto.
  - now apply lex_le_segment with a b t.
Qed.

(** On exact numbers, for points on one line (three or more, not all
    equal), the function returns two corners, the lexicographically
    smallest and the lexicographically greatest point of the input, the
    ends of the segment that holds the points. *)
Lemma hull_of_collinear_points (points : list point) :
  (3 <= length points)%nat ->
  (exists p q, In p points /\ In q points /\ ~ point_eq p q) ->
  (forall p q r, In p points -> In q points -> In r points ->
                 det p q r == 0) ->
  exists lo hi,
    convex_hull_graham_scan points = Ok ([px lo; px hi], [py lo; py hi]) /\
    In lo points /\ In hi points /\
    forall p, In p points -> lex_le lo p /\ lex_le p hi.
Proof.
  intros L N C.
  destruct (hull_stack_returns points L N) as [stack E].
  destruct (hull_stack_spec points stack E)
    as (o & above & -> & Na & G & Ho & Hmin & V & H).
  destruct above as [| hi [| b rest]]; [congruence | |].
  - exists o, hi. split; [| split; [exact Ho | split]].
    + rewrite convex_hull_of_stack, E. reflexivity.
    + apply V. now left.
    + intros p Hp. split; [now apply Hmin |].
      apply in_hull_lex_le with ([hi] ++ [o]); [| now apply H].
      intros v [<- | [<- | []]]; [apply lex_le_refl |].
      apply Hmin, V. now left.
  - exfalso.
    assert (P : pair_in (hi :: b :: rest) hi b).
    { apply pair_in_cons. left. split; [reflexivity | now left]. }
    pose proof (good_ang _ _ G _ _ P) as K.
    rewrite (C o b hi) in K; [lra | exact Ho | |]; apply V; simpl; auto.
Qed.

(** * The floats *)

(** ** Integers are floats *)

Lemma Qred_integer (q : Q) (z : Z) : q == inject_Z z -> Qred q = inject_Z z.
Proof.
  intros E. rewrite (Qred_complete _ _ E). unfold Qred, inject_Z.
  pose proof (Z.ggcd_gcd z 1) as G.
  pose proof (Z.ggcd_correct_divisors z 1) as D.
  destruct (Z.ggcd z 1) as (g & aa & bb). simpl in G.
  rewrite Z.gcd_1_r in G. subst g. destruct D as [-> D].
  assert (bb = 1%Z) as -> by lia.
  f_equal. destruct aa; reflexivity.
Qed.

Lemma floor_log2_integer (n : Z) : (0 < n)%Z -> floor_log2 n 1 = Z.log2 n.
Proof.
  intros P. unfold floor_log2. change (Z.log2 1) with 0%Z. rewrite Z.sub_0_r.
  pose proof (Z.log2_nonneg n) as L.
  destruct (0 <=? Z.log2 n)%Z eqn:E; [| apply Z.leb_gt in E; lia].
  pose proof (Z.log2_spec n P) as [S _].
  destruct (n <? 1 * 2 ^ Z.log2 n)%Z eqn:F;
    [apply Z.ltb_lt in F; lia | reflexivity].
Qed.

Lemma nearest_integer_multiple (m d : Z) :
  (0 <= m)%Z -> (0 < d)%Z -> nearest_integer (m * d) d = m.
Proof.
  intros M D. unfold nearest_integer.
  rewrite Z.mod_mul by lia. rewrite Z.div_mul by lia.
  change (2 * 0)%Z with 0%Z.
  destruct (0 ?= d)%Z eqn:C; trivial.
  - apply Z.compare_eq in C. lia.
  - apply Z.compare_gt_iff in C. lia.
Qed.

(** An integer [n] up to [2 ^ 53] is a multiple of its unit in the last
    place. *)
Lemma nearest_integer_value (n : Z) :
  (0 < n <= 2 ^ 53)%Z ->
  let p := (Z.log2 n - 52)%Z in
  inject_Z (if (p <=? 0)%Z then nearest_integer (n * 2 ^ (- p)) 1
            else nearest_integer n (1 * 2 ^ p)) * pow2 p == inject_Z n.
Proof.
  intros [P B] p.
  assert (L : (Z.log2 n <= 53)%Z).
  { rewrite <- (Z.log2_pow2 53) by lia. now apply Z.log2_le_mono. }
  pose proof (Z.log2_nonneg n) as L0.
  destruct (p <=? 0)%Z eqn:E.
  - apply Z.leb_le in E.
    rewrite <- (Z.mul_1_r (n * 2 ^ (- p))) at 1.
    rewrite nearest_integer_multiple
      by (try apply Z.mul_nonneg_nonneg; try apply Z.pow_nonneg; lia).
    unfold pow2. destruct (0 <=? p)%Z eqn:F.
    + apply Z.leb_le in F. assert (p = 0)%Z as -> by lia.
      change (- 0)%Z with 0%Z. change (2 ^ 0)%Z with 1%Z.
      rewrite Z.mul_1_r. change (inject_Z 1) with 1. ring.
    + rewrite inject_Z_mult. field.
      intros H. assert (0 < 2 ^ (- p))%Z as H0 by (apply Z.pow_pos_nonneg; lia).
      unfold Qeq in H. simpl in H. lia.
  - apply Z.leb_gt in E. assert (p = 1)%Z as Hp by lia. rewrite Hp.
    assert (n = 2 ^ 53)%Z as ->.
    { pose proof (Z.log2_spec n P) as [S _].
      assert (Z.log2 n = 53)%Z as K by lia. rewrite K in S. lia. }
    vm_compute. reflexivity.
Qed.

Lemma is_b64_integer (q : Q) (z : Z) :
  q == inject_Z z -> (Z.abs z <= 2 ^ 53)%Z -> is_b64 q = true.
Proof.
  intros E B. unfold is_b64, nearest. rewrite (Qred_integer q z E).
  destruct (Qeq_bool (inject_Z z) 0) eqn:Z0.
  - apply Qeq_bool_iff in Z0. apply Qeq_bool_iff. rewrite E, Z0. reflexivity.
  - assert (N : z <> 0%Z).
    { intros ->. discriminate. }
    cbn [Qnum Qden inject_Z].
    rewrite floor_log2_integer by lia.
    pose proof (Z.log2_nonneg (Z.abs z)) as L0.
    rewrite Z.max_l by lia.
    pose proof (nearest_integer_value (Z.abs z) ltac:(lia)) as V. cbv zeta in V.
    set (m := if (Z.log2 (Z.abs z) - 52 <=? 0)%Z then _ else _) in *.
    set (r := Qred (inject_Z m * pow2 (Z.log2 (Z.abs z) - 52))).
    assert (R : r == inject_Z (Z.abs z)).
    { unfold r. rewrite Qred_correct. exact V. }
    assert (O : Qle_bool (pow2 1024) r = false).
    { destruct (Qle_bool (pow2 1024) r) eqn:O; trivial.
      apply Qle_bool_iff in O. rewrite R in O.
      change (pow2 1024) with (inject_Z (2 ^ 1024)) in O.
      rewrite <- Zle_Qle in O.
      assert (2 ^ 53 < 2 ^ 1024)%Z by (apply Z.pow_lt_mono_r; lia). lia. }
    rewrite O. apply Qeq_bool_iff. rewrite E.
    destruct (z <? 0)%Z eqn:S.
    + apply Z.ltb_lt in S. rewrite R. rewrite Z.abs_neq by lia.
      rewrite inject_Z_opp. ring.
    + apply Z.ltb_ge in S. rewrite R. rewrite Z.abs_eq by lia. reflexivity.
Qed.

Lemma round_exact (q : Q) : is_b64 q = true -> round q = Fin q.
Proof. unfold round. now intros ->. Qed.

Lemma round_integer (q : Q) (z : Z) :
  q == inject_Z z -> (Z.abs z <= 2 ^ 53)%Z -> round q = Fin q.
Proof. intros E B. apply round_exact. now apply is_b64_integer with z. Qed.

(** ** The grid *)

Lemma is_integer_spec (bound : Z) (q : Q) :
  is_integer bound q = true <->
  exists z, q == inject_Z z /\ (Z.abs z <= bound)%Z.
Proof.
  unfold is_integer. split.
  - intros H. apply andb_true_iff in H. destruct H as [D N].
    apply Z.eqb_eq in D. apply Z.leb_le in N.
    exists (Qnum (Qred q)). split; [| exact N].
    rewrite <- (Qred_correct q) at 1.
    destruct (Qred q) as [n d]. cbn [Qnum Qden] in *.
    unfold Qeq, inject_Z. cbn [Qnum Qden]. lia.
  - intros (z & E & B). rewrite (Qred_integer q z E). cbn [Qnum Qden inject_Z].
    apply andb_true_iff. split; [reflexivity | now apply Z.leb_le].
Qed.

Lemma on_grid_spec (bound : Z) (p : point) :
  on_grid bound p = true <->
  exists x y, px p == inject_Z x /\ py p == inject_Z y /\
              (Z.abs x <= bound)%Z /\ (Z.abs y <= bound)%Z.
Proof.
  unfold on_grid. rewrite andb_true_iff, !is_integer_spec. split.
  - intros [(x & Ex & Bx) (y & Ey & By)]. now exists x, y.
  - intros (x & y & Ex & Ey & Bx & By). split; [now exists x | now exists y].
Qed.

Lemma on_grid_le (b b' : Z) (p : point) :
  (b <= b')%Z -> on_grid b p = true -> on_grid b' p = true.
Proof.
  intros L H. apply on_grid_spec in H. apply on_grid_spec.
  destruct H as (x & y & Ex & Ey & Bx & By). exists x, y.
  repeat split; trivial; lia.
Qed.

(** ** The turn on the grid *)

Lemma abs_mul_le (a b A B : Z) :
  (Z.abs a <= A)%Z -> (Z.abs b <= B)%Z -> (Z.abs (a * b) <= A * B)%Z.
Proof.
  intros Ha Hb. rewrite Z.abs_mul.
  apply Z.mul_le_mono_nonneg; trivial; apply Z.abs_nonneg.
Qed.

Lemma inject_Z_minus (a b : Z) : inject_Z (a - b) == inject_Z a - inject_Z b.
Proof.
  unfold Z.sub, Qminus. now rewrite inject_Z_plus, inject_Z_opp.
Qed.

(** Without rounding the floats compute the turn of the exact numbers. *)
Lemma orientation_exact (p q r : point) :
  exact_turn p q r = true -> B64.orientation p q r = orientation p q r.
Proof.
  unfold exact_turn. rewrite !andb_true_iff.
  intros [[[[[[D1 D2] D3] D4] M1] M2] V].
  unfold B64.orientation, B64.orientation_val, B64.sub, B64.mul.
  rewrite (round_exact _ D1), (round_exact _ D2), (round_exact _ D3),
    (round_exact _ D4), (round_exact _ M1), (round_exact _ M2).
  fold (orientation_val p q r). rewrite (round_exact _ V). reflexivity.
Qed.

(** On the grid no operation of [orientation] rounds: the differences are
    integers up to [2 ^ 26], the products integers up to [2 ^ 52] and [val]
    is an integer up to [2 ^ 53]. *)
Lemma exact_turn_on_grid (p q r : point) :
  on_grid turn_grid p = true -> on_grid turn_grid q = true ->
  on_grid turn_grid r = true ->
  exact_turn p q r = true.
Proof.
  intros Hp Hq Hr.
  apply on_grid_spec in Hp, Hq, Hr.
  destruct Hp as (xp & yp & Exp & Eyp & Bxp & Byp).
  destruct Hq as (xq & yq & Exq & Eyq & Bxq & Byq).
  destruct Hr as (xr & yr & Exr & Eyr & Bxr & Byr).
  unfold turn_grid in *.
  assert (D1 : py q - py p == inject_Z (yq - yp))
    by (rewrite Eyq, Eyp, inject_Z_minus; reflexivity).
  assert (D2 : px r - px q == inject_Z (xr - xq))
    by (rewrite Exr, Exq, inject_Z_minus; reflexivity).
  assert (D3 : px q - px p == inject_Z (xq - xp))
    by (rewrite Exq, Exp, inject_Z_minus; reflexivity).
  assert (D4 : py r - py q == inject_Z (yr - yq))
    by (rewrite Eyr, Eyq, inject_Z_minus; reflexivity).
  assert (B1 : (Z.abs (yq - yp) <= 2 ^ 26)%Z) by lia.
  assert (B2 : (Z.abs (xr - xq) <= 2 ^ 26)%Z) by lia.
  assert (B3 : (Z.abs (xq - xp) <= 2 ^ 26)%Z) by lia.
  assert (B4 : (Z.abs (yr - yq) <= 2 ^ 26)%Z) by lia.
  pose proof (abs_mul_le _ _ _ _ B1 B2) as B12.
  pose proof (abs_mul_le _ _ _ _ B3 B4) as B34.
  change (2 ^ 26 * 2 ^ 26)%Z with (2 ^ 52)%Z in B12, B34.
  assert (M1 : (py q - py p) * (px r - px q)
               == inject_Z ((yq - yp) * (xr - xq)))
    by (rewrite D1, D2, <- inject_Z_mult; reflexivity).
  assert (M2 : (px q - px p) * (py r - py q)
               == inject_Z ((xq - xp) * (yr - yq)))
    by (rewrite D3, D4, <- inject_Z_mult; reflexivity).
  assert (V : orientation_val p q r
              == inject_Z ((yq - yp) * (xr - xq) - (xq - xp) * (yr - yq))).
  { unfold orientation_val. rewrite M1, M2, inject_Z_minus. reflexivity. }
  unfold exact_turn.
  rewrite (is_b64_integer _ _ D1), (is_b64_integer _ _ D2),
    (is_b64_integer _ _ D3), (is_b64_integer _ _ D4) by lia.
  rewrite (is_b64_integer _ _ M1), (is_b64_integer _ _ M2) by lia.
  apply (is_b64_integer _ _ V). lia.
Qed.

Lemma orientation_on_grid (p q r : point) :
  on_grid turn_grid p = true -> on_grid turn_grid q = true ->
  on_grid turn_grid r = true ->
  B64.orientation p q r = orientation p q r.
Proof.
  intros Hp Hq Hr. now apply orientation_exact, exact_turn_on_grid.
Qed.

(** C4, as stated, fails on floats.  The product of two differences of
    [2 ^ -600] is rounded to zero: the three points are classified as
    collinear although their cross product is not zero.  For the floats
    nearest to (0.5, 0.7), (1.4, 2.5) and (0.3, 0.3) the rounded products
    differ the other way round than the exact ones: the points are
    classified as clockwise although their cross product is positive. *)
Lemma orientation_rounds_cross_product :
  let tiny := pow2 (-600) in
  let p := (1 # 2, 3152519739159347 # 4503599627370496) in
  let q := (3152519739159347 # 2251799813685248, 5 # 2) in
  let r := (5404319552844595 # 18014398509481984,
            5404319552844595 # 18014398509481984) in
  (float_point (tiny, tiny) = true /\
   B64.orientation (0, 0) (tiny, 0) (tiny, tiny) = Collinear /\
   0 < cross_product (0, 0) (tiny, 0) (tiny, tiny)) /\
  (forallb float_point [p; q; r] = true /\
   B64.orientation p q r = Clockwise /\
   0 < cross_product p q r).
Proof. vm_compute. repeat split. Qed.

(** C4, amended.  [orientation] computes [val] in floats.  When none of
    its seven operations rounds, it returns the sign of the cross product
    [(q - p) x (r - q)]: Collinear exactly when it is zero,
    CounterClockwise exactly when it is positive, Clockwise exactly when
    it is negative.  No operation rounds when the coordinates are integers
    of magnitude at most [2 ^ 25].  On the three triples of the
    specification it returns CounterClockwise, Clockwise and Collinear.
    It is a total function of its three arguments. *)
Theorem orientation_classifies_cross_product :
  (forall p q r : point,
      exact_turn p q r = true ->
      (B64.orientation p q r = Collinear <-> cross_product p q r == 0) /\
      (B64.orientation p q r = CounterClockwise <-> 0 < cross_product p q r) /\
      (B64.orientation p q r = Clockwise <-> cross_product p q r < 0)) /\
  (forall p q r : point,
      on_grid turn_grid p = true -> on_grid turn_grid q = true ->
      on_grid turn_grid r = true ->
      exact_turn p q r = true) /\
  B64.orientation (0, 0) (1, 0) (1, 1) = CounterClockwise /\
  B64.orientation (0, 0) (1, 1) (2, 0) = Clockwise /\
  B64.orientation (0, 0) (1, 0) (2, 0) = Collinear.
Proof.
  split; [| split; [exact exact_turn_on_grid | repeat split]].
  intros p q r E. rewrite (orientation_exact p q r E).
  apply orientation_cross_product.
Qed.

Lemma orientation_classifies_cross_product_witness :
  B64.orientation (0, 3) (4, 0) (1 # 2, 8) = CounterClockwise <->
  0 < cross_product (0, 3) (4, 0) (1 # 2, 8).
Proof.
  apply (proj1 orientation_classifies_cross_product (0, 3) (4, 0) (1 # 2, 8)).
  vm_compute. reflexivity.
Defined.

(** ** More on the turn classifier *)

Lemma on_grid_translate (t p : point) :
  on_grid (2 ^ 24) t = true -> on_grid (2 ^ 24) p = true ->
  on_grid turn_grid (translate t p) = true.
Proof.
  intros Ht Hp. apply on_grid_spec in Ht, Hp. apply on_grid_spec.
  destruct Ht as (xt & yt & Ext & Eyt & Bxt & Byt).
  destruct Hp as (x & y & Ex & Ey & Bx & By).
  exists (x + xt)%Z, (y + yt)%Z. unfold translate, turn_grid. cbn [px py fst snd].
  unfold px, py in *.
  rewrite !inject_Z_plus, Ex, Ey, Ext, Eyt. repeat split; try reflexivity; lia.
Qed.

(** X9. On points with integer coordinates of magnitude at most [2 ^ 24]
    the turn of three points does not change when the points are rotated
    ([q], [r], [p]) or when the three are moved by the same vector [t] of
    that kind; it is reversed when two of the points change places. *)
Theorem orientation_symmetries (p q r t : point) :
  on_grid (2 ^ 24) p = true -> on_grid (2 ^ 24) q = true ->
  on_grid (2 ^ 24) r = true -> on_grid (2 ^ 24) t = true ->
  B64.orientation q r p = B64.orientation p q r /\
  B64.orientation (translate t p) (translate t q) (translate t r)
  = B64.orientation p q r /\
  B64.orientation q p r = opposite (B64.orientation p q r) /\
  B64.orientation p r q = opposite (B64.orientation p q r) /\
  B64.orientation r q p = opposite (B64.orientation p q r).
Proof.
  intros Hp Hq Hr Ht.
  pose proof (on_grid_translate t p Ht Hp) as Tp.
  pose proof (on_grid_translate t q Ht Hq) as Tq.
  pose proof (on_grid_translate t r Ht Hr) as Tr.
  apply (on_grid_le _ turn_grid) in Hp, Hq, Hr; try (unfold turn_grid; lia).
  rewrite !orientation_on_grid by assumption.
  apply orientation_symmetric.
Qed.

Lemma orientation_symmetries_witness :
  B64.orientation (4, 0) (1, 8) (0, 3) = B64.orientation (0, 3) (4, 0) (1, 8) /\
  B64.orientation (1, 8) (4, 0) (0, 3)
  = opposite (B64.orientation (0, 3) (4, 0) (1, 8)).
Proof.
  destruct (orientation_symmetries (0, 3) (4, 0) (1, 8) (5, 5))
    as (A & _ & _ & _ & B); try reflexivity.
  split; [exact A | exact B].
Defined.

(** X10. Three points with integer coordinates of magnitude at most
    [2 ^ 25] of which two are equal make no turn: they are classified as
    collinear. *)
Theorem orientation_of_equal_points (p q r : point) :
  on_grid turn_grid p = true -> on_grid turn_grid q = true ->
  on_grid turn_grid r = true ->
  point_eq p q \/ point_eq q r \/ point_eq p r ->
  B64.orientation p q r = Collinear.
Proof.
  intros Hp Hq Hr H. rewrite orientation_on_grid by assumption.
  now apply orientation_equal_points.
Qed.

Lemma orientation_of_equal_points_witness :
  B64.orientation (1, 2) (3, 5) (1, 2) = Collinear.
Proof.
  apply (orientation_of_equal_points (1, 2) (3, 5) (1, 2));
    try reflexivity.
  right. right. split; reflexivity.
Defined.

(** ** The hull on the grid *)

Section HullOnGrid.
Let grid (p : point) : Prop := on_grid turn_grid p = true.

Lemma pop_while_on_grid (r : point) : grid r -> forall hull,
  Forall grid hull ->
  B64.pop_while hull r = pop_while hull r /\ Forall grid (pop_while hull r).
Proof.
  intros Hr. induction hull as [| q hull IH]; intros F; [now split |].
  destruct hull as [| p rest]; [now split |].
  cbn [B64.pop_while pop_while].
  inversion F as [| ? ? Hq F']. inversion F' as [| ? ? Hp _]. subst.
  rewrite (orientation_on_grid p q r Hp Hq Hr).
  destruct (negb (turn_eqb (orientation p q r) CounterClockwise));
    [now apply IH | now split].
Qed.

Lemma scan_on_grid : forall rest hull,
  Forall grid rest -> Forall grid hull ->
  B64.scan hull rest = scan hull rest.
Proof.
  unfold B64.scan, scan.
  induction rest as [| r rest IH]; intros hull Fr Fh; [reflexivity |].
  inversion Fr as [| ? ? Hr Fr']. subst. cbn [fold_left].
  unfold B64.scan_step at 2, scan_step at 2.
  destruct (pop_while_on_grid r Hr hull Fh) as [E Fp]. rewrite E.
  apply IH; [exact Fr' | now constructor].
Qed.

Lemma hull_stack_on_grid (points : list point) :
  Forall grid points -> B64.hull_stack points = hull_stack points.
Proof.
  intros F. unfold B64.hull_stack, hull_stack.
  destruct (negb (3 <=? length points)%nat); [reflexivity |].
  destruct points as [| first others]; [reflexivity |].
  cbv zeta.
  set (o := min_from first others).
  assert (Ho : grid o).
  { apply (proj1 (Forall_forall grid (first :: others)) F).
    apply min_from_spec. }
  assert (Fs : Forall grid
            (sorted o (filter (fun p => negb (point_eqb p o)) (first :: others)))).
  { apply Forall_forall. intros x Hx. apply sorted_In, filter_In in Hx.
    apply (proj1 (Forall_forall grid (first :: others)) F), Hx. }
  destruct (sorted o _) as [| p0 rest]; [reflexivity |].
  inversion Fs as [| ? ? H0 Fr]. subst.
  f_equal. apply scan_on_grid; [exact Fr | now repeat constructor].
Qed.
End HullOnGrid.

(** On points with integer coordinates of magnitude at most [2 ^ 20] the
    hull function computes without rounding. *)
Lemma convex_hull_on_grid (points : list point) :
  forallb (on_grid hull_grid) points = true ->
  B64.convex_hull_graham_scan points = convex_hull_graham_scan points.
Proof.
  intros F. unfold B64.convex_hull_graham_scan, convex_hull_graham_scan.
  rewrite hull_stack_on_grid; [reflexivity |].
  apply Forall_forall. intros p Hp.
  apply on_grid_le with hull_grid; [unfold hull_grid, turn_grid; lia |].
  now apply (proj1 (forallb_forall _ _) F).
Qed.

(** Off the grid the turns are rounded.  For the floats nearest to
    (2.2, 0.9), (2.7, 0.4) and (0.2, 2.9), which are not on one line,
    [val] is rounded to zero: the function returns two corners, and the
    point (2.7, 0.4) is not between them. *)
Lemma hull_off_the_grid :
  let a := (2476979795053773 # 1125899906842624,
            8106479329266893 # 9007199254740992) in
  let b := (3039929748475085 # 1125899906842624,
            3602879701896397 # 9007199254740992) in
  let c := (3602879701896397 # 18014398509481984,
            6530219459687219 # 2251799813685248) in
  forallb float_point [a; b; c] = true /\
  B64.convex_hull_graham_scan [a; b; c] = Ok ([px c; px a], [py c; py a]) /\
  ~ det c a b == 0.
Proof.
  vm_compute. split; [reflexivity |]. split; [reflexivity | discriminate].
Qed.

(** C3, amended.  For at least three points that are not all equal and
    have integer coordinates of magnitude at most [2 ^ 20],
    [convex_hull_graham_scan] returns a polygon such that every point of
    the input is in the convex hull of its corners, hence on the left of
    every side of the polygon or on it; the corners are points of the
    input and go around a strictly convex polygon counterclockwise.  For
    the square with its centre it returns the four corners,
    counterclockwise from (0,0). *)
Theorem convex_hull_contains_points :
  (forall points : list point,
      forallb (on_grid hull_grid) points = true ->
      (3 <= length points)%nat ->
      (exists p q, In p points /\ In q points /\ ~ point_eq p q) ->
      exists hull_x hull_y,
        B64.convex_hull_graham_scan points = Ok (hull_x, hull_y) /\
        let hull := combine hull_x hull_y in
        (forall q, In q points -> in_hull hull q) /\
        (forall a b q,
            In (a, b) (sides hull) -> In q points -> left_or_on a b q) /\
        (forall v, In v hull -> In v points) /\
        counterclockwise_polygon hull) /\
  B64.convex_hull_graham_scan [(0, 0); (4, 0); (4, 4); (0, 4); (2, 2)]
  = Ok ([0; 4; 4; 0], [0; 0; 4; 4]).
Proof.
  split; [| vm_compute; reflexivity].
  intros points G L N. rewrite (convex_hull_on_grid points G).
  now apply hull_contains_points.
Qed.

Lemma convex_hull_contains_points_witness :
  exists hull_x hull_y,
    B64.convex_hull_graham_scan [(0, 0); (4, 0); (4, 4); (0, 4); (2, 2)]
    = Ok (hull_x, hull_y) /\
    forall q, In q [(0, 0); (4, 0); (4, 4); (0, 4); (2, 2)] ->
              in_hull (combine hull_x hull_y) q.
Proof.
  destruct (proj1 convex_hull_contains_points
              [(0, 0); (4, 0); (4, 4); (0, 4); (2, 2)])
    as (hull_x & hull_y & R & H & _).
  - reflexivity.
  - simpl. lia.
  - exists (0, 0), (4, 0). simpl. split; [auto |]. split; [auto |].
    intros [E _]. vm_compute in E. discriminate.
  - exists hull_x, hull_y. split; [exact R | exact H].
Defined.

(** X12. For points with integer coordinates of magnitude at most
    [2 ^ 20]: no point is twice among the corners that the function
    returns, also when the input has points more than once; the corners
    are therefore not more than the points of the input. *)
Theorem convex_hull_corners_distinct
    (points : list point) (hull_x hull_y : list Q) :
  forallb (on_grid hull_grid) points = true ->
  B64.convex_hull_graham_scan points = Ok (hull_x, hull_y) ->
  (forall a b, pair_in (combine hull_x hull_y) a b -> ~ point_eq a b) /\
  (length (combine hull_x hull_y) <= length points)%nat.
Proof.
  intros G. rewrite (convex_hull_on_grid points G).
  apply hull_corners_distinct.
Qed.

Lemma convex_hull_corners_distinct_witness :
  (length (combine [0; 4; 4; 0] [0; 0; 4; 4]) <= 6)%nat.
Proof.
  apply (convex_hull_corners_distinct
           [(0, 0); (4, 0); (0, 0); (4, 4); (0, 4); (4, 4)]
           [0; 4; 4; 0] [0; 0; 4; 4]).
  - reflexivity.
  - vm_compute. reflexivity.
Defined.

(** X13. Points on one line (three or more, not all equal, with integer
    coordinates of magnitude at most [2 ^ 20]): the function returns two
    corners, the lexicographically smallest and the lexicographically
    greatest point of the input, the ends of the segment that holds the
    points. *)
Theorem convex_hull_of_collinear_points (points : list point) :
  forallb (on_grid hull_grid) points = true ->
  (3 <= length points)%nat ->
  (exists p q, In p points /\ In q points /\ ~ point_eq p q) ->
  (forall p q r, In p points -> In q points -> In r points ->
                 det p q r == 0) ->
  exists lo hi,
    B64.convex_hull_graham_scan points
    = Ok ([px lo; px hi], [py lo; py hi]) /\
    In lo points /\ In hi points /\
    forall p, In p points -> lex_le lo p /\ lex_le p hi.
Proof.
  intros G L N C. rewrite (convex_hull_on_grid points G).
  now apply hull_of_collinear_points.
Qed.

Lemma convex_hull_of_collinear_points_witness :
  exists lo hi,
    B64.convex_hull_graham_scan [(1, 1); (0, 0); (3, 3); (2, 2)]
    = Ok ([px lo; px hi], [py lo; py hi]) /\
    In lo [(1, 1); (0, 0); (3, 3); (2, 2)] /\
    In hi [(1, 1); (0, 0); (3, 3); (2, 2)].
Proof.
  destruct (convex_hull_of_collinear_points [(1, 1); (0, 0); (3, 3); (2, 2)])
    as (lo & hi & R & A & B & _).
  - reflexivity.
  - simpl. lia.
  - exists (1, 1), (0, 0). simpl. split; [auto |]. split; [auto |].
    intros [E _]. vm_compute in E. discriminate.
  - intros p q r Hp Hq Hr. simpl in Hp, Hq, Hr.
    repeat (destruct Hp as [<- | Hp]; [| try contradiction]);
    repeat (destruct Hq as [<- | Hq]; [| try contradiction]);
    repeat (destruct Hr as [<- | Hr]; [| try contradiction]);
    reflexivity.
  - exists lo, hi. auto.
Defined.

(** ** The solver on floats *)

Lemma max_of_floats (a b : Q) : B64.max (Fin a) (Fin b) = Fin (Qmax a b).
Proof.
  unfold B64.max, B64.gtb, B64.ltb, Qltb, Qmax, GenericMinMax.gmax.
  now destruct (a ?= b).
Qed.

Section FloatRun.
Variable objective_value : Q.
Variable func_eval : Q -> Q.
Variable float_func_eval : b64 -> b64.
Variable num_iters_max : Z.
Variable precision : Q.

Hypothesis float_func_eval_spec :
  forall v, float_func_eval (Fin v) = Fin (func_eval v).

(** A pass that does not round is the pass of the exact solver. *)
Lemma loop_body_exact st :
  exact_pass objective_value func_eval precision st = true ->
  B64.loop_body (Fin objective_value) float_func_eval (Fin precision)
    (float_state st)
  = match loop_body objective_value func_eval precision st with
    | Break st' => B64.Break (float_state st')
    | Next st' => B64.Next (float_state st')
    end.
Proof.
  unfold exact_pass, B64.loop_body, loop_body.
  cbn [float_state B64.value_calc B64.increment B64.decreasing B64.num_iter].
  rewrite float_func_eval_spec. cbn [B64.sub].
  set (e := objective_value - func_eval (value_calc st)).
  intros H. apply andb_true_iff in H. destruct H as [He H].
  rewrite (round_exact _ He). cbn [B64.abs B64.ltb].
  destruct (Qltb (Qabs e) precision); [reflexivity |].
  cbn [orb] in H. rewrite !andb_true_iff in H. destruct H as [[Hh Hf] Hv].
  cbn [B64.div]. rewrite (round_exact _ Hf).
  destruct (Qltb e 0), (decreasing st); cbn [negb Bool.eqb] in *;
    rewrite ?(round_exact _ Hh), max_of_floats;
    cbn [B64.sub B64.add value_calc] in *;
    rewrite (round_exact _ Hv); reflexivity.
Qed.

(** A run that does not round is the run of the exact solver. *)
Lemma while_loop_exact : forall fuel st,
  exact_passes objective_value func_eval num_iters_max precision fuel st
  = true ->
  float_outcome
    (while_loop objective_value func_eval num_iters_max precision fuel st)
  = Some (B64.while_loop (Fin objective_value) float_func_eval num_iters_max
            (Fin precision) fuel (float_state st)).
Proof.
  induction fuel as [| fuel IH]; intros st.
  - cbn [exact_passes while_loop B64.while_loop].
    cbn [float_state B64.error B64.num_iter B64.value_calc B64.abs B64.gtb B64.ltb].
    unfold Qgtb.
    destruct (Qltb precision (Qabs (error st)) && (num_iter st <? num_iters_max)%Z);
      reflexivity.
  - cbn [exact_passes while_loop B64.while_loop].
    cbn [float_state B64.error B64.num_iter B64.value_calc B64.abs B64.gtb B64.ltb].
    unfold Qgtb.
    destruct (Qltb precision (Qabs (error st)) && (num_iter st <? num_iters_max)%Z);
      [| reflexivity].
    intros H. apply andb_true_iff in H. destruct H as [Hp H].
    change (B64.SolverState (Fin (value_calc st)) (Fin (increment st))
              (decreasing st) (num_iter st) (Fin (error st))
              (Fin (iteration_value st))) with (float_state st).
    rewrite (loop_body_exact st Hp).
    destruct (loop_body objective_value func_eval precision st) as [st' | st'];
      [reflexivity |].
    cbn [float_state B64.num_iter B64.value_calc B64.increment
         B64.iteration_value].
    destruct (num_iter st' =? num_iters_max)%Z; [reflexivity |].
    cbn [orb] in H. now apply IH.
Qed.
End FloatRun.

Lemma iter_solver_exact
    (initial_value objective_value : Q) (func_eval : Q -> Q)
    (float_func_eval : b64 -> b64)
    (initial_increment : Q) (num_iters_max : Z) (precision : Q) :
  (forall v, float_func_eval (Fin v) = Fin (func_eval v)) ->
  exact_run initial_value objective_value func_eval initial_increment
    num_iters_max precision = true ->
  float_outcome
    (_iter_solver initial_value objective_value func_eval initial_increment
       num_iters_max precision)
  = Some (B64._iter_solver (Fin initial_value) (Fin objective_value)
            float_func_eval (Fin initial_increment) num_iters_max
            (Fin precision)).
Proof.
  intros F H. unfold exact_run in H. rewrite !andb_true_iff in H.
  destruct H as [[_ H0] H].
  unfold _iter_solver, B64._iter_solver.
  rewrite (while_loop_exact objective_value func_eval float_func_eval
             num_iters_max precision F _ _ H).
  unfold B64.initial_state, initial_state, float_state.
  cbn [value_calc increment decreasing num_iter error iteration_value].
  rewrite F. cbn [B64.sub]. now rewrite (round_exact _ H0).
Qed.

Lemma float_outcome_ok r w n :
  float_outcome r = Some (Ok (Fin w, n)) -> r = Ok (w, n).
Proof.
  destruct r as [[v m] | []]; cbn [float_outcome]; try discriminate.
  now intros [= -> ->].
Qed.

(** C1, amended.  Let the evaluation function be increasing with slope at
    most [L] and take the objective at a point [t].  Let [K] steps of the
    size [max(precision/20, initial_increment/2)] reach [t] from the
    initial value, let [H] halvings bring the step
    [max(precision/20, initial_increment)] down to a size that does not
    carry the value of the function across more than twice the precision,
    and let [K + 2 * H < num_iters_max].  Let no operation of the run
    round.  Then the solver returns a value whose error is at most
    [precision], after at most [K + 2 * H] passes; when the step has to be
    halved ([H > 0]) this needs that none of the values evaluated on the
    way has an error of [precision] exactly. *)
Theorem iter_solver_converges
    (func_eval : Q -> Q) (float_func_eval : b64 -> b64)
    (initial_value objective_value initial_increment precision L t : Q)
    (num_iters_max : Z) (K H : nat) :
  (forall v, float_func_eval (Fin v) = Fin (func_eval v)) ->
  exact_run initial_value objective_value func_eval initial_increment
    num_iters_max precision = true ->
  0 < precision ->
  increasing func_eval ->
  slope_at_most L func_eval ->
  func_eval t == objective_value ->
  L * halvings precision H (Qmax (precision / 20) initial_increment)
    <= 2 * precision ->
  Qabs (initial_value - t)
    <= inject_Z (Z.of_nat K) * Qmax (precision / 20) (initial_increment / 2) ->
  (Z.of_nat (K + 2 * H) < num_iters_max)%Z ->
  (H = 0%nat \/
   never_exact objective_value func_eval precision (K + 2 * H)
     (initial_state objective_value func_eval
        initial_value initial_increment) = true) ->
  exists v n,
    B64._iter_solver (Fin initial_value) (Fin objective_value)
      float_func_eval (Fin initial_increment) num_iters_max (Fin precision)
    = Ok (Fin v, n) /\
    Qabs (objective_value - func_eval v) <= precision /\
    (n <= Z.of_nat (K + 2 * H))%Z /\ (n < num_iters_max)%Z.
Proof.
  intros F E Hp Hi Hs Hr HL Hd HK Hn.
  destruct (halved_steps_converge func_eval initial_value objective_value
              initial_increment precision L t num_iters_max K H
              Hp Hi Hs Hr HL Hd HK Hn) as (v & n & R & P & N).
  exists v, n. split; [| split; [exact P | exact N]].
  pose proof (iter_solver_exact initial_value objective_value func_eval
                float_func_eval initial_increment num_iters_max precision
                F E) as S.
  rewrite R in S. cbn [float_outcome] in S. now injection S as <-.
Qed.

Lemma iter_solver_converges_witness :
  exists v n,
    B64._iter_solver (Fin 10) (Fin (91 # 128)) (fun v => v) (Fin 4)
      NUM_ITERS_MAX (Fin (5 # 512)) = Ok (Fin v, n) /\
    Qabs ((91 # 128) - v) <= 5 # 512 /\ (n <= 21)%Z.
Proof.
  destruct (iter_solver_converges
              (fun v => v) (fun v => v) 10 (91 # 128) 4 (5 # 512) 1 (91 # 128)
              NUM_ITERS_MAX 5 8)
    as (v & n & R & P & N & _).
  - reflexivity.
  - vm_compute. reflexivity.
  - reflexivity.
  - intros a b H. exact H.
  - intros a b H. lra.
  - reflexivity.
  - vm_compute. discriminate.
  - vm_compute. discriminate.
  - reflexivity.
  - right. vm_compute. reflexivity.
  - exists v, n. auto.
Defined.

(** X4. When no operation of the run rounds, the steps do not grow: none
    is larger than [max(precision / 20, initial_increment)].  A value
    returned after [n] iterations is therefore not further than [n] such
    steps from the initial value. *)
Theorem iter_solver_reach
    (initial_value objective_value : Q) (func_eval : Q -> Q)
    (float_func_eval : b64 -> b64)
    (initial_increment : Q) (num_iters_max : Z) (precision : Q)
    (v : Q) (n : Z) :
  (forall v, float_func_eval (Fin v) = Fin (func_eval v)) ->
  exact_run initial_value objective_value func_eval initial_increment
    num_iters_max precision = true ->
  0 <= precision ->
  B64._iter_solver (Fin initial_value) (Fin objective_value)
    float_func_eval (Fin initial_increment) num_iters_max (Fin precision)
  = Ok (Fin v, n) ->
  Qabs (v - initial_value)
    <= inject_Z n * Qmax (precision / 20) initial_increment.
Proof.
  intros F E P R.
  pose proof (iter_solver_exact initial_value objective_value func_eval
                float_func_eval initial_increment num_iters_max precision
                F E) as S.
  rewrite R in S. apply float_outcome_ok in S.
  now apply (solver_reach initial_value objective_value func_eval
               initial_increment num_iters_max precision).
Qed.

Lemma iter_solver_reach_witness :
  Qabs ((0 # 4) - 1) <= inject_Z 2 * Qmax ((5 # 512) / 20) (1 # 2).
Proof.
  apply (iter_solver_reach 1 0 (fun v => v) (fun v => v) (1 # 2)
           NUM_ITERS_MAX (5 # 512) (0 # 4) 2).
  - reflexivity.
  - vm_compute. reflexivity.
  - vm_compute. discriminate.
  - vm_compute. reflexivity.
Defined.

(** * The interpolation *)

(** ** Indexing *)

Lemma getitem_nat (a : list Q) (k : nat) :
  getitem a (Z.of_nat k) =
  match nth_error a k with Some v => Ok v | None => Raise IndexError end.
Proof.
  unfold getitem.
  destruct (Z.ltb_spec (Z.of_nat k) 0) as [H | H]; [lia |].
  destruct (Z.ltb_spec (Z.of_nat k) 0) as [H' | H']; [lia |].
  now rewrite Nat2Z.id.
Qed.

Lemma getitem_end (a : list Q) (k : nat) :
  (1 <= k)%nat ->
  getitem a (- Z.of_nat k) =
  if (k <=? length a)%nat then
    match nth_error a (length a - k) with
    | Some v => Ok v
    | None => Raise IndexError
    end
  else Raise IndexError.
Proof.
  intros Hk. unfold getitem.
  destruct (Z.ltb_spec (- Z.of_nat k) 0) as [H | H]; [| lia].
  destruct (Nat.leb_spec k (length a)) as [L | L].
  - destruct (Z.ltb_spec (Z.of_nat (length a) + - Z.of_nat k) 0) as [H' | H'];
      [lia |].
    replace (Z.to_nat (Z.of_nat (length a) + - Z.of_nat k))
      with (length a - k)%nat by lia.
    reflexivity.
  - destruct (Z.ltb_spec (Z.of_nat (length a) + - Z.of_nat k) 0) as [H' | H'];
      [reflexivity | lia].
Qed.

Lemma nth_error_in_range {A} (l : list A) (i : nat) :
  (i < length l)%nat -> exists v, nth_error l i = Some v.
Proof.
  intros H. destruct (nth_error l i) eqn:E; [eauto |].
  apply nth_error_None in E. lia.
Qed.

Lemma Qle_bool_false (a b : Q) : Qle_bool a b = false -> b < a.
Proof.
  intros H. destruct (Qlt_le_dec b a) as [L | L]; [exact L |].
  apply Qle_bool_iff in L. congruence.
Qed.

(** ** The loop of [Interp1D] *)

Section InterpLoop.
Variable self : Interp1D.
Variable x_new : Q.

(** The loop returns from the first interval that contains [x_new], and
    it ends when there is none. *)
Lemma interp_loop_spec (n k : nat) :
  (k + n < length (self_x self))%nat ->
  (interp_loop self x_new n (Z.of_nat k) = None /\
   forall i, (k <= i < k + n)%nat -> ~ encloses self x_new i) \/
  (exists i, (k <= i < k + n)%nat /\ encloses self x_new i /\
     (forall j, (k <= j < i)%nat -> ~ encloses self x_new j) /\
     interp_loop self x_new n (Z.of_nat k) =
     Some (line_through self x_new (Z.of_nat (S i)) (Z.of_nat i) (Z.of_nat i))).
Proof.
  revert k. induction n as [| n IH]; intros k Hk.
  - left. split; [reflexivity |]. intros i Hi. lia.
  - cbn [interp_loop].
    replace (Z.of_nat k + 1)%Z with (Z.of_nat (S k)) by lia.
    rewrite !getitem_nat.
    destruct (nth_error_in_range (self_x self) k) as [a Ha]; [lia |].
    destruct (nth_error_in_range (self_x self) (S k)) as [b Hb]; [lia |].
    rewrite Ha. cbn [bind].
    assert (Hrest :
      ~ encloses self x_new k ->
      (interp_loop self x_new n (Z.of_nat (S k)) = None /\
       forall i, (k <= i < k + S n)%nat -> ~ encloses self x_new i) \/
      (exists i, (k <= i < k + S n)%nat /\ encloses self x_new i /\
         (forall j, (k <= j < i)%nat -> ~ encloses self x_new j) /\
         interp_loop self x_new n (Z.of_nat (S k)) =
         Some (line_through self x_new (Z.of_nat (S i)) (Z.of_nat i)
                 (Z.of_nat i)))).
    { intros Hno. destruct (IH (S k)) as [[E N] | (i & Hi & Ei & Fi & E)];
        [lia | left | right].
      - split; [exact E |]. intros i Hi.
        destruct (Nat.eq_dec i k) as [-> | D]; [exact Hno |].
        apply N. lia.
      - exists i. split; [lia |]. split; [exact Ei |]. split; [| exact E].
        intros j Hj. destruct (Nat.eq_dec j k) as [-> | D]; [exact Hno |].
        apply Fi. lia. }
    destruct (Qle_bool a x_new) eqn:L1.
    + rewrite Hb. cbn [bind]. destruct (Qle_bool x_new b) eqn:L2.
      * right. exists k. split; [lia |]. split.
        { exists a, b. apply Qle_bool_iff in L1, L2. auto. }
        split; [intros j Hj; lia | reflexivity].
      * apply Hrest. intros (a' & b' & Ha' & Hb' & _ & H).
        apply Qle_bool_false in L2. rewrite Hb in Hb'.
        injection Hb' as <-. lra.
    + apply Hrest. intros (a' & b' & Ha' & Hb' & H & _).
      apply Qle_bool_false in L1. rewrite Ha in Ha'.
      injection Ha' as <-. lra.
Qed.

(** When no interval contains [x_new] and [x_new] is not below the first
    knot, it is above every later knot. *)
Lemma passed_all (a : Q) :
  nth_error (self_x self) 0 = Some a -> a <= x_new ->
  (forall i, (S i < length (self_x self))%nat -> ~ encloses self x_new i) ->
  forall j b, nth_error (self_x self) (S j) = Some b -> b < x_new.
Proof.
  intros Ha La No. induction j as [| j IH]; intros b Hb.
  - destruct (Qlt_le_dec b x_new) as [L | L]; [exact L |].
    exfalso. apply (No 0%nat).
    + apply nth_error_Some. congruence.
    + exists a, b. auto.
  - destruct (nth_error_in_range (self_x self) (S j)) as [c Hc].
    { assert (S (S j) < length (self_x self))%nat; [| lia].
      apply nth_error_Some. congruence. }
    specialize (IH c Hc).
    destruct (Qlt_le_dec b x_new) as [L | L]; [exact L |].
    exfalso. apply (No (S j)).
    + apply nth_error_Some. congruence.
    + exists c, b. split; [exact Hc |]. split; [exact Hb |]. lra.
Qed.
End InterpLoop.

(** ** The line through two knots *)

Lemma line_through_nat (self : Interp1D) (x_new : Q) (j k i : nat)
    (yj yk xj xk yi xi : Q) :
  nth_error (self_y self) j = Some yj ->
  nth_error (self_y self) k = Some yk ->
  nth_error (self_x self) j = Some xj ->
  nth_error (self_x self) k = Some xk ->
  nth_error (self_y self) i = Some yi ->
  nth_error (self_x self) i = Some xi ->
  line_through self x_new (Z.of_nat j) (Z.of_nat k) (Z.of_nat i) =
  Ok (float_line yi (float_div (yj - yk) (xj - xk)) (x_new - xi)).
Proof.
  intros H1 H2 H3 H4 H5 H6. unfold line_through.
  rewrite !getitem_nat, H1, H2, H3, H4, H5, H6. reflexivity.
Qed.

Lemma line_through_end (self : Interp1D) (x_new : Q) (yj yk xj xk : Q) :
  (2 <= length (self_x self))%nat -> (2 <= length (self_y self))%nat ->
  nth_error (self_y self) (length (self_y self) - 1) = Some yj ->
  nth_error (self_y self) (length (self_y self) - 2) = Some yk ->
  nth_error (self_x self) (length (self_x self) - 1) = Some xj ->
  nth_error (self_x self) (length (self_x self) - 2) = Some xk ->
  line_through self x_new (-1) (-1 - 1) (-1) =
  Ok (float_line yj (float_div (yj - yk) (xj - xk)) (x_new - xj)).
Proof.
  intros Lx Ly H1 H2 H3 H4. unfold line_through.
  change (-1 - 1)%Z with (- Z.of_nat 2)%Z.
  change (-1)%Z with (- Z.of_nat 1)%Z.
  rewrite !getitem_end by lia.
  assert (E1 : (1 <=? length (self_y self))%nat = true)
    by (apply Nat.leb_le; lia).
  assert (E2 : (2 <=? length (self_y self))%nat = true)
    by (apply Nat.leb_le; lia).
  assert (E3 : (1 <=? length (self_x self))%nat = true)
    by (apply Nat.leb_le; lia).
  assert (E4 : (2 <=? length (self_x self))%nat = true)
    by (apply Nat.leb_le; lia).
  rewrite E1, E2, E3, E4, H1, H2, H3, H4. reflexivity.
Qed.

(** ** What [Interp1D] returns *)

(** With two knots or more the call returns from one of three places:
    the loop, at the first interval that contains [x_new]; the
    extrapolation on the left; the extrapolation on the right.  The
    [assert] does not fail. *)
Lemma interp_call_cases (self : Interp1D) (x_new : Q) :
  (2 <= length (self_x self))%nat ->
  (exists i, (S i < length (self_x self))%nat /\
     encloses self x_new i /\
     (forall j, (j < i)%nat -> ~ encloses self x_new j) /\
     Interp1D_call self x_new =
     line_through self x_new (Z.of_nat (S i)) (Z.of_nat i) (Z.of_nat i)) \/
  ((exists a, nth_error (self_x self) 0 = Some a /\ x_new < a) /\
   (forall i, (S i < length (self_x self))%nat -> ~ encloses self x_new i) /\
   Interp1D_call self x_new = line_through self x_new 1 (1 - 1) 1) \/
  ((exists a, nth_error (self_x self) 0 = Some a /\ a <= x_new) /\
   (forall i b, nth_error (self_x self) (S i) = Some b -> b < x_new) /\
   Interp1D_call self x_new = line_through self x_new (-1) (-1 - 1) (-1)).
Proof.
  intros Len. unfold Interp1D_call.
  replace (Z.to_nat (Z.of_nat (length (self_x self)) - 1))
    with (length (self_x self) - 1)%nat by lia.
  destruct (interp_loop_spec self x_new (length (self_x self) - 1) 0)
    as [[E N] | (i & Hi & Ei & Fi & E)]; [lia | |].
  - change (Z.of_nat 0) with 0%Z in E. rewrite E.
    destruct (nth_error_in_range (self_x self) 0) as [a Ha]; [lia |].
    change 0%Z with (Z.of_nat 0). rewrite getitem_nat, Ha. cbn [bind].
    destruct (Qltb x_new a) eqn:L.
    + cbn [bind negb]. right. left. split; [| split; [| reflexivity]].
      * exists a. split; [reflexivity |]. now apply Qltb_lt.
      * intros i Hi. apply N. lia.
    + apply Qltb_ge in L.
      assert (P : forall j b, nth_error (self_x self) (S j) = Some b ->
                  b < x_new).
      { apply (passed_all self x_new a Ha L). intros i Hi. apply N. lia. }
      destruct (nth_error_in_range (self_x self) (length (self_x self) - 1))
        as [l Hl]; [lia |].
      change (-1)%Z with (- Z.of_nat 1)%Z. rewrite getitem_end by lia.
      assert (E1 : (1 <=? length (self_x self))%nat = true)
        by (apply Nat.leb_le; lia).
      rewrite E1, Hl. cbn [bind].
      assert (Ll : l < x_new).
      { apply (P (length (self_x self) - 2)%nat).
        replace (S (length (self_x self) - 2)) with (length (self_x self) - 1)%nat
          by lia.
        exact Hl. }
      assert (G : Qgtb x_new l = true).
      { unfold Qgtb. now apply Qltb_lt. }
      rewrite G. cbn [negb]. right. right.
      split; [| split; [exact P | reflexivity]].
      exists a. split; [reflexivity | exact L].
  - change (Z.of_nat 0) with 0%Z in E. rewrite E. left. exists i.
    split; [lia |]. split; [exact Ei |]. split; [| reflexivity].
    intros j Hj. apply Fi. lia.
Qed.

Lemma line_through_raise (self : Interp1D) (x_new : Q) (j k i : Z) e :
  getitem (self_x self) j = Raise e \/ getitem (self_x self) k = Raise e ->
  exists e', line_through self x_new j k i = Raise e'.
Proof.
  intros H. unfold line_through.
  destruct (getitem (self_y self) j); cbn [bind]; eauto.
  destruct (getitem (self_y self) k); cbn [bind]; eauto.
  destruct H as [H | H]; rewrite H; cbn [bind]; eauto.
  destruct (getitem (self_x self) j); cbn [bind]; eauto.
Qed.

(** With fewer than two knots every call raises. *)
Lemma interp_few_knots (self : Interp1D) (x_new : Q) :
  (length (self_x self) < 2)%nat ->
  exists e, Interp1D_call self x_new = Raise e.
Proof.
  intros L. unfold Interp1D_call.
  replace (Z.to_nat (Z.of_nat (length (self_x self)) - 1)) with 0%nat by lia.
  cbn [interp_loop].
  destruct (self_x self) as [| a [| b l]] eqn:Ex; [| | cbn in L; lia].
  - cbn. eauto.
  - change (getitem [a] 0) with (@Ok hull_exception Q a). cbn [bind].
    destruct (Qltb x_new a) eqn:La; cbn [bind negb].
    + apply (line_through_raise self x_new 1 (1 - 1) 1 IndexError).
      left. rewrite Ex. reflexivity.
    + change (getitem [a] (-1)) with (@Ok hull_exception Q a). cbn [bind].
      destruct (Qgtb x_new a); cbn [negb]; [| eauto].
      apply (line_through_raise self x_new (-1) (-1 - 1) (-1) IndexError).
      right. rewrite Ex. reflexivity.
Qed.

(** X14. A call returns normally exactly when there are two knots or more,
    whatever the order of the knots ([self.y] being as long as [self.x]):
    with fewer knots it raises [IndexError] or [AssertionError], and with
    two or more neither an index nor the [assert] fails. *)
Theorem interp_returns_iff_two_knots (self : Interp1D) (x_new : Q) :
  (length (self_x self) <= length (self_y self))%nat ->
  (exists v, Interp1D_call self x_new = Ok v) <->
  (2 <= length (self_x self))%nat.
Proof.
  intros Len. split.
  - intros [v E].
    destruct (le_lt_dec 2 (length (self_x self))) as [L | L]; [exact L |].
    destruct (interp_few_knots self x_new L) as [e E']. congruence.
  - intros L.
    destruct (interp_call_cases self x_new L)
      as [(i & Hi & (a & b & Ha & Hb & _) & _ & E)
         | [((a & Ha & _) & _ & E) | (_ & _ & E)]]; rewrite E.
    + destruct (nth_error_in_range (self_y self) i) as [c Hc]; [lia |].
      destruct (nth_error_in_range (self_y self) (S i)) as [d Hd]; [lia |].
      rewrite (line_through_nat self x_new (S i) i i d c b a c a); eauto.
    + destruct (nth_error_in_range (self_x self) 1) as [b Hb]; [lia |].
      destruct (nth_error_in_range (self_y self) 0) as [c Hc]; [lia |].
      destruct (nth_error_in_range (self_y self) 1) as [d Hd]; [lia |].
      change (1 - 1)%Z with (Z.of_nat 0). change 1%Z with (Z.of_nat 1).
      rewrite (line_through_nat self x_new 1 0 1 d c b a d b); eauto.
    + destruct (nth_error_in_range (self_x self) (length (self_x self) - 1))
        as [b Hb]; [lia |].
      destruct (nth_error_in_range (self_x self) (length (self_x self) - 2))
        as [a Ha]; [lia |].
      destruct (nth_error_in_range (self_y self) (length (self_y self) - 1))
        as [d Hd]; [lia |].
      destruct (nth_error_in_range (self_y self) (length (self_y self) - 2))
        as [c Hc]; [lia |].
      rewrite (line_through_end self x_new d c b a); eauto; lia.
Qed.

(** X19. Two neighbouring knots with the same [x] and an [x_new] that the
    loop finds between them first: the slope is a division by zero, and
    the call returns a number that is not finite, without raising. *)
Theorem interp_repeated_knot (self : Interp1D) (x_new : Q) (i : nat) (a b : Q) :
  (length (self_x self) <= length (self_y self))%nat ->
  nth_error (self_x self) i = Some a ->
  nth_error (self_x self) (S i) = Some b ->
  a == b -> x_new == a ->
  (forall j, (j < i)%nat -> ~ encloses self x_new j) ->
  Interp1D_call self x_new = Ok NotFinite.
Proof.
  intros Len Ha Hb Eab Ex First.
  assert (Ri : (S i < length (self_x self))%nat)
    by (apply nth_error_Some; congruence).
  assert (Ei : encloses self x_new i) by (exists a, b; repeat split; auto; lra).
  destruct (interp_call_cases self x_new ltac:(lia))
    as [(k & Hk & (a' & b' & Ha' & Hb' & Hab') & Fk & E)
       | [(_ & N & _) | (_ & P & _)]].
  - assert (k = i).
    { destruct (lt_eq_lt_dec k i) as [[Lt | Eq] | Gt]; [| exact Eq |].
      - exfalso. apply (First k Lt). exists a', b'. auto.
      - exfalso. exact (Fk i Gt Ei). }
    subst k. assert (a' = a) by congruence. assert (b' = b) by congruence.
    subst a' b'.
    destruct (nth_error_in_range (self_y self) i) as [c Hc]; [lia |].
    destruct (nth_error_in_range (self_y self) (S i)) as [d Hd]; [lia |].
    rewrite E, (line_through_nat self x_new (S i) i i d c b a c a); auto.
    unfold float_div. assert (Z : Qeq_bool (b - a) 0 = true)
      by (apply Qeq_bool_iff; lra).
    now rewrite Z.
  - exfalso. exact (N i Ri Ei).
  - exfalso. specialize (P i b Hb). lra.
Qed.

Lemma interp_returns_iff_two_knots_witness :
  (exists v, Interp1D_call {| self_x := [2; 1; 3]; self_y := [0; 2; 3] |} 0
             = Ok v)
  <-> (2 <= 3)%nat.
Proof.
  apply (interp_returns_iff_two_knots
           {| self_x := [2; 1; 3]; self_y := [0; 2; 3] |} 0).
  simpl. lia.
Defined.

Lemma interp_repeated_knot_witness :
  Interp1D_call {| self_x := [1; 1; 2]; self_y := [0; 1; 2] |} 1
  = Ok NotFinite.
Proof.
  apply (interp_repeated_knot
           {| self_x := [1; 1; 2]; self_y := [0; 1; 2] |} 1 0 1 1).
  - simpl. lia.
  - reflexivity.
  - reflexivity.
  - reflexivity.
  - reflexivity.
  - intros j Hj. lia.
Defined.

(** * The colours *)


Lemma mod_color_scale_branch (color : list Q) (m : Q) :
  999 # 1000 <= Qabs m ->
  mod_color color m =
  map (fun c => Qmax 0 (Qmin 1 (c * (1 + m / 100)))) color.
Proof.
  intros H. unfold mod_color. apply Qltb_ge in H. now rewrite H.
Qed.


Lemma clamp_range (v : Q) : 0 <= Qmax 0 (Qmin 1 v) <= 1.
Proof.
  split; [apply Q.le_max_l |].
  apply Q.max_lub; [lra | apply Q.le_min_l].
Qed.

(** X22. A percentage ([abs(modification) >= 0.999]) keeps the number of
    channels, and every channel of the result is between 0 and 1,
    whatever the channels of the colour were. *)
Theorem mod_color_percentage_in_range (color : list Q) (m : Q) :
  999 # 1000 <= Qabs m ->
  length (mod_color color m) = length color /\
  Forall (fun c => 0 <= c <= 1) (mod_color color m).
Proof.
  intros H. rewrite (mod_color_scale_branch _ _ H). split.
  - apply length_map.
  - apply Forall_forall. intros c Hc. apply in_map_iff in Hc.
    destruct Hc as (c0 & <- & _). apply clamp_range.
Qed.

(** X23. On channels between 0 and 1 a positive percentage lightens and a
    negative one darkens: no channel goes down for
    [modification >= 0.999], none goes up for [modification <= -0.999],
    and [modification <= -100] gives black. *)
Theorem mod_color_lightens_or_darkens (color : list Q) (m : Q) :
  Forall (fun c => 0 <= c <= 1) color ->
  999 # 1000 <= Qabs m ->
  (0 <= m -> Forall2 (fun c r => c <= r) color (mod_color color m)) /\
  (m <= 0 -> Forall2 (fun c r => r <= c) color (mod_color color m)) /\
  (m <= -100 -> Forall (fun r => r == 0) (mod_color color m)).
Proof.
  intros Hc H. rewrite (mod_color_scale_branch _ _ H).
  change (m / 100) with (m * (1 # 100)).
  split; [| split]; intros Hm.
  - induction Hc as [| c l [C0 C1] _ IH]; cbn [map]; constructor; [| exact IH].
    apply Q.max_le_iff. right. apply Q.min_glb; [lra | nra].
  - induction Hc as [| c l [C0 C1] _ IH]; cbn [map]; constructor; [| exact IH].
    apply Q.max_lub; [lra |].
    apply Qle_trans with (c * (1 + m * (1 # 100))); [apply Q.le_min_r | nra].
  - induction Hc as [| c l [C0 C1] _ IH]; cbn [map]; constructor; [| exact IH].
    apply Qle_antisym; [| apply Q.le_max_l].
    apply Q.max_lub; [lra |].
    apply Qle_trans with (c * (1 + m * (1 # 100))); [apply Q.le_min_r | nra].
Qed.


Lemma mod_color_percentage_in_range_witness :
  Forall (fun c => 0 <= c <= 1) (mod_color [1 # 2; 3; -1] 20).
Proof.
  apply (mod_color_percentage_in_range [1 # 2; 3; -1] 20).
  vm_compute. discriminate.
Defined.

Lemma mod_color_lightens_or_darkens_witness :
  Forall2 (fun c r => c <= r) [1 # 2; 1 # 4; 1] (mod_color [1 # 2; 1 # 4; 1] 20).
Proof.
  apply (mod_color_lightens_or_darkens [1 # 2; 1 # 4; 1] 20).
  - repeat constructor; vm_compute; discriminate.
  - vm_compute. discriminate.
  - vm_compute. discriminate.
Defined.

(** * The styles of an SVG text *)

(** ** Slices of a text *)

Lemma string_length_append (s1 s2 : string) :
  String.length (s1 ++ s2) = (String.length s1 + String.length s2)%nat.
Proof. induction s1 as [| c s1 IH]; cbn; [reflexivity | now rewrite IH]. Qed.

Lemma substring_all (s : string) : substring 0 (String.length s) s = s.
Proof. induction s as [| c s IH]; cbn; [reflexivity | now rewrite IH]. Qed.

Lemma substring_split (s : string) (k : nat) :
  (substring 0 k s ++ substring k (String.length s - k) s)%string = s.
Proof.
  revert k. induction s as [| c s IH]; intros k.
  - destruct k; reflexivity.
  - destruct k as [| k].
    + rewrite Nat.sub_0_r. change (substring 0 0 (String c s)) with ""%string.
      change ("" ++ ?x)%string with x. apply substring_all.
    + cbn [substring String.append String.length Nat.sub]. now rewrite IH.
Qed.

Lemma substring_length_to (s : string) (k : nat) :
  (k <= String.length s)%nat -> String.length (substring 0 k s) = k.
Proof.
  revert k. induction s as [| c s IH]; intros k H.
  - cbn in H. destruct k; [reflexivity | lia].
  - destruct k as [| k]; [reflexivity |].
    cbn in *. rewrite IH; [reflexivity | lia].
Qed.

Lemma substring_of_rest (s : string) (k m : nat) :
  substring 0 m (substring k (String.length s - k) s) = substring k m s.
Proof.
  revert k. induction s as [| c s IH]; intros k.
  - destruct k, m; reflexivity.
  - destruct k as [| k].
    + rewrite Nat.sub_0_r. now rewrite substring_all.
    + cbn [substring String.length Nat.sub]. apply IH.
Qed.

Lemma index_le (n m : nat) (s1 s2 : string) :
  index n s1 s2 = Some m -> (m <= String.length s2)%nat.
Proof.
  revert n m. induction s2 as [| c s2 IH]; intros n m H.
  - cbn in H. destruct n; [| discriminate].
    destruct s1; [| discriminate]. injection H as <-. cbn. lia.
  - cbn [index] in H. destruct n as [| n].
    + destruct (prefix s1 (String c s2)).
      * injection H as <-. cbn. lia.
      * destruct (index 0 s1 s2) as [k |] eqn:E; [| discriminate].
        injection H as <-. apply IH in E. cbn. lia.
    + destruct (index n s1 s2) as [k |] eqn:E; [| discriminate].
      injection H as <-. apply IH in E. cbn. lia.
Qed.

Lemma slices_split (s : string) (i : Z) :
  (slice_to s i ++ slice_from s i)%string = s.
Proof. unfold slice_to, slice_from. apply substring_split. Qed.

Lemma inserted_text_length (defs text : string) :
  (1 <= String.length (inserted_text defs text))%nat.
Proof.
  unfold inserted_text. rewrite !string_length_append.
  change (String.length newline) with 1%nat. lia.
Qed.

Section AddStylingProofs.
Variable OSError : Type.
Variable read_text : string -> result OSError string.

(** X24. With both arguments given and a text that contains [</defs>], the
    text is cut in front of the first [</defs>] and the definitions and
    the style element are put in between: nothing of the text is lost or
    changed. *)
Theorem add_styling_at_first_defs (original : string)
    (css_styles : css_styles_arg) (svg_definitions text_css : string)
    (k : nat) :
  text_of_css OSError read_text css_styles = Ok text_css ->
  index 0 "</defs>" original = Some k ->
  exists pre post,
    original = (pre ++ post)%string /\
    String.length pre = k /\
    prefix "</defs>" post = true /\
    (forall p, (p < k)%nat -> substring p 7 original <> "</defs>"%string) /\
    add_styling_to_svg OSError read_text original
      (Some css_styles) (Some svg_definitions)
    = Ok (pre ++ inserted_text svg_definitions text_css ++ post)%string.
Proof.
  intros Ht Hk.
  exists (slice_to original (Z.of_nat k)), (slice_from original (Z.of_nat k)).
  pose proof (index_le _ _ _ _ Hk) as Le.
  assert (B : slice_bound (String.length original) (Z.of_nat k) = k).
  { unfold slice_bound. destruct (Z.ltb_spec (Z.of_nat k) 0); lia. }
  split; [symmetry; apply slices_split |]. split.
  { unfold slice_to. rewrite B. now apply substring_length_to. }
  split.
  { unfold slice_from. rewrite B. apply prefix_correct.
    rewrite substring_of_rest. exact (index_correct1 _ _ _ _ Hk). }
  split.
  { intros p Hp. apply (index_correct2 _ _ _ _ Hk p); lia. }
  unfold add_styling_to_svg, find. rewrite Hk, Ht. reflexivity.
Qed.

(** X25. With both arguments given and a text without [</defs>], [find]
    gives -1 and the definitions and the style element are put in front
    of the last character of the text. *)
Theorem add_styling_without_defs (original : string)
    (css_styles : css_styles_arg) (svg_definitions text_css : string) :
  text_of_css OSError read_text css_styles = Ok text_css ->
  index 0 "</defs>" original = None ->
  exists pre post,
    original = (pre ++ post)%string /\
    String.length post = Nat.min 1 (String.length original) /\
    add_styling_to_svg OSError read_text original
      (Some css_styles) (Some svg_definitions)
    = Ok (pre ++ inserted_text svg_definitions text_css ++ post)%string.
Proof.
  intros Ht Hk.
  exists (slice_to original (-1)), (slice_from original (-1)).
  split; [symmetry; apply slices_split |]. split.
  - pose proof (slices_split original (-1)) as S.
    apply (f_equal String.length) in S.
    rewrite string_length_append in S.
    assert (T : String.length (slice_to original (-1))
                = slice_bound (String.length original) (-1)).
    { unfold slice_to. apply substring_length_to. unfold slice_bound.
      cbn [Z.ltb Z.compare]. lia. }
    rewrite T in S. unfold slice_bound in S. cbn [Z.ltb Z.compare] in S. lia.
  - unfold add_styling_to_svg, find. rewrite Hk, Ht. reflexivity.
Qed.

(** X26. The text comes back unchanged exactly when one of the two
    arguments is missing: with the styles alone, or the definitions
    alone, nothing is inserted (and the file of the styles is not
    read). *)
Theorem add_styling_unchanged_iff (original : string)
    (css_styles : option css_styles_arg) (svg_definitions : option string) :
  add_styling_to_svg OSError read_text original css_styles svg_definitions
  = Ok original
  <-> css_styles = None \/ svg_definitions = None.
Proof.
  split.
  - intros H. destruct css_styles as [css |]; [| now left].
    destruct svg_definitions as [defs |]; [| now right].
    exfalso. unfold add_styling_to_svg in H.
    destruct (text_of_css OSError read_text css) as [text | e];
      [| discriminate].
    cbn [bind] in H. injection H as H.
    apply (f_equal String.length) in H.
    rewrite !string_length_append in H.
    pose proof (slices_split original (find original "</defs>")) as S.
    apply (f_equal String.length) in S.
    rewrite string_length_append in S.
    pose proof (inserted_text_length defs text). lia.
  - intros [-> | ->]; [reflexivity |].
    destruct css_styles; reflexivity.
Qed.
End AddStylingProofs.

Lemma add_styling_at_first_defs_witness :
  exists pre post,
    "<svg><defs>a</defs>b</svg>"%string = (pre ++ post)%string /\
    String.length pre = 12%nat /\
    prefix "</defs>" post = true /\
    (forall p, (p < 12)%nat ->
       substring p 7 "<svg><defs>a</defs>b</svg>" <> "</defs>"%string) /\
    add_styling_to_svg unit (fun _ => Raise tt) "<svg><defs>a</defs>b</svg>"
      (Some (CssText "p{}")) (Some "<g/>"%string)
    = Ok (pre ++ inserted_text "<g/>" "p{}" ++ post)%string.
Proof.
  apply (add_styling_at_first_defs unit (fun _ => Raise tt)
           "<svg><defs>a</defs>b</svg>" (CssText "p{}") "<g/>" "p{}" 12).
  - reflexivity.
  - reflexivity.
Defined.

Lemma add_styling_without_defs_witness :
  exists pre post,
    "<svg>b</svg>"%string = (pre ++ post)%string /\
    String.length post = Nat.min 1 (String.length "<svg>b</svg>") /\
    add_styling_to_svg unit (fun _ => Raise tt) "<svg>b</svg>"
      (Some (CssText "p{}")) (Some "<g/>"%string)
    = Ok (pre ++ inserted_text "<g/>" "p{}" ++ post)%string.
Proof.
  apply (add_styling_without_defs unit (fun _ => Raise tt)
           "<svg>b</svg>" (CssText "p{}") "<g/>" "p{}").
  - reflexivity.
  - reflexivity.
Defined.
